(** * The WebLLM bridge: a request/response broker

    Shallow embedding of [src/cognitio_app/backend/api/views/webllm_views.py]:
    the [WebLLMBridgeManager] registry, the prologue of the [webllm_chat]
    endpoint and the [stream_webllm_response] generator.

    Conventions of the embedding.
    - A Python [dict] whose iteration order is observed ([_requests]: [min]
      over its keys, [get_pending_requests], [get_status]) is an insertion
      ordered association list ([odict]).  The two dictionaries that are
      only looked up, assigned and popped ([_response_queues],
      [_completion_events]) are finite maps.
    - [threading.Event] objects are shared by reference between the
      dictionary and a thread blocked in [Event.wait]; they live in a heap
      of flags and the dictionary stores their addresses.
    - [uuid.uuid4()] and [datetime.now()] are inputs of the operation that
      calls them.  A [datetime] is a number of microseconds.
    - Every method body runs under [self._lock], so a method is one atomic
      transition of the registry; an exception leaves the mutations made
      before it in place.
    - [Event.wait] blocks on a timeout that is positive and at most
      [threading.TIMEOUT_MAX]; above it, with the flag not set, it raises
      [OverflowError].  The blocking call is a function of the schedule
      of the other threads; when it raises is a predicate of its own,
      which the views consult before they block. *)

From stdpp Require Import gmap strings list fin_maps.
From Stdlib Require Import ZArith QArith.QArith_base.

Local Open Scope string_scope.
Local Open Scope Z_scope.
Local Open Scope list_scope.

(** ** Python values *)

Module Py.

(** Truth value of a [str]: the empty string is falsy. *)
Definition str_truthy (s : string) : bool :=
  match s with EmptyString => false | String _ _ => true end.

(** Truth value of an [Optional[str]]. *)
Definition opt_truthy (o : option string) : bool :=
  match o with None => false | Some s => str_truthy s end.

(** [a or b] on optional strings: [a] when truthy, else [b]. *)
Definition or_else (a b : option string) : option string :=
  if opt_truthy a then a else b.

(** Exceptions the modelled code can raise. *)
Inductive exn := KeyError (key : string) | ValueError (msg : string).

Inductive result (A : Type) :=
| Ret (a : A)
| Raise (e : exn).
Global Arguments Ret {A} a.
Global Arguments Raise {A} e.

(** [min(xs, key=f)]: the first element whose key is minimal; [None]
    stands for the [ValueError] on an empty sequence. *)
Fixpoint min_from {A} (key : A → Z) (best : A) (xs : list A) : A :=
  match xs with
  | [] => best
  | x :: xs' => min_from key (if Z.ltb (key x) (key best) then x else best) xs'
  end.

Definition min_by {A} (key : A → Z) (xs : list A) : option A :=
  match xs with
  | [] => None
  | x :: xs' => Some (min_from key x xs')
  end.

End Py.

(** ** Insertion-ordered dictionaries *)

Module ODict.
Section Defs.
Context {K V : Type} `{EqDecision K}.

Definition keys (d : list (K * V)) : list K := d.*1.
Definition values (d : list (K * V)) : list V := d.*2.

(** [d.get(k)] *)
Fixpoint get (k : K) (d : list (K * V)) : option V :=
  match d with
  | [] => None
  | (k', v) :: d' => if decide (k = k') then Some v else get k d'
  end.

(** [k in d] *)
Definition mem (k : K) (d : list (K * V)) : bool :=
  match get k d with Some _ => true | None => false end.

(** [d[k] = v]: an existing key keeps its position, a new key goes last. *)
Fixpoint set (k : K) (v : V) (d : list (K * V)) : list (K * V) :=
  match d with
  | [] => [(k, v)]
  | (k', v') :: d' =>
      if decide (k = k') then (k, v) :: d' else (k', v') :: set k v d'
  end.

(** In-place mutation of the object stored under [k]. *)
Fixpoint alter (f : V → V) (k : K) (d : list (K * V)) : list (K * V) :=
  match d with
  | [] => []
  | (k', v) :: d' =>
      if decide (k = k') then (k', f v) :: d' else (k', v) :: alter f k d'
  end.

(** [d.pop(k, None)] *)
Fixpoint pop (k : K) (d : list (K * V)) : list (K * V) :=
  match d with
  | [] => []
  | (k', v) :: d' =>
      if decide (k = k') then pop k d' else (k', v) :: pop k d'
  end.
End Defs.
End ODict.

(** ** Data model *)

Definition DEFAULT_WEBLLM_TIMEOUT : Z := 180.
Definition MAX_CONCURRENT_REQUESTS : nat := 10.
Definition CLEANUP_INTERVAL : Z := 300.
Definition REQUEST_TTL : Z := 600.

(** The three literals assigned to [WebLLMRequest.status]. *)
Inductive Status := pending | processing | completed.

Global Instance Status_eq_dec : EqDecision Status.
Proof. solve_decision. Defined.

Record WebLLMRequest := mkRequest {
  request_id : string;
  request_type : string;
  content : string;
  system_prompt : string;
  model : string;
  temperature : Q;
  max_tokens : Z;
  stream : bool;
  timeout : Z;
  session_id : option string;
  created_at : Z;
  status : Status
}.

Definition set_status (s : Status) (r : WebLLMRequest) : WebLLMRequest :=
  mkRequest (request_id r) (request_type r) (content r) (system_prompt r)
            (model r) (temperature r) (max_tokens r) (stream r) (timeout r)
            (session_id r) (created_at r) s.

Record WebLLMResponse := mkResponse {
  resp_request_id : string;
  resp_content : string;
  resp_error : option string;
  resp_usage : list (string * Z);
  resp_done : bool;
  resp_created_at : Z
}.

(** The [request_data] dictionary of [create_request]: [None] is a missing
    key. *)
Record RequestData := mkData {
  d_type : option string;
  d_content : option string;
  d_system_prompt : option string;
  d_model : option string;
  d_temperature : option Q;
  d_max_tokens : option Z;
  d_stream : option bool;
  d_timeout : option Z;
  d_session_id : option string
}.

(** ** The registry *)

Record Bridge := mkBridge {
  requests : list (string * WebLLMRequest);
  response_queues : gmap string (list WebLLMResponse);
  completion_events : gmap string nat;
  event_heap : list bool
}.

Definition with_requests (f : list (string * WebLLMRequest) → list (string * WebLLMRequest))
    (st : Bridge) : Bridge :=
  mkBridge (f (requests st)) (response_queues st) (completion_events st) (event_heap st).

Definition with_queues (f : gmap string (list WebLLMResponse) → gmap string (list WebLLMResponse))
    (st : Bridge) : Bridge :=
  mkBridge (requests st) (f (response_queues st)) (completion_events st) (event_heap st).

Definition with_events (f : gmap string nat → gmap string nat) (st : Bridge) : Bridge :=
  mkBridge (requests st) (response_queues st) (f (completion_events st)) (event_heap st).

Definition with_heap (f : list bool → list bool) (st : Bridge) : Bridge :=
  mkBridge (requests st) (response_queues st) (completion_events st) (f (event_heap st)).

(** [Event.set()] on the object at address [ev]. *)
Definition event_set (ev : nat) (st : Bridge) : Bridge :=
  with_heap (λ h, <[ev := true]> h) st.

(** [Event.is_set()] *)
Definition event_is_set (ev : nat) (st : Bridge) : bool :=
  default false (event_heap st !! ev).

(** [WebLLMBridgeManager.__init__] (the timer apart). *)
Definition init : Bridge := mkBridge [] ∅ ∅ [].

(** ** [WebLLMBridgeManager] *)

Definition seconds (n : Z) : Z := n * 1000000.

(** [_remove_request]: pops the request and its queue, then sets the
    completion event (if there is one) before popping it. *)
Definition _remove_request (request_id : string) (st : Bridge) : Bridge :=
  let st1 := with_requests (ODict.pop request_id) st in
  let st2 := with_queues (delete request_id) st1 in
  match completion_events st2 !! request_id with
  | Some ev => with_events (delete request_id) (event_set ev st2)
  | None => st2
  end.

(** [(now - req.created_at).total_seconds() > REQUEST_TTL] *)
Definition expired (now : Z) (req : WebLLMRequest) : bool :=
  Z.ltb (seconds REQUEST_TTL) (now - created_at req).

(** The ids collected by the list comprehension of
    [_cleanup_expired_requests]. *)
Definition expired_ids (now : Z) (st : Bridge) : list string :=
  (filter (λ kv, expired now kv.2 = true) (requests st)).*1.

(** [_cleanup_expired_requests], one cycle at time [now]. *)
Definition _cleanup_expired_requests (now : Z) (st : Bridge) : Bridge :=
  foldl (λ s req_id, _remove_request req_id s) st (expired_ids now st).

(** The dataclass built from [request_data] with the defaults of [.get]. *)
Definition build_request (uuid : string) (now : Z) (request_data : RequestData)
    : WebLLMRequest :=
  mkRequest uuid
    (default "chat" (d_type request_data))
    (default "" (d_content request_data))
    (default "You are a helpful AI assistant." (d_system_prompt request_data))
    (default "Llama-3.2-1B-Instruct" (d_model request_data))
    (default (Qmake 7 10) (d_temperature request_data))
    (default 4096 (d_max_tokens request_data))
    (default false (d_stream request_data))
    (default DEFAULT_WEBLLM_TIMEOUT (d_timeout request_data))
    (d_session_id request_data)
    now
    pending.

(** [create_request]; [uuid] is the value of [str(uuid.uuid4())] and [now]
    that of [datetime.now()]. *)
Definition create_request (uuid : string) (now : Z) (request_data : RequestData)
    (st : Bridge) : Py.result WebLLMRequest * Bridge :=
  let webllm_request := build_request uuid now request_data in
  let vacated :=
    if Nat.leb MAX_CONCURRENT_REQUESTS (length (requests st)) then
      match Py.min_by (λ kv : string * WebLLMRequest, created_at kv.2) (requests st) with
      | Some (oldest_id, _) => Py.Ret (_remove_request oldest_id st)
      | None => Py.Raise (Py.ValueError "min() arg is an empty sequence")
      end
    else Py.Ret st in
  match vacated with
  | Py.Raise e => (Py.Raise e, st)
  | Py.Ret st1 =>
      let st2 := with_requests (ODict.set uuid webllm_request) st1 in
      let ev := length (event_heap st2) in
      let st3 := with_events (insert uuid ev) (with_heap (λ h, h ++ [false]) st2) in
      let st4 := if stream webllm_request
                 then with_queues (insert uuid []) st3 else st3 in
      (Py.Ret webllm_request, st4)
  end.

(** [get_pending_requests] *)
Definition get_pending_requests (st : Bridge) : list WebLLMRequest :=
  filter (λ req, status req = pending) (ODict.values (requests st)).

(** [mark_processing] *)
Definition mark_processing (request_id : string) (st : Bridge) : bool * Bridge :=
  if ODict.mem request_id (requests st)
  then (true, with_requests (ODict.alter (set_status processing) request_id) st)
  else (false, st).

(** The two statements that end both completing branches of
    [submit_response]: set the event, then mark the request completed. *)
Definition signal_completed (request_id : string) (st : Bridge)
    : Py.result bool * Bridge :=
  match completion_events st !! request_id with
  | None => (Py.Raise (Py.KeyError request_id), st)
  | Some ev =>
      (Py.Ret true,
       with_requests (ODict.alter (set_status completed) request_id) (event_set ev st))
  end.

(** [submit_response] *)
Definition submit_response (request_id : string) (response : WebLLMResponse)
    (st : Bridge) : Py.result bool * Bridge :=
  match ODict.get request_id (requests st) with
  | None => (Py.Ret false, st)
  | Some request =>
      if stream request then
        match response_queues st !! request_id with
        | Some queue =>
            let st1 := with_queues (insert request_id (queue ++ [response])) st in
            if resp_done response || Py.opt_truthy (resp_error response)
            then signal_completed request_id st1
            else (Py.Ret true, st1)
        | None => (Py.Ret false, st)
        end
      else
        signal_completed request_id
          (with_queues (insert request_id [response]) st)
  end.

(** [get_response] *)
Definition get_response (request_id : string) (st : Bridge)
    : option WebLLMResponse * Bridge :=
  match response_queues st !! request_id with
  | None => (None, st)
  | Some [] => (None, st)
  | Some (response :: queue) =>
      (Some response, with_queues (insert request_id queue) st)
  end.

(** [get_final_response] *)
Definition get_final_response (request_id : string) (st : Bridge)
    : option WebLLMResponse * Bridge :=
  match response_queues st !! request_id with
  | None => (None, st)
  | Some [] => (None, st)
  | Some (response :: queue) =>
      (Some response,
       _remove_request request_id (with_queues (insert request_id queue) st))
  end.

(** [cancel_request] *)
Definition cancel_request (request_id : string) (st : Bridge) : Bridge :=
  if ODict.mem request_id (requests st) then _remove_request request_id st else st.

Record StatusInfo := mkStatusInfo {
  total_requests : nat;
  requests_by_status : list (Status * nat);
  max_concurrent : nat;
  bridge_active : bool
}.

(** The counting loop of [get_status]. *)
Definition count_status (acc : list (Status * nat)) (req : WebLLMRequest)
    : list (Status * nat) :=
  ODict.set (status req) (default 0%nat (ODict.get (status req) acc) + 1)%nat acc.

(** [get_status] *)
Definition get_status (st : Bridge) : StatusInfo :=
  mkStatusInfo (length (requests st))
               (foldl count_status [] (ODict.values (requests st)))
               MAX_CONCURRENT_REQUESTS
               true.

(** ** Traces of operations *)

Inductive Op :=
| OpCreate (uuid : string) (now : Z) (request_data : RequestData)
| OpGetPending
| OpMarkProcessing (request_id : string)
| OpSubmit (request_id : string) (response : WebLLMResponse)
| OpGetResponse (request_id : string)
| OpGetFinal (request_id : string)
| OpCancel (request_id : string)
| OpGetStatus
| OpCleanup (now : Z).

Inductive Output :=
| OutRequest (r : Py.result WebLLMRequest)
| OutPending (l : list WebLLMRequest)
| OutBool (b : Py.result bool)
| OutResponse (o : option WebLLMResponse)
| OutStatus (s : StatusInfo)
| OutNone.

Definition step (op : Op) (st : Bridge) : Output * Bridge :=
  match op with
  | OpCreate uuid now d => let '(r, st') := create_request uuid now d st in (OutRequest r, st')
  | OpGetPending => (OutPending (get_pending_requests st), st)
  | OpMarkProcessing id => let '(b, st') := mark_processing id st in (OutBool (Py.Ret b), st')
  | OpSubmit id r => let '(b, st') := submit_response id r st in (OutBool b, st')
  | OpGetResponse id => let '(o, st') := get_response id st in (OutResponse o, st')
  | OpGetFinal id => let '(o, st') := get_final_response id st in (OutResponse o, st')
  | OpCancel id => (OutNone, cancel_request id st)
  | OpGetStatus => (OutStatus (get_status st), st)
  | OpCleanup now => (OutNone, _cleanup_expired_requests now st)
  end.

(** The registry after a sequence of operations. *)
Definition exec (ops : list Op) (st : Bridge) : Bridge :=
  foldl (λ s op, (step op s).2) st ops.

(** The operations with what each returned. *)
Fixpoint trace (ops : list Op) (st : Bridge) : list (Op * Output) :=
  match ops with
  | [] => []
  | op :: ops' => let '(out, st') := step op st in (op, out) :: trace ops' st'
  end.

(** ** Blocking on the completion event *)

(** [timeout or (request.timeout if request else DEFAULT_WEBLLM_TIMEOUT)]:
    [None] and [0] are falsy. *)
Definition actual_timeout (timeout_arg : option Z) (request : option WebLLMRequest) : Z :=
  let fallback :=
    match request with
    | Some r => timeout r
    | None => DEFAULT_WEBLLM_TIMEOUT
    end in
  match timeout_arg with
  | Some t => if Z.eqb t 0 then fallback else t
  | None => fallback
  end.

(** [threading.TIMEOUT_MAX], in seconds: the largest timeout a blocking
    call accepts (its value in CPython on a 64-bit POSIX system). *)
Definition TIMEOUT_MAX : Z := 9223372036.

(** [Event.wait(timeout)] on the object at address [ev], for a call that
    returns.  While the caller is blocked the other threads run the
    operations of [sched], each stamped with the time elapsed since the
    previous one.  The caller wakes as soon as the flag is set and gets
    [True]; if the time left runs out first, or nothing more happens, it
    gets [False].  The schedule that has not been run yet and the registry
    at wake-up are returned as well.

    [Event.wait] looks at its timeout only when the flag is not set.  It
    then blocks if the timeout is positive and at most [TIMEOUT_MAX]; a
    timeout that is zero or negative makes the call non-blocking, so that
    only operations stamped with no delay can precede its return; above
    [TIMEOUT_MAX] the call raises [OverflowError]: [wait_raises] below
    tells when, and the function gives no outcome of its own for such a
    call. *)
Fixpoint event_wait (ev : nat) (remaining : Z) (sched : list (Z * Op)) (st : Bridge)
    : bool * list (Z * Op) * Bridge :=
  if event_is_set ev st then (true, sched, st)
  else
    match sched with
    | [] => (false, [], st)
    | (dt, op) :: sched' =>
        if Z.ltb remaining dt then (false, sched, st)
        else event_wait ev (remaining - dt) sched' (step op st).2
    end.

(** [wait_for_completion] *)
Definition wait_for_completion (request_id : string) (timeout_arg : option Z)
    (sched : list (Z * Op)) (st : Bridge) : bool * list (Z * Op) * Bridge :=
  match completion_events st !! request_id with
  | None => (false, sched, st)
  | Some event =>
      let request := ODict.get request_id (requests st) in
      event_wait event (seconds (actual_timeout timeout_arg request)) sched st
  end.

(** [wait_for_completion] raises instead of returning: the request has an
    event, its flag is not set, and the timeout in force exceeds
    [TIMEOUT_MAX], so that [event.wait] raises [OverflowError].  Nothing is
    mutated before the exception. *)
Definition wait_raises (request_id : string) (timeout_arg : option Z) (st : Bridge)
    : bool :=
  match completion_events st !! request_id with
  | None => false
  | Some event =>
      let request := ODict.get request_id (requests st) in
      negb (event_is_set event st)
      && Z.ltb TIMEOUT_MAX (actual_timeout timeout_arg request)
  end.

(** ** The streaming adapter *)

(** The payloads handed to [json.dumps] by [stream_webllm_response]. *)
Inductive ErrorText :=
| UpstreamError (e : string)
| TimedOut (elapsed : Z)
| Inactive (time_since_activity : Z).

Inductive Frame :=
| FrameError (e : ErrorText)
| FrameDelta (delta : string)
| FrameUsage (usage : list (string * Z)).

Record StreamVars := mkVars {
  start_time : Z;
  last_activity : Z;
  response_received : bool
}.

(** How one pass through the body of [while True] ends: [break], back to
    the top at once, or [time.sleep(poll_interval)] first. *)
Inductive Control := Break | Continue | Sleep.

Definition poll_interval : Z := 200000.

(** One pass through the loop body.  [t_loop] is the value of
    [time.time()] at the top of the loop and [t_act] its value where the
    body reads it a second time.  [save_chat_messages] writes to the
    database only and swallows its errors. *)
Definition stream_iteration (webllm_request : WebLLMRequest) (t_loop t_act : Z)
    (v : StreamVars) (st : Bridge) : list Frame * Control * StreamVars * Bridge :=
  let elapsed := t_loop - start_time v in
  if Z.leb (seconds (timeout webllm_request)) elapsed then
    ([FrameError (TimedOut elapsed)], Break, v, st)
  else
    let '(response, st1) := get_response (request_id webllm_request) st in
    match response with
    | Some response =>
        let v1 := mkVars (start_time v) t_act true in
        if Py.opt_truthy (resp_error response) then
          ([FrameError (UpstreamError (default "" (resp_error response)))], Break, v1, st1)
        else if Py.str_truthy (resp_content response) then
          if resp_done response then
            (FrameDelta (resp_content response) ::
               match resp_usage response with
               | [] => []
               | _ :: _ => [FrameUsage (resp_usage response)]
               end, Break, v1, st1)
          else ([FrameDelta (resp_content response)], Continue, v1, st1)
        else ([], Continue, v1, st1)
    | None =>
        let time_since_activity := t_act - last_activity v in
        let max_inactive_time := if negb (response_received v) then 30 else 10 in
        if Z.ltb (seconds max_inactive_time) time_since_activity then
          ([FrameError (Inactive time_since_activity)], Break, v, st1)
        else if negb (ODict.mem (request_id webllm_request) (requests st1)) then
          ([], Break, v, st1)
        else ([], Sleep, v, st1)
    end.

(** What surrounds one pass of the generator: the operations the other
    threads run before it and the time its two clock readings lag. *)
Record Tick := mkTick {
  others : list Op;
  lag_loop : nat;
  lag_act : nat
}.

(** The [while True] loop followed by the [finally] clause.  [None]: the
    schedule ended before the loop did. *)
Fixpoint stream_loop (webllm_request : WebLLMRequest) (sched : list Tick)
    (clock : Z) (v : StreamVars) (st : Bridge) : option (list Frame * Bridge) :=
  match sched with
  | [] => None
  | tk :: sched' =>
      let t_loop := clock + Z.of_nat (lag_loop tk) in
      let t_act := t_loop + Z.of_nat (lag_act tk) in
      let '(frames, ctl, v', st') :=
        stream_iteration webllm_request t_loop t_act v (exec (others tk) st) in
      match ctl with
      | Break => Some (frames, cancel_request (request_id webllm_request) st')
      | Continue =>
          match stream_loop webllm_request sched' t_act v' st' with
          | Some (more, st'') => Some (frames ++ more, st'')
          | None => None
          end
      | Sleep =>
          match stream_loop webllm_request sched' (t_act + poll_interval) v' st' with
          | Some (more, st'') => Some (frames ++ more, st'')
          | None => None
          end
      end
  end.

(** [stream_webllm_response], started when the clock reads [start]. *)
Definition stream_webllm_response (webllm_request : WebLLMRequest) (start : Z)
    (sched : list Tick) (st : Bridge) : option (list Frame * Bridge) :=
  stream_loop webllm_request sched start (mkVars start start false) st.

(** ** The [webllm_chat] endpoint *)

(** A [str] is a sequence of code points below 256; these are the ones
    [str.strip()] removes. *)
Definition is_space (c : Ascii.ascii) : bool :=
  let n := Ascii.N_of_ascii c in
  ((9 <=? n) && (n <=? 13) || (28 <=? n) && (n <=? 32) || (n =? 133) || (n =? 160))%N.

Fixpoint lstrip (s : string) : string :=
  match s with
  | EmptyString => EmptyString
  | String c s' => if is_space c then lstrip s' else s
  end.

Definition rstrip (s : string) : string :=
  String.rev (lstrip (String.rev s)).

Definition strip (s : string) : string := rstrip (lstrip s).

(** The fields [webllm_chat] reads from [request.data]; [None] is a missing
    key. *)
Record ChatPost := mkPost {
  p_content : option string;
  p_user_message : option string;
  p_system_prompt : option string;
  p_model : option string;
  p_temperature : option Q;
  p_max_tokens : option Z;
  p_stream : option bool;
  p_timeout : option Z;
  p_session_id : option string
}.

Definition allowed_models : list string :=
  ["Llama-3.2-1B-Instruct"; "Llama-3.2-3B-Instruct"; "Phi-3.5-mini-instruct";
   "Qwen2.5-0.5B-Instruct"; "Qwen2.5-1.5B-Instruct"].

Definition HTTP_400_BAD_REQUEST : Z := 400.
Definition HTTP_500_INTERNAL_SERVER_ERROR : Z := 500.

(** [str(e)] *)
Definition exn_str (e : Py.exn) : string :=
  match e with
  | Py.KeyError k => String.append "'" (String.append k "'")
  | Py.ValueError m => m
  end.

(** What [webllm_chat] has done once the request is registered: answered
    with an error, or created the request it then waits on or streams. *)
Inductive ChatOutcome :=
| Responded (error : string) (status_code : Z)
| Registered (webllm_request : WebLLMRequest).

(** [webllm_chat] up to and including its call of [create_request]. *)
Definition webllm_chat (data : ChatPost) (uuid : string) (now : Z) (st : Bridge)
    : ChatOutcome * Bridge :=
  let content :=
    strip (default "" (Py.or_else (Py.or_else (p_content data) (p_user_message data))
                                  (Some ""))) in
  let system_prompt := default "You are a helpful AI assistant." (p_system_prompt data) in
  let model := default "Llama-3.2-1B-Instruct" (p_model data) in
  let model := if bool_decide (model ∈ allowed_models) then model
               else "Llama-3.2-1B-Instruct" in
  if negb (Py.str_truthy content) then
    (Responded "Content is required" HTTP_400_BAD_REQUEST, st)
  else
    let request_data :=
      mkData (Some "chat") (Some content) (Some system_prompt) (Some model)
             (Some (default (Qmake 7 10) (p_temperature data)))
             (Some (default 4096 (p_max_tokens data)))
             (Some (default false (p_stream data)))
             (Some (default DEFAULT_WEBLLM_TIMEOUT (p_timeout data)))
             (p_session_id data) in
    match create_request uuid now request_data st with
    | (Py.Ret webllm_request, st') => (Registered webllm_request, st')
    | (Py.Raise e, st') => (Responded (exn_str e) HTTP_500_INTERNAL_SERVER_ERROR, st')
    end.

(** ** Notions used to state the properties *)

(** The ids of the live requests. *)
Definition request_ids (st : Bridge) : gset string :=
  list_to_set (ODict.keys (requests st)).

Definition live (id : string) (st : Bridge) : Prop :=
  id ∈ ODict.keys (requests st).

(** The state of a live request. *)
Definition status_of (id : string) (st : Bridge) : option Status :=
  status <$> ODict.get id (requests st).

(** Position of a state on the path pending, processing, completed. *)
Definition rank (s : Status) : nat :=
  match s with pending => 0 | processing => 1 | completed => 2 end.

(** Number of live requests in state [s]. *)
Definition count_in_state (s : Status) (st : Bridge) : nat :=
  length (filter (λ req, status req = s) (ODict.values (requests st))).

(** The registry is well formed: ids are unique, the requests and the
    completion events have the same ids, a queue belongs to a live
    request, every event address is allocated and owned by one id, and the
    capacity is respected. *)
Record bridge_inv (st : Bridge) : Prop := mkInv {
  inv_nodup : NoDup (ODict.keys (requests st));
  inv_events : ∀ id, is_Some (completion_events st !! id) ↔ live id st;
  inv_queues : ∀ id, is_Some (response_queues st !! id) → live id st;
  inv_heap : ∀ id ev, completion_events st !! id = Some ev →
                      (ev < length (event_heap st))%nat;
  inv_owner : ∀ id1 id2 ev, completion_events st !! id1 = Some ev →
                            completion_events st !! id2 = Some ev → id1 = id2;
  inv_capacity : (length (requests st) ≤ MAX_CONCURRENT_REQUESTS)%nat
}.

(** Flags are only ever set, and the heap only grows. *)
Definition heap_le (st st' : Bridge) : Prop :=
  (length (event_heap st) ≤ length (event_heap st'))%nat ∧
  ∀ ev, event_is_set ev st = true → event_is_set ev st' = true.

(** The responses [get_response id] handed out along a trace. *)
Definition delivered (id : string) (tr : list (Op * Output)) : list WebLLMResponse :=
  flat_map (λ e : Op * Output,
              match e with
              | (OpGetResponse id', OutResponse (Some r)) =>
                  if decide (id' = id) then [r] else []
              | _ => []
              end) tr.

(** The responses passed to [submit_response id] by a list of operations. *)
Definition submitted (id : string) (ops : list Op) : list WebLLMResponse :=
  flat_map (λ op, match op with
                  | OpSubmit id' r => if decide (id' = id) then [r] else []
                  | _ => []
                  end) ops.

(** A first-in first-out queue, as the streaming contract words it: a
    submission to [id] joins the back, a [get_response] on [id] takes the
    front if there is one, nothing else touches the queue.  The first
    component is what the operation hands out, the second the queue it
    leaves. *)
Definition fifo_op (id : string) (op : Op) (q : list WebLLMResponse)
    : list WebLLMResponse * list WebLLMResponse :=
  match op with
  | OpSubmit id' r => if decide (id' = id) then ([], q ++ [r]) else ([], q)
  | OpGetResponse id' =>
      if decide (id' = id) then
        match q with
        | [] => ([], [])
        | r :: q' => ([r], q')
        end
      else ([], q)
  | _ => ([], q)
  end.

(** What the queue hands out over a run of operations, and what it holds
    in the end. *)
Fixpoint fifo (id : string) (ops : list Op) (q : list WebLLMResponse)
    : list WebLLMResponse * list WebLLMResponse :=
  match ops with
  | [] => ([], q)
  | op :: ops' =>
      ((fifo_op id op q).1 ++ (fifo id ops' (fifo_op id op q).2).1,
       (fifo id ops' (fifo_op id op q).2).2)
  end.

Definition creates (id : string) (op : Op) : bool :=
  match op with
  | OpCreate uuid _ _ => bool_decide (uuid = id)
  | _ => false
  end.

(** Request [id] stays registered during [ops] and no [create_request]
    draws its id again. *)
Fixpoint live_throughout (id : string) (ops : list Op) (st : Bridge) : bool :=
  match ops with
  | [] => true
  | op :: ops' =>
      negb (creates id op)
      && ODict.mem id (requests (step op st).2)
      && live_throughout id ops' (step op st).2
  end.

(** Total time of a schedule of stamped operations. *)
Definition duration (sched : list (Z * Op)) : Z :=
  foldr (λ e acc, e.1 + acc) 0 sched.

(** The two halves of the critical section of [create_request]: make
    room when the registry is full, then register the new request. *)
Definition make_room (st : Bridge) : Bridge :=
  if Nat.leb MAX_CONCURRENT_REQUESTS (length (requests st)) then
    match Py.min_by (λ kv : string * WebLLMRequest, created_at kv.2) (requests st) with
    | Some (oldest_id, _) => _remove_request oldest_id st
    | None => st
    end
  else st.

Definition register (webllm_request : WebLLMRequest) (st : Bridge) : Bridge :=
  let uuid := request_id webllm_request in
  let st2 := with_requests (ODict.set uuid webllm_request) st in
  let st3 := with_events (insert uuid (length (event_heap st2)))
                         (with_heap (λ h, h ++ [false]) st2) in
  if stream webllm_request then with_queues (insert uuid []) st3 else st3.

(** Request [id] is a live streaming request whose queue holds [q]. *)
Definition streaming_with (id : string) (q : list WebLLMResponse) (st : Bridge) : Prop :=
  ∃ request, ODict.get id (requests st) = Some request ∧ stream request = true ∧
             response_queues st !! id = Some q.

(** The text [webllm_chat] strips: [content], else [user_message], else
    the empty string. *)
Definition posted_content (data : ChatPost) : string :=
  default "" (Py.or_else (Py.or_else (p_content data) (p_user_message data)) (Some "")).

(** Every character of [s] is one [str.strip()] removes. *)
Fixpoint blank (s : string) : bool :=
  match s with
  | EmptyString => true
  | String c s' => is_space c && blank s'
  end.

(** ** Sample inputs *)

Module Sample.
(** [{'content': 'hello', 'stream': s}] *)
Definition data (s : bool) : RequestData :=
  mkData None (Some "hello") None None None None (Some s) None None.

(** A response for request ["a"] without error or usage. *)
Definition reply (text : string) (final : bool) : WebLLMResponse :=
  mkResponse "a" text None [] final 0.

(** One request ["a"], created at time 0. *)
Definition one (s : bool) : Bridge := exec [OpCreate "a" 0 (data s)] init.

(** The request object [create_request] returned for ["a"]. *)
Definition request_a (s : bool) : WebLLMRequest := build_request "a" 0 (data s).

(** Ten requests ["r0"] to ["r9"]; ["r3"] has the earliest creation time. *)
Definition full : Bridge :=
  exec (zip_with (λ id now, OpCreate id now (data false))
          ["r0"; "r1"; "r2"; "r3"; "r4"; "r5"; "r6"; "r7"; "r8"; "r9"]
          [50; 30; 80; 10; 90; 20; 70; 60; 40; 100])
       init.

(** A last response with no text: [{content: '', usage: {...}, done: True}]. *)
Definition final_reply : WebLLMResponse :=
  mkResponse "a" "" None [("total_tokens", 12)] true 0.

(** Scenario B: a streaming request, three partial responses, then the
    empty final one. *)
Definition scenario_b : Bridge :=
  exec [OpCreate "a" 0 (data true);
        OpSubmit "a" (reply "x" false); OpSubmit "a" (reply "y" false);
        OpSubmit "a" (reply "z" false); OpSubmit "a" final_reply] init.

(** The consumer polls with no lag and nobody else touches the registry. *)
Definition quiet (n : nat) : list Tick := replicate n (mkTick [] 0 0).

(** A POST whose only field is [content]. *)
Definition post (text : option string) : ChatPost :=
  mkPost text None None None None None None None None.
End Sample.

(** ** The request views, whole *)

(** The texts of the [error] field; the ones built with an f-string keep
    the number they print.  [MsgOverflow prefix] is [prefix] followed by
    [str(e)] for the [OverflowError] of [Event.wait], whose text is the
    interpreter's. *)
Inductive ErrorMsg :=
| MsgText (text : string)
| MsgTimeoutAfter (custom_timeout : Z)
| MsgTimedOutAfter (timeout : Z)
| MsgGenerationFailed (text : string)
| MsgOverflow (prefix : string).

(** What a view returns: a JSON body with an [error] and a status code, a
    JSON body with [content] and [usage] (status 200), or a streaming
    response, given by the frames its generator yields.  [StreamingOpen]:
    the generator has not ended within the schedule. *)
Inductive HttpReply :=
| JsonError (error : ErrorMsg) (status_code : Z)
| JsonContent (content : string) (usage : list (string * Z))
| StreamingReply (frames : list Frame)
| StreamingOpen.

Definition HTTP_408_REQUEST_TIMEOUT : Z := 408.
Definition HTTP_504_GATEWAY_TIMEOUT : Z := 504.

(** The two [return] statements that follow [get_final_response] in both
    views. *)
Definition reply_of_final (response : option WebLLMResponse) : HttpReply :=
  match response with
  | Some r =>
      if Py.opt_truthy (resp_error r)
      then JsonError (MsgText (default "" (resp_error r))) HTTP_500_INTERNAL_SERVER_ERROR
      else JsonContent (resp_content r) (resp_usage r)
  | None => JsonContent "" []
  end.

(** The fields [webllm_generate] reads from [request.data]. *)
Record GeneratePost := mkGenerate {
  g_system_role : option string;
  g_question : option string;
  g_type : option string;
  g_max_tokens : option Z;
  g_temperature : option Q;
  g_timeout : option Z
}.

(** [webllm_generate].  [sched] is what the other threads do while the
    view is blocked in [wait_for_completion], [gap] what they do between
    its wake-up and its next call of the manager.  An exception of
    [create_request] or of [wait_for_completion] is caught by the
    [except Exception] of the view, which answers with status 500 and
    cancels nothing. *)
Definition webllm_generate (data : GeneratePost) (uuid : string) (now : Z)
    (sched : list (Z * Op)) (gap : list Op) (st : Bridge) : HttpReply * Bridge :=
  let system_role := default "" (g_system_role data) in
  let question := default "" (g_question data) in
  let request_type := default "generate" (g_type data) in
  let max_tokens := default 4096 (g_max_tokens data) in
  let temperature := default (Qmake 7 10) (g_temperature data) in
  let custom_timeout := default DEFAULT_WEBLLM_TIMEOUT (g_timeout data) in
  if negb (Py.str_truthy system_role) || negb (Py.str_truthy question) then
    (JsonError (MsgText "system_role and question are required") HTTP_400_BAD_REQUEST, st)
  else
    match create_request uuid now
            (mkData (Some request_type) (Some question) (Some system_role) None
                    (Some temperature) (Some max_tokens) (Some false)
                    (Some custom_timeout) None) st with
    | (Py.Raise e, st1) =>
        (JsonError (MsgGenerationFailed (exn_str e)) HTTP_500_INTERNAL_SERVER_ERROR, st1)
    | (Py.Ret webllm_request, st1) =>
        if wait_raises (request_id webllm_request) (Some custom_timeout) st1 then
          (JsonError (MsgOverflow "WebLLM generation failed: ")
                     HTTP_500_INTERNAL_SERVER_ERROR, st1)
        else
          let '(woken, _, st2) :=
            wait_for_completion (request_id webllm_request) (Some custom_timeout)
              sched st1 in
          if woken then
            let '(response, st3) :=
              get_final_response (request_id webllm_request) (exec gap st2) in
            (reply_of_final response, st3)
          else
            (JsonError (MsgTimeoutAfter custom_timeout) HTTP_408_REQUEST_TIMEOUT,
             cancel_request (request_id webllm_request) (exec gap st2))
    end.

(** [webllm_chat], whole: the prologue above, then either the streaming
    response, whose generator starts when the clock reads [start] and is
    driven by [ticks], or the blocking wait, whose [OverflowError] the
    [except Exception] of the view turns into status 500, cancelling
    nothing.  [save_chat_messages] writes to the database only and swallows
    its errors. *)
Definition webllm_chat_view (data : ChatPost) (uuid : string) (now : Z)
    (sched : list (Z * Op)) (gap : list Op) (start : Z) (ticks : list Tick)
    (st : Bridge) : HttpReply * Bridge :=
  match webllm_chat data uuid now st with
  | (Responded error status_code, st1) => (JsonError (MsgText error) status_code, st1)
  | (Registered webllm_request, st1) =>
      if default false (p_stream data) then
        match stream_webllm_response webllm_request start ticks st1 with
        | Some (frames, st2) => (StreamingReply frames, st2)
        | None => (StreamingOpen, st1)
        end
      else if wait_raises (request_id webllm_request)
                (Some (timeout webllm_request)) st1 then
        (JsonError (MsgOverflow "") HTTP_500_INTERNAL_SERVER_ERROR, st1)
      else
        let '(woken, _, st2) :=
          wait_for_completion (request_id webllm_request)
            (Some (timeout webllm_request)) sched st1 in
        if woken then
          let '(response, st3) :=
            get_final_response (request_id webllm_request) (exec gap st2) in
          (reply_of_final response, st3)
        else
          (JsonError (MsgTimedOutAfter (timeout webllm_request)) HTTP_504_GATEWAY_TIMEOUT,
           cancel_request (request_id webllm_request) (exec gap st2))
  end.

(** ** Other modules *)

(** [WebLLMChatApp.find_free_port] of [__main__.py].  A port number that
    is not in 0..65535 makes [s.bind] raise [OverflowError], which the
    [except OSError] of the loop does not catch: [PortOverflowError].  For
    a port number in that range, [bindable port] says whether
    [s.bind(('127.0.0.1', port))] succeeds rather than raising [OSError].
    [PortIndexError] is the [IndexError] of [port_list[0]] on an empty
    list. *)
Inductive PortResult := Port (port : Z) | PortIndexError | PortOverflowError.

Definition port_in_range (port : Z) : bool := Z.leb 0 port && Z.leb port 65535.

(** The [for] loop: what it returns or raises, or [None] when it runs to
    its end. *)
Fixpoint first_bindable (bindable : Z → bool) (port_list : list Z)
    : option PortResult :=
  match port_list with
  | [] => None
  | port :: rest =>
      if port_in_range port then
        if bindable port then Some (Port port) else first_bindable bindable rest
      else Some PortOverflowError
  end.

Definition find_free_port (bindable : Z → bool) (port_list : list Z) : PortResult :=
  match first_bindable bindable port_list with
  | Some result => result
  | None =>
      match port_list with
      | port :: _ => Port port
      | [] => PortIndexError
      end
  end.

(** [validate_required_fields] of [utils/helpers.py]; [data] is the input
    dictionary.  [None] is the empty dictionary it returns when nothing is
    missing, [Some missing] is [{'missing_fields': missing}]. *)
Definition validate_required_fields {V} (data : gmap string V)
    (required_fields : list string) : option (list string) :=
  let missing_fields := filter (λ field, data !! field = None) required_fields in
  match missing_fields with
  | [] => None
  | _ :: _ => Some missing_fields
  end.

(** [s[:n]] *)
Fixpoint str_take (n : nat) (s : string) : string :=
  match n, s with
  | O, _ => EmptyString
  | S n', EmptyString => EmptyString
  | S n', String c s' => String c (str_take n' s')
  end.

(** [ChatSession.get_last_message_preview] of [models/chat.py];
    [last_message] is the content of the row
    [self.messages.order_by('-created_at').first()] returns, if any. *)
Definition get_last_message_preview (last_message : option string) : string :=
  match last_message with
  | Some text =>
      let content := str_take 100 text in
      if Nat.ltb 100 (String.length text) then String.append content "..." else content
  | None => "No messages yet"
  end.

(** ** More notions *)

(** Every request is stored under its own [request_id]. *)
Definition keys_match (st : Bridge) : Prop :=
  ∀ id r, ODict.get id (requests st) = Some r → request_id r = id.

(** The operation names request [id]. *)
Definition mentions (id : string) (op : Op) : bool :=
  match op with
  | OpCreate uuid _ _ => bool_decide (uuid = id)
  | OpMarkProcessing id' | OpSubmit id' _ | OpGetResponse id'
  | OpGetFinal id' | OpCancel id' => bool_decide (id' = id)
  | OpGetPending | OpGetStatus | OpCleanup _ => false
  end.

Definition submits_to (id : string) (op : Op) : bool :=
  match op with
  | OpSubmit id' _ => bool_decide (id' = id)
  | _ => false
  end.

(** The text of the frames, for the frames that carry text. *)
Definition is_delta (f : Frame) : bool :=
  match f with FrameDelta _ => true | _ => false end.

(** A tick during which no other thread touches the registry. *)
Definition quiet_tick (tk : Tick) : bool :=
  match others tk with [] => true | _ :: _ => false end.

(** Total lag of the clock readings of a schedule. *)
Definition total_lag (sched : list Tick) : Z :=
  foldr (λ tk acc, Z.of_nat (lag_loop tk) + Z.of_nat (lag_act tk) + acc) 0 sched.

(** A response that carries text and neither an error nor the [done] flag. *)
Definition partial (r : WebLLMResponse) : bool :=
  negb (Py.opt_truthy (resp_error r)) && Py.str_truthy (resp_content r)
  && negb (resp_done r).

(** A response that carries text and the [done] flag, and no error. *)
Definition closing (r : WebLLMResponse) : bool :=
  negb (Py.opt_truthy (resp_error r)) && Py.str_truthy (resp_content r)
  && resp_done r.

(** The frames of a usage dictionary: none when it is empty. *)
Definition usage_frames (usage : list (string * Z)) : list Frame :=
  match usage with [] => [] | _ :: _ => [FrameUsage usage] end.

(** The tail the two views share when [wait_for_completion] does not
    raise: block in it, then fetch the response, or cancel and answer
    [on_timeout]. *)
Definition await_reply (id : string) (timeout_arg : option Z) (on_timeout : HttpReply)
    (sched : list (Z * Op)) (gap : list Op) (st : Bridge) : HttpReply * Bridge :=
  let '(woken, _, st2) := wait_for_completion id timeout_arg sched st in
  if woken then
    let '(response, st3) := get_final_response id (exec gap st2) in
    (reply_of_final response, st3)
  else (on_timeout, cancel_request id (exec gap st2)).

(** If request [id] is registered, does not stream and has its event
    set, then its queue holds exactly one response. *)
Definition signalled_has_response (id : string) (st : Bridge) : Prop :=
  ∀ request ev,
    ODict.get id (requests st) = Some request → stream request = false →
    completion_events st !! id = Some ev → event_is_set ev st = true →
    ∃ response, response_queues st !! id = Some [response].

(** The operation is a [get_response] on [id] or a [create_request] that
    draws [id]. *)
Definition steals (id : string) (op : Op) : bool :=
  match op with
  | OpGetResponse id' => bool_decide (id' = id)
  | OpCreate uuid _ _ => bool_decide (uuid = id)
  | _ => false
  end.

(** The request [webllm_generate] builds. *)
Definition generate_data (data : GeneratePost) : RequestData :=
  mkData (Some (default "generate" (g_type data)))
         (Some (default "" (g_question data)))
         (Some (default "" (g_system_role data)))
         None
         (Some (default (Qmake 7 10) (g_temperature data)))
         (Some (default 4096 (g_max_tokens data)))
         (Some false)
         (Some (default DEFAULT_WEBLLM_TIMEOUT (g_timeout data)))
         None.

(** The request [webllm_chat] builds. *)
Definition chat_data (data : ChatPost) : RequestData :=
  mkData (Some "chat")
         (Some (strip (posted_content data)))
         (Some (default "You are a helpful AI assistant." (p_system_prompt data)))
         (Some (if bool_decide (default "Llama-3.2-1B-Instruct" (p_model data)
                                ∈ allowed_models)
                then default "Llama-3.2-1B-Instruct" (p_model data)
                else "Llama-3.2-1B-Instruct"))
         (Some (default (Qmake 7 10) (p_temperature data)))
         (Some (default 4096 (p_max_tokens data)))
         (Some (default false (p_stream data)))
         (Some (default DEFAULT_WEBLLM_TIMEOUT (p_timeout data)))
         (p_session_id data).

(** * Properties *)

(** ** Ordered dictionaries *)

Section ODictFacts.
Context {K V : Type} `{EqDecision K}.
Implicit Types (k : K) (v : V) (d : list (K * V)).

Lemma odict_get_Some_keys k d : is_Some (ODict.get k d) ↔ k ∈ ODict.keys d.
Proof.
  unfold ODict.keys. induction d as [|[k' v'] d IH]; simpl.
  - split; [intros [? [=]] | intros Hin; inversion Hin].
  - case_decide as Hk.
    + subst. split; [intros _; left | eauto].
    + rewrite IH. split; [intros ?; by right |].
      intros Hin. inversion Hin; subst; done.
Qed.

Lemma odict_get_None_keys k d : ODict.get k d = None ↔ k ∉ ODict.keys d.
Proof. rewrite <- odict_get_Some_keys, eq_None_not_Some. done. Qed.

Lemma odict_mem_true k d : ODict.mem k d = true ↔ k ∈ ODict.keys d.
Proof.
  rewrite <- odict_get_Some_keys. unfold ODict.mem.
  destruct (ODict.get k d); split; try done; eauto.
Qed.

Lemma odict_mem_false k d : ODict.mem k d = false ↔ k ∉ ODict.keys d.
Proof. rewrite <- odict_mem_true. destruct (ODict.mem k d); naive_solver. Qed.

Lemma odict_get_elem k v d : ODict.get k d = Some v → (k, v) ∈ d.
Proof.
  induction d as [|[k' v'] d IH]; simpl; [done|].
  case_decide; [intros [= ->]; subst; left | intros ?; right; auto].
Qed.

Lemma odict_elem_get k v d :
  NoDup (ODict.keys d) → (k, v) ∈ d → ODict.get k d = Some v.
Proof.
  unfold ODict.keys. induction d as [|[k' v'] d IH]; simpl.
  - intros _ Hin. inversion Hin.
  - rewrite NoDup_cons. intros [Hk' Hnd] Hin.
    apply elem_of_cons in Hin as [[= -> ->] | Hin].
    + by rewrite decide_True.
    + rewrite decide_False; [auto|].
      intros ->. apply Hk'. apply list_elem_of_fmap. by exists (k', v).
Qed.

(** *** [pop] *)

Lemma odict_keys_pop k d :
  ODict.keys (ODict.pop k d) = filter (λ k', k' ≠ k) (ODict.keys d).
Proof.
  unfold ODict.keys. induction d as [|[k' v'] d IH]; simpl; [done|].
  case_decide; subst.
  - rewrite filter_cons_False; [done | naive_solver].
  - rewrite filter_cons_True by done. simpl. by f_equal.
Qed.

Lemma odict_get_pop k k' d :
  ODict.get k' (ODict.pop k d) = if decide (k' = k) then None else ODict.get k' d.
Proof.
  induction d as [|[k'' v''] d IH]; simpl; [by case_decide|].
  destruct (decide (k = k'')) as [->|Hne]; simpl.
  - rewrite IH. repeat case_decide; congruence.
  - rewrite IH. repeat case_decide; congruence.
Qed.

Lemma odict_pop_notin k d : k ∉ ODict.keys d → ODict.pop k d = d.
Proof.
  unfold ODict.keys. induction d as [|[k' v'] d IH]; simpl; [done|].
  rewrite not_elem_of_cons. intros [Hne Hnin].
  rewrite decide_False by done. by rewrite IH.
Qed.

Lemma odict_pop_filter k d : ODict.pop k d = filter (λ kv, kv.1 ≠ k) d.
Proof.
  induction d as [|[k' v'] d IH]; simpl; [done|].
  case_decide; subst.
  - rewrite filter_cons_False; [done | simpl; naive_solver].
  - rewrite filter_cons_True by (simpl; congruence). by f_equal.
Qed.

Lemma odict_elem_pop k kv d : kv ∈ ODict.pop k d ↔ kv ∈ d ∧ kv.1 ≠ k.
Proof. rewrite odict_pop_filter, list_elem_of_filter. tauto. Qed.

Lemma odict_NoDup_pop k d : NoDup (ODict.keys d) → NoDup (ODict.keys (ODict.pop k d)).
Proof. rewrite odict_keys_pop. apply NoDup_filter. Qed.

Lemma odict_length_pop k d :
  NoDup (ODict.keys d) → k ∈ ODict.keys d →
  S (length (ODict.pop k d)) = length d.
Proof.
  unfold ODict.keys. induction d as [|[k' v'] d IH]; simpl.
  - intros _ Hin. inversion Hin.
  - rewrite NoDup_cons. intros [Hk' Hnd] Hin.
    case_decide; subst.
    + rewrite odict_pop_notin; done.
    + simpl. f_equal. apply IH; [done|].
      apply elem_of_cons in Hin as [?|?]; [congruence | done].
Qed.

Lemma odict_length_pop_le k d : (length (ODict.pop k d) ≤ length d)%nat.
Proof. induction d as [|[k' v'] d IH]; simpl; [done|]. case_decide; simpl; lia. Qed.

(** *** [set] *)

Lemma odict_get_set k k' v d :
  ODict.get k' (ODict.set k v d) = if decide (k' = k) then Some v else ODict.get k' d.
Proof.
  induction d as [|[k'' v''] d IH]; simpl.
  - repeat case_decide; congruence.
  - destruct (decide (k = k'')) as [->|Hne]; simpl.
    + repeat case_decide; congruence.
    + rewrite IH. repeat case_decide; congruence.
Qed.

Lemma odict_set_fresh k v d :
  k ∉ ODict.keys d → ODict.set k v d = d ++ [(k, v)].
Proof.
  unfold ODict.keys. induction d as [|[k' v'] d IH]; simpl; [done|].
  rewrite not_elem_of_cons. intros [Hne Hnin].
  rewrite decide_False by done. by rewrite IH.
Qed.

Lemma odict_keys_set_mem k v d :
  k ∈ ODict.keys d → ODict.keys (ODict.set k v d) = ODict.keys d.
Proof.
  unfold ODict.keys. induction d as [|[k' v'] d IH]; simpl.
  - intros Hin. inversion Hin.
  - intros Hin. case_decide; subst; simpl; [done|]. f_equal. apply IH.
    apply elem_of_cons in Hin as [?|?]; [congruence | done].
Qed.

Lemma odict_elem_keys_set k k' v d :
  k' ∈ ODict.keys (ODict.set k v d) ↔ k' = k ∨ k' ∈ ODict.keys d.
Proof.
  rewrite <- !odict_get_Some_keys, odict_get_set.
  case_decide; subst; [split; eauto | split; [eauto | intros [?|?]; done]].
Qed.

Lemma odict_NoDup_set k v d :
  NoDup (ODict.keys d) → NoDup (ODict.keys (ODict.set k v d)).
Proof.
  intros Hnd. destruct (decide (k ∈ ODict.keys d)) as [Hin|Hnin].
  - by rewrite odict_keys_set_mem.
  - rewrite odict_set_fresh by done. unfold ODict.keys in *.
    rewrite fmap_app. apply NoDup_app. split_and!; [done | | apply NoDup_singleton].
    intros x Hx Hx'. apply list_elem_of_singleton in Hx'. simpl in Hx'. by subst.
Qed.

Lemma odict_length_set k v d :
  length (ODict.set k v d) =
  if ODict.mem k d then length d else S (length d).
Proof.
  unfold ODict.mem. induction d as [|[k' v'] d IH]; simpl; [done|].
  case_decide; simpl; [done|]. rewrite IH. by destruct (ODict.get k d).
Qed.

(** *** [alter] *)

Lemma odict_keys_alter (f : V → V) k d :
  ODict.keys (ODict.alter f k d) = ODict.keys d.
Proof.
  unfold ODict.keys. induction d as [|[k' v'] d IH]; simpl; [done|].
  case_decide; simpl; [done | by f_equal].
Qed.

Lemma odict_get_alter (f : V → V) k k' d :
  ODict.get k' (ODict.alter f k d) =
  if decide (k' = k) then f <$> ODict.get k' d else ODict.get k' d.
Proof.
  induction d as [|[k'' v''] d IH]; simpl; [by case_decide|].
  destruct (decide (k = k'')) as [->|Hne]; simpl.
  - repeat case_decide; simpl; congruence.
  - rewrite IH. repeat case_decide; simpl; congruence.
Qed.

Lemma odict_length_alter (f : V → V) k d :
  length (ODict.alter f k d) = length d.
Proof. induction d as [|[k' v'] d IH]; simpl; [done|]. case_decide; simpl; lia. Qed.

Lemma odict_values_alter_ne (f : V → V) k d :
  k ∉ ODict.keys d → ODict.alter f k d = d.
Proof.
  unfold ODict.keys. induction d as [|[k' v'] d IH]; simpl; [done|].
  rewrite not_elem_of_cons. intros [Hne Hnin].
  rewrite decide_False by done. by rewrite IH.
Qed.
End ODictFacts.

(** ** [min] *)

Section MinFacts.
Context {A : Type} (key : A → Z).

Lemma min_from_spec (best : A) (xs : list A) :
  let m := Py.min_from key best xs in
  (m = best ∨ m ∈ xs) ∧ key m ≤ key best ∧ ∀ x, x ∈ xs → key m ≤ key x.
Proof.
  revert best. induction xs as [|x xs IH]; intros best; simpl.
  - split_and!; [by left | lia | intros x Hx; inversion Hx].
  - destruct (IH (if key x <? key best then x else best)) as (Hm & Hle & Hall).
    destruct (Z.ltb_spec (key x) (key best)).
    + split_and!.
      * right. destruct Hm as [-> | Hm]; [left | by right].
      * lia.
      * intros y [-> | Hy]%elem_of_cons; [lia | auto].
    + split_and!.
      * destruct Hm as [-> | Hm]; [by left | right; by right].
      * lia.
      * intros y [-> | Hy]%elem_of_cons; [lia | auto].
Qed.

Lemma min_by_spec (xs : list A) (m : A) :
  Py.min_by key xs = Some m → m ∈ xs ∧ ∀ x, x ∈ xs → key m ≤ key x.
Proof.
  destruct xs as [|x xs]; simpl; [done|]. intros [= <-].
  destruct (min_from_spec x xs) as (Hm & Hle & Hall). split.
  - destruct Hm as [-> | Hm]; [left | by right].
  - intros y [-> | Hy]%elem_of_cons; [lia | auto].
Qed.

Lemma min_by_is_Some (xs : list A) : xs ≠ [] → is_Some (Py.min_by key xs).
Proof. destruct xs; [done | eauto]. Qed.
End MinFacts.

(** ** Removal *)

Lemma remove_request_requests id st :
  requests (_remove_request id st) = ODict.pop id (requests st).
Proof. unfold _remove_request. simpl. by destruct (completion_events st !! id). Qed.

Lemma remove_request_queues id st :
  response_queues (_remove_request id st) = delete id (response_queues st).
Proof. unfold _remove_request. simpl. by destruct (completion_events st !! id). Qed.

Lemma remove_request_events id st :
  completion_events (_remove_request id st) = delete id (completion_events st).
Proof.
  unfold _remove_request. simpl.
  destruct (completion_events st !! id) eqn:E; simpl; [done|].
  symmetry. by apply delete_id.
Qed.

Lemma remove_request_heap id st :
  event_heap (_remove_request id st) =
  match completion_events st !! id with
  | Some ev => <[ev := true]> (event_heap st)
  | None => event_heap st
  end.
Proof. unfold _remove_request. simpl. by destruct (completion_events st !! id). Qed.

Lemma event_is_set_insert ev ev' h rq qs es :
  event_is_set ev (mkBridge rq qs es (<[ev' := true]> h)) =
  if decide (ev = ev' ∧ (ev' < length h)%nat) then true
  else event_is_set ev (mkBridge rq qs es h).
Proof.
  unfold event_is_set. simpl.
  destruct (decide (ev = ev')) as [->|Hne].
  - destruct (decide (ev' < length h)%nat) as [Hlt|Hge].
    + rewrite list_lookup_insert_eq by done. by rewrite decide_True.
    + rewrite list_insert_ge by lia. rewrite decide_False; [done | tauto].
  - rewrite list_lookup_insert_ne by done. rewrite decide_False; [done | tauto].
Qed.

Lemma heap_le_refl st : heap_le st st.
Proof. split; [lia | auto]. Qed.

Lemma heap_le_trans st1 st2 st3 : heap_le st1 st2 → heap_le st2 st3 → heap_le st1 st3.
Proof. intros [? ?] [? ?]. split; [lia | auto]. Qed.

Lemma heap_le_insert st h' ev :
  h' = <[ev := true]> (event_heap st) →
  ∀ rq qs es, heap_le st (mkBridge rq qs es h').
Proof.
  intros -> rq qs es. split; simpl.
  - by rewrite length_insert.
  - intros ev' Hset. rewrite event_is_set_insert. case_decide; [done|].
    exact Hset.
Qed.

Lemma heap_le_same_heap st st' :
  event_heap st' = event_heap st → heap_le st st'.
Proof. intros E. split; [by rewrite E | unfold event_is_set; by rewrite E]. Qed.

Lemma heap_le_remove id st : heap_le st (_remove_request id st).
Proof.
  destruct (completion_events st !! id) as [ev|] eqn:E.
  - destruct (_remove_request id st) as [rq qs es h] eqn:R.
    apply heap_le_insert with ev.
    change h with (event_heap (mkBridge rq qs es h)).
    rewrite <- R, remove_request_heap, E. done.
  - apply heap_le_same_heap. by rewrite remove_request_heap, E.
Qed.

(** Removal sets the event the id owned, and the id is gone from the
    three dictionaries. *)
Lemma remove_request_signals id ev st :
  completion_events st !! id = Some ev → (ev < length (event_heap st))%nat →
  event_is_set ev (_remove_request id st) = true.
Proof.
  intros E Hlt. unfold event_is_set. rewrite remove_request_heap, E.
  by rewrite list_lookup_insert_eq.
Qed.

Lemma remove_request_gone id st :
  ¬ live id (_remove_request id st) ∧
  response_queues (_remove_request id st) !! id = None ∧
  completion_events (_remove_request id st) !! id = None.
Proof.
  unfold live. rewrite remove_request_requests, remove_request_queues,
    remove_request_events, odict_keys_pop, !lookup_delete_eq.
  split_and!; [|done|done]. rewrite list_elem_of_filter. tauto.
Qed.

Lemma remove_request_other id id' st :
  id' ≠ id →
  ODict.get id' (requests (_remove_request id st)) = ODict.get id' (requests st) ∧
  response_queues (_remove_request id st) !! id' = response_queues st !! id' ∧
  completion_events (_remove_request id st) !! id' = completion_events st !! id'.
Proof.
  intros Hne. rewrite remove_request_requests, remove_request_queues,
    remove_request_events, odict_get_pop, !lookup_delete_ne by done.
  by rewrite decide_False.
Qed.

Lemma bridge_inv_remove id st : bridge_inv st → bridge_inv (_remove_request id st).
Proof.
  intros [Hnd Hev Hq Hh Hown Hcap]. split.
  - rewrite remove_request_requests. by apply odict_NoDup_pop.
  - intros id'. unfold live. rewrite remove_request_events, remove_request_requests,
      odict_keys_pop, list_elem_of_filter.
    destruct (decide (id' = id)) as [->|Hne].
    + rewrite lookup_delete_eq. split; [intros [? [=]] | tauto].
    + rewrite lookup_delete_ne by done. rewrite Hev. unfold live. tauto.
  - intros id'. unfold live. rewrite remove_request_queues, remove_request_requests,
      odict_keys_pop, list_elem_of_filter.
    destruct (decide (id' = id)) as [->|Hne].
    + rewrite lookup_delete_eq. intros [? [=]].
    + rewrite lookup_delete_ne by done. intros ?%Hq. done.
  - intros id' ev. rewrite remove_request_events.
    destruct (decide (id' = id)) as [->|Hne].
    + by rewrite lookup_delete_eq.
    + rewrite lookup_delete_ne by done. intros ?%Hh.
      pose proof (heap_le_remove id st) as [? _]. lia.
  - intros id1 id2 ev. rewrite remove_request_events.
    destruct (decide (id1 = id)) as [->|Hne1]; [by rewrite lookup_delete_eq|].
    destruct (decide (id2 = id)) as [->|Hne2]; [by rewrite lookup_delete_eq|].
    rewrite !lookup_delete_ne by done. apply Hown.
  - rewrite remove_request_requests.
    pose proof (odict_length_pop_le id (requests st)). lia.
Qed.

(** ** Creation *)

Lemma build_request_id uuid now d : request_id (build_request uuid now d) = uuid.
Proof. done. Qed.

Lemma create_request_eq uuid now d st :
  create_request uuid now d st =
  (Py.Ret (build_request uuid now d), register (build_request uuid now d) (make_room st)).
Proof.
  unfold create_request, make_room, register. rewrite build_request_id.
  destruct (Nat.leb_spec MAX_CONCURRENT_REQUESTS (length (requests st))) as [Hfull|_];
    [|done].
  destruct (requests st) as [|[k r] rq] eqn:E.
  - unfold MAX_CONCURRENT_REQUESTS in Hfull. simpl in Hfull. lia.
  - simpl. by destruct (Py.min_from _ _ _).
Qed.

Lemma register_requests r st :
  requests (register r st) = ODict.set (request_id r) r (requests st).
Proof. unfold register. by destruct (stream r). Qed.

Lemma register_events r st :
  completion_events (register r st) =
  <[request_id r := length (event_heap st)]> (completion_events st).
Proof. unfold register. by destruct (stream r). Qed.

Lemma register_heap r st : event_heap (register r st) = event_heap st ++ [false].
Proof. unfold register. by destruct (stream r). Qed.

Lemma register_queues r st :
  response_queues (register r st) =
  if stream r then <[request_id r := []]> (response_queues st) else response_queues st.
Proof. unfold register. by destruct (stream r). Qed.

Lemma heap_le_register r st : heap_le st (register r st).
Proof.
  split; rewrite ?register_heap, ?length_app; [simpl; lia|].
  intros ev. unfold event_is_set. rewrite register_heap.
  destruct (event_heap st !! ev) eqn:E; simpl; [|done].
  by rewrite (lookup_app_l_Some _ _ _ _ E).
Qed.

Lemma bridge_inv_register r st :
  bridge_inv st →
  (length (requests st) < MAX_CONCURRENT_REQUESTS)%nat ∨ live (request_id r) st →
  bridge_inv (register r st).
Proof.
  intros [Hnd Hev Hq Hh Hown Hcap] Hroom. split.
  - rewrite register_requests. by apply odict_NoDup_set.
  - intros id. unfold live. rewrite register_events, register_requests,
      odict_elem_keys_set, lookup_insert_is_Some, Hev. unfold live.
    destruct (decide (request_id r = id)); split;
      [intros [?|[_ ?]]; auto | intros [?|?]; auto | intros [?|[_ ?]]; auto
      | intros [?|?]; [by left | right; auto]].
  - intros id. unfold live. rewrite register_queues, register_requests,
      odict_elem_keys_set.
    destruct (stream r); [rewrite lookup_insert_is_Some|].
    + intros [->|[_ ?%Hq]]; [by left | by right].
    + intros ?%Hq. by right.
  - intros id ev. rewrite register_events, register_heap, length_app. simpl.
    rewrite lookup_insert. case_decide; [intros [= <-]; lia|].
    intros ?%Hh. lia.
  - intros id1 id2 ev. rewrite register_events, !lookup_insert.
    repeat case_decide; subst; try done.
    + intros [= <-] ?%Hh. lia.
    + intros ?%Hh [= <-]. lia.
    + apply Hown.
  - rewrite register_requests, odict_length_set.
    destruct (ODict.mem (request_id r) (requests st)) eqn:M; [done|].
    destruct Hroom as [?|Hin]; [lia|].
    apply odict_mem_true in Hin. congruence.
Qed.

(** What [make_room] does when the registry is full. *)
Lemma make_room_full st :
  (MAX_CONCURRENT_REQUESTS ≤ length (requests st))%nat →
  ∃ oldest_id oldest,
    (oldest_id, oldest) ∈ requests st ∧
    (∀ id r, (id, r) ∈ requests st → created_at oldest ≤ created_at r) ∧
    make_room st = _remove_request oldest_id st.
Proof.
  intros Hfull. unfold make_room.
  destruct (Nat.leb_spec MAX_CONCURRENT_REQUESTS (length (requests st))); [|lia].
  destruct (min_by_is_Some (λ kv : string * WebLLMRequest, created_at kv.2) (requests st))
    as [[oldest_id oldest] Hmin].
  { intros E. rewrite E in Hfull. unfold MAX_CONCURRENT_REQUESTS in Hfull.
    simpl in Hfull. lia. }
  rewrite Hmin. apply min_by_spec in Hmin as [Hin Hle].
  exists oldest_id, oldest. split_and!; [done | | done].
  intros id r Hr. apply (Hle (id, r) Hr).
Qed.

Lemma make_room_spare st :
  (length (requests st) < MAX_CONCURRENT_REQUESTS)%nat → make_room st = st.
Proof.
  intros Hlt. unfold make_room.
  destruct (Nat.leb_spec MAX_CONCURRENT_REQUESTS (length (requests st))); [lia | done].
Qed.

Lemma odict_elem_keys {V} (k : string) (v : V) (d : list (string * V)) :
  (k, v) ∈ d → k ∈ ODict.keys d.
Proof. intros Hin. unfold ODict.keys. apply list_elem_of_fmap. by exists (k, v). Qed.

Lemma bridge_inv_make_room st :
  bridge_inv st →
  bridge_inv (make_room st) ∧ (length (requests (make_room st)) < MAX_CONCURRENT_REQUESTS)%nat.
Proof.
  intros Hinv.
  destruct (decide (MAX_CONCURRENT_REQUESTS ≤ length (requests st))%nat) as [Hfull|Hroom].
  - destruct (make_room_full st Hfull) as (oid & old & Hin & _ & ->).
    split; [by apply bridge_inv_remove|].
    rewrite remove_request_requests.
    pose proof (odict_length_pop oid (requests st) (inv_nodup st Hinv)
                  (odict_elem_keys _ _ _ Hin)).
    pose proof (inv_capacity st Hinv). lia.
  - rewrite make_room_spare by lia. split; [done | lia].
Qed.

Lemma heap_le_make_room st : heap_le st (make_room st).
Proof.
  unfold make_room. destruct (Nat.leb _ _); [|apply heap_le_refl].
  destruct (Py.min_by _ _) as [[oid ?]|]; [apply heap_le_remove | apply heap_le_refl].
Qed.

Lemma bridge_inv_create uuid now d st :
  bridge_inv st → bridge_inv (create_request uuid now d st).2.
Proof.
  intros Hinv. rewrite create_request_eq. simpl.
  destruct (bridge_inv_make_room st Hinv) as [Hinv' Hroom].
  apply bridge_inv_register; [done | by left].
Qed.

(** ** Operations that keep the set of ids *)

Lemma bridge_inv_same_ids st st' :
  bridge_inv st →
  ODict.keys (requests st') = ODict.keys (requests st) →
  completion_events st' = completion_events st →
  (length (event_heap st) ≤ length (event_heap st'))%nat →
  (∀ id, is_Some (response_queues st' !! id) →
         is_Some (response_queues st !! id) ∨ live id st) →
  bridge_inv st'.
Proof.
  intros [Hnd Hev Hq Hh Hown Hcap] Hk He Hl Hqs. split; unfold live in *.
  - by rewrite Hk.
  - intros id. by rewrite He, Hk.
  - intros id [?|?]%Hqs; rewrite Hk; auto.
  - intros id ev. rewrite He. intros ?%Hh. lia.
  - rewrite He. apply Hown.
  - assert (length (requests st') = length (requests st)) as ->; [|done].
    unfold ODict.keys in Hk. by rewrite <- (length_fmap fst), Hk, length_fmap.
Qed.

Lemma bridge_inv_mark_processing id st :
  bridge_inv st → bridge_inv (mark_processing id st).2.
Proof.
  intros Hinv. unfold mark_processing. destruct (ODict.mem id (requests st)); [|done].
  apply (bridge_inv_same_ids st); simpl; auto using odict_keys_alter.
Qed.

Lemma bridge_inv_signal_completed id st :
  bridge_inv st → bridge_inv (signal_completed id st).2.
Proof.
  intros Hinv. unfold signal_completed.
  destruct (completion_events st !! id) as [ev|]; [|done].
  apply (bridge_inv_same_ids st); simpl; auto using odict_keys_alter.
  by rewrite length_insert.
Qed.

Lemma bridge_inv_set_queue id q st :
  bridge_inv st → live id st → bridge_inv (with_queues (insert id q) st).
Proof.
  intros Hinv Hlive. apply (bridge_inv_same_ids st); simpl; auto.
  intros id'. rewrite lookup_insert_is_Some. intros [<-|[_ ?]]; auto.
Qed.

Lemma bridge_inv_submit id response st :
  bridge_inv st → bridge_inv (submit_response id response st).2.
Proof.
  intros Hinv. unfold submit_response.
  destruct (ODict.get id (requests st)) as [request|] eqn:E; [|done].
  assert (live id st) as Hlive by (apply odict_get_Some_keys; eauto).
  destruct (stream request).
  - destruct (response_queues st !! id) as [queue|]; [|done].
    destruct (_ || _); [|by apply bridge_inv_set_queue].
    by apply bridge_inv_signal_completed, bridge_inv_set_queue.
  - by apply bridge_inv_signal_completed, bridge_inv_set_queue.
Qed.

Lemma bridge_inv_get_response id st :
  bridge_inv st → bridge_inv (get_response id st).2.
Proof.
  intros Hinv. unfold get_response.
  destruct (response_queues st !! id) as [[|r q]|] eqn:E; [done| |done].
  apply bridge_inv_set_queue; [done|]. apply (inv_queues st Hinv). eauto.
Qed.

Lemma bridge_inv_get_final id st :
  bridge_inv st → bridge_inv (get_final_response id st).2.
Proof.
  intros Hinv. unfold get_final_response.
  destruct (response_queues st !! id) as [[|r q]|] eqn:E; [done| |done].
  apply bridge_inv_remove, bridge_inv_set_queue; [done|].
  apply (inv_queues st Hinv). eauto.
Qed.

Lemma bridge_inv_cancel id st : bridge_inv st → bridge_inv (cancel_request id st).
Proof.
  intros Hinv. unfold cancel_request. destruct (ODict.mem _ _); [|done].
  by apply bridge_inv_remove.
Qed.

Lemma bridge_inv_remove_all ids st :
  bridge_inv st → bridge_inv (foldl (λ s req_id, _remove_request req_id s) st ids).
Proof.
  revert st. induction ids as [|id ids IH]; intros st Hinv; simpl; [done|].
  by apply IH, bridge_inv_remove.
Qed.

Lemma bridge_inv_cleanup now st :
  bridge_inv st → bridge_inv (_cleanup_expired_requests now st).
Proof. apply bridge_inv_remove_all. Qed.

Lemma bridge_inv_init : bridge_inv init.
Proof.
  split; simpl; unfold live; simpl.
  - apply NoDup_nil_2.
  - intros id. rewrite lookup_empty. split; [intros [? [=]] | intros Hin; inversion Hin].
  - intros id. rewrite lookup_empty. intros [? [=]].
  - intros id ev. by rewrite lookup_empty.
  - intros id1 id2 ev. by rewrite lookup_empty.
  - unfold MAX_CONCURRENT_REQUESTS. lia.
Qed.

Lemma bridge_inv_step op st : bridge_inv st → bridge_inv (step op st).2.
Proof.
  intros Hinv. destruct op as [uuid now d| |id|id r|id|id|id| |now]; simpl; try done.
  - pose proof (bridge_inv_create uuid now d st Hinv).
    by destruct (create_request uuid now d st).
  - pose proof (bridge_inv_mark_processing id st Hinv).
    by destruct (mark_processing id st).
  - pose proof (bridge_inv_submit id r st Hinv).
    by destruct (submit_response id r st).
  - pose proof (bridge_inv_get_response id st Hinv).
    by destruct (get_response id st).
  - pose proof (bridge_inv_get_final id st Hinv).
    by destruct (get_final_response id st).
  - by apply bridge_inv_cancel.
  - by apply bridge_inv_cleanup.
Qed.

Lemma exec_app ops1 ops2 st : exec (ops1 ++ ops2) st = exec ops2 (exec ops1 st).
Proof. unfold exec. apply foldl_app. Qed.

Lemma exec_cons op ops st : exec (op :: ops) st = exec ops (step op st).2.
Proof. done. Qed.

Lemma bridge_inv_exec ops st : bridge_inv st → bridge_inv (exec ops st).
Proof.
  revert st. induction ops as [|op ops IH]; intros st Hinv; [done|].
  rewrite exec_cons. by apply IH, bridge_inv_step.
Qed.

(** In a well-formed registry no operation raises. *)
Lemma submit_response_returns id response st :
  bridge_inv st → ∃ b, (submit_response id response st).1 = Py.Ret b.
Proof.
  intros Hinv. unfold submit_response.
  destruct (ODict.get id (requests st)) as [request|] eqn:E; [|by exists false].
  assert (live id st) as [ev Hev]%(inv_events st Hinv)
    by (apply odict_get_Some_keys; eauto).
  assert (∀ q, (signal_completed id (with_queues (insert id q) st)).1 = Py.Ret true)
    as Hsig.
  { intros q. unfold signal_completed. simpl. by rewrite Hev. }
  destruct (stream request).
  - destruct (response_queues st !! id) as [queue|]; [|by exists false].
    destruct (_ || _); [|by exists true]. exists true. apply Hsig.
  - exists true. apply Hsig.
Qed.

Lemma step_returns op st :
  bridge_inv st →
  ∀ e, (step op st).1 ≠ OutRequest (Py.Raise e) ∧ (step op st).1 ≠ OutBool (Py.Raise e).
Proof.
  intros Hinv e.
  destruct op as [uuid now d| |id|id r|id|id|id| |now]; simpl; try done.
  - by rewrite create_request_eq.
  - by destruct (mark_processing id st).
  - destruct (submit_response_returns id r st Hinv) as [b Hb].
    destruct (submit_response id r st) as [b' st']. simpl in *. by subst.
  - by destruct (get_response id st).
  - by destruct (get_final_response id st).
Qed.

(** ** The ids of the three dictionaries *)

Lemma bridge_inv_ids st :
  bridge_inv st →
  dom (completion_events st) = request_ids st ∧
  dom (response_queues st) ⊆ request_ids st.
Proof.
  intros Hinv. unfold request_ids. split.
  - apply set_eq. intros id.
    rewrite elem_of_dom, elem_of_list_to_set. apply (inv_events st Hinv).
  - intros id. rewrite elem_of_dom, elem_of_list_to_set. apply (inv_queues st Hinv).
Qed.

(** C10: after any sequence of Bridge Manager operations run from the
    empty registry, the request map and the completion-event map hold
    exactly the same ids, and every id that owns a response queue is in
    the request map. *)
Theorem registry_ids_agree (ops : list Op) :
  dom (completion_events (exec ops init)) = request_ids (exec ops init) ∧
  dom (response_queues (exec ops init)) ⊆ request_ids (exec ops init).
Proof. apply bridge_inv_ids, bridge_inv_exec, bridge_inv_init. Qed.

(** ** Submitting to a non-streaming request *)

Lemma signal_completed_spec id ev request st :
  completion_events st !! id = Some ev →
  (ev < length (event_heap st))%nat →
  ODict.get id (requests st) = Some request →
  ∃ st', signal_completed id st = (Py.Ret true, st') ∧
         response_queues st' = response_queues st ∧
         completion_events st' = completion_events st ∧
         event_is_set ev st' = true ∧
         ODict.get id (requests st') = Some (set_status completed request) ∧
         ODict.keys (requests st') = ODict.keys (requests st) ∧
         (∀ id', id' ≠ id → ODict.get id' (requests st') = ODict.get id' (requests st)).
Proof.
  intros Hev Hlt Hreq. unfold signal_completed. rewrite Hev.
  eexists. split; [done|]. simpl. split_and!; try done.
  - unfold event_is_set. simpl. by rewrite list_lookup_insert_eq.
  - rewrite odict_get_alter, decide_True by done. by rewrite Hreq.
  - apply odict_keys_alter.
  - intros id' Hne. by rewrite odict_get_alter, decide_False.
Qed.

Lemma submit_non_streaming_live st id request response :
  bridge_inv st →
  ODict.get id (requests st) = Some request → stream request = false →
  ∃ ev st',
    completion_events st !! id = Some ev ∧
    submit_response id response st = (Py.Ret true, st') ∧
    response_queues st' !! id = Some [response] ∧
    event_is_set ev st' = true ∧
    status_of id st' = Some completed ∧
    ODict.get id (requests st') = Some (set_status completed request) ∧
    (∀ id', id' ≠ id →
       ODict.get id' (requests st') = ODict.get id' (requests st) ∧
       response_queues st' !! id' = response_queues st !! id' ∧
       completion_events st' !! id' = completion_events st !! id').
Proof.
  intros Hinv Hreq Hstream.
  assert (live id st) as Hlive by (apply odict_get_Some_keys; eauto).
  apply (inv_events st Hinv) in Hlive as [ev Hev].
  pose proof (inv_heap st Hinv id ev Hev) as Hlt.
  destruct (signal_completed_spec id ev request
              (with_queues (insert id [response]) st) Hev Hlt Hreq)
    as (st' & Hsig & Hq & He & Hset & Hget & _ & Hother).
  exists ev, st'. unfold submit_response. rewrite Hreq, Hstream, Hsig.
  split_and!; try done.
  - rewrite Hq. simpl. apply lookup_insert_eq.
  - unfold status_of. by rewrite Hget.
  - intros id' Hne. rewrite Hother, Hq, He by done. simpl.
    by rewrite lookup_insert_ne.
Qed.

(** C4: on a live non-streaming request [submit_response] leaves exactly
    the submitted response in the queue, sets the completion event and the
    state [completed], whatever the [done] flag of the response; for an
    unknown id it returns [False] and changes nothing. *)
Theorem submit_response_non_streaming st id response :
  bridge_inv st →
  (ODict.get id (requests st) = None →
   submit_response id response st = (Py.Ret false, st)) ∧
  (∀ request, ODict.get id (requests st) = Some request → stream request = false →
   ∃ ev st',
     completion_events st !! id = Some ev ∧
     submit_response id response st = (Py.Ret true, st') ∧
     response_queues st' !! id = Some [response] ∧
     event_is_set ev st' = true ∧
     status_of id st' = Some completed ∧
     ODict.get id (requests st') = Some (set_status completed request) ∧
     (∀ id', id' ≠ id →
        ODict.get id' (requests st') = ODict.get id' (requests st) ∧
        response_queues st' !! id' = response_queues st !! id' ∧
        completion_events st' !! id' = completion_events st !! id')).
Proof.
  intros Hinv. split.
  - intros Hnone. unfold submit_response. by rewrite Hnone.
  - intros request. by apply submit_non_streaming_live.
Qed.

Lemma submit_response_non_streaming_witness :
  ∃ ev st',
    completion_events (Sample.one false) !! "a" = Some ev ∧
    submit_response "a" (Sample.reply "hi there" false) (Sample.one false) = (Py.Ret true, st') ∧
    response_queues st' !! "a" = Some [Sample.reply "hi there" false] ∧
    event_is_set ev st' = true ∧
    status_of "a" st' = Some completed.
Proof.
  destruct (submit_response_non_streaming (Sample.one false) "a"
              (Sample.reply "hi there" false)
              (bridge_inv_exec _ _ bridge_inv_init)) as [_ H].
  destruct (H (Sample.request_a false) eq_refl eq_refl)
    as (ev & st' & H1 & H2 & H3 & H4 & H5 & _).
  exists ev, st'. repeat split; assumption.
Defined.

(** ** Capacity *)

(** C5: [create_request] never leaves more than [MAX_CONCURRENT_REQUESTS]
    live requests; when the registry is full, exactly one request is
    evicted, it is one whose [created_at] is the least, every other request
    stays as it was, and the new request is inserted after them. *)
Theorem create_request_evicts_oldest st uuid now d :
  bridge_inv st →
  (length (requests (create_request uuid now d st).2) ≤ MAX_CONCURRENT_REQUESTS)%nat ∧
  (length (requests st) = MAX_CONCURRENT_REQUESTS → ¬ live uuid st →
   ∃ oldest_id oldest,
     ODict.get oldest_id (requests st) = Some oldest ∧
     (∀ id r, ODict.get id (requests st) = Some r → created_at oldest ≤ created_at r) ∧
     requests (create_request uuid now d st).2 =
       ODict.pop oldest_id (requests st) ++ [(uuid, build_request uuid now d)] ∧
     S (length (ODict.pop oldest_id (requests st))) = length (requests st) ∧
     ¬ live oldest_id (create_request uuid now d st).2 ∧
     (∀ id, id ≠ oldest_id → live id st → live id (create_request uuid now d st).2) ∧
     length (requests (create_request uuid now d st).2) = MAX_CONCURRENT_REQUESTS).
Proof.
  intros Hinv. split.
  - apply (inv_capacity _ (bridge_inv_create uuid now d st Hinv)).
  - intros Hfull Hfresh. rewrite create_request_eq. simpl.
    destruct (make_room_full st) as (oid & old & Hin & Hmin & ->); [lia|].
    pose proof (inv_nodup st Hinv) as Hnd.
    pose proof (odict_elem_keys _ _ _ Hin) as Hkey.
    pose proof (odict_length_pop oid (requests st) Hnd Hkey) as Hlen.
    assert (uuid ∉ ODict.keys (ODict.pop oid (requests st))) as Hfresh'.
    { rewrite odict_keys_pop, list_elem_of_filter. intros [_ ?]. by apply Hfresh. }
    assert (requests (register (build_request uuid now d) (_remove_request oid st)) =
            ODict.pop oid (requests st) ++ [(uuid, build_request uuid now d)]) as Hreq.
    { rewrite register_requests, remove_request_requests, build_request_id.
      by apply odict_set_fresh. }
    exists oid, old. split_and!.
    + by apply odict_elem_get.
    + intros id r Hr. apply (Hmin id r). by apply odict_get_elem.
    + done.
    + done.
    + unfold live. rewrite Hreq. unfold ODict.keys. rewrite fmap_app.
      rewrite elem_of_app. intros [Hold|Hnew].
      * change (oid ∈ ODict.keys (ODict.pop oid (requests st))) in Hold.
        rewrite odict_keys_pop, list_elem_of_filter in Hold. tauto.
      * apply list_elem_of_singleton in Hnew. simpl in Hnew. subst.
        by apply Hfresh.
    + intros id Hne Hlive. unfold live. rewrite Hreq. unfold ODict.keys.
      rewrite fmap_app, elem_of_app. left.
      change (id ∈ ODict.keys (ODict.pop oid (requests st))).
      rewrite odict_keys_pop, list_elem_of_filter. done.
    + rewrite Hreq, length_app. simpl. lia.
Qed.

Lemma create_request_evicts_oldest_witness :
  ∃ oldest_id oldest,
    ODict.get oldest_id (requests Sample.full) = Some oldest ∧
    (∀ id r, ODict.get id (requests Sample.full) = Some r →
             created_at oldest ≤ created_at r) ∧
    requests (create_request "new" 110 (Sample.data false) Sample.full).2 =
      ODict.pop oldest_id (requests Sample.full)
        ++ [("new", build_request "new" 110 (Sample.data false))].
Proof.
  destruct (create_request_evicts_oldest Sample.full "new" 110 (Sample.data false)
              (bridge_inv_exec _ _ bridge_inv_init)) as [_ H].
  destruct H as (oid & old & H1 & H2 & H3 & _).
  - reflexivity.
  - unfold live. rewrite <- odict_get_None_keys. reflexivity.
  - exists oid, old. repeat split; assumption.
Defined.

(** ** First in, first out *)

Lemma delivered_cons id e tr : delivered id (e :: tr) = delivered id [e] ++ delivered id tr.
Proof. unfold delivered. simpl. by rewrite app_nil_r. Qed.

Lemma submitted_cons id op ops : submitted id (op :: ops) = submitted id [op] ++ submitted id ops.
Proof. unfold submitted. simpl. by rewrite app_nil_r. Qed.

Lemma remove_all_spec ids id st :
  let st' := foldl (λ s req_id, _remove_request req_id s) st ids in
  (id ∈ ids → ¬ live id st') ∧
  (id ∉ ids →
   ODict.get id (requests st') = ODict.get id (requests st) ∧
   response_queues st' !! id = response_queues st !! id ∧
   completion_events st' !! id = completion_events st !! id) ∧
  (¬ live id st → ¬ live id st').
Proof.
  revert st. induction ids as [|x ids IH]; intros st; simpl.
  - split_and!; [intros Hin; inversion Hin | done | done].
  - destruct (IH (_remove_request x st)) as (IH1 & IH2 & IH3). split_and!.
    + intros [->|Hin]%elem_of_cons; [|auto].
      apply IH3. apply remove_request_gone.
    + intros [Hne Hnin]%not_elem_of_cons.
      destruct (IH2 Hnin) as (-> & -> & ->). by apply remove_request_other.
    + intros Hdead. apply IH3. unfold live in *.
      rewrite remove_request_requests, odict_keys_pop, list_elem_of_filter. tauto.
Qed.

Lemma streaming_with_frame id q st st' :
  streaming_with id q st →
  ODict.get id (requests st') = ODict.get id (requests st) →
  response_queues st' !! id = response_queues st !! id →
  streaming_with id q st'.
Proof. intros (r & ? & ? & ?) E1 E2. exists r. by rewrite E1, E2. Qed.

Lemma streaming_with_signal id id' q st :
  streaming_with id q st → streaming_with id q (signal_completed id' st).2.
Proof.
  intros (r & Hr & Hs & Hq). unfold signal_completed.
  destruct (completion_events st !! id'); [|by exists r].
  simpl. destruct (decide (id = id')) as [<-|Hne].
  - exists (set_status completed r). simpl.
    rewrite odict_get_alter, decide_True, Hr by done. done.
  - exists r. simpl. by rewrite odict_get_alter, decide_False.
Qed.

Lemma fifo_step id q op st :
  streaming_with id q st → creates id op = false → live id (step op st).2 →
  ∃ q', streaming_with id q' (step op st).2 ∧
        delivered id [(op, (step op st).1)] ++ q' = q ++ submitted id [op].
Proof.
  intros Hs Hcr Hlive.
  destruct op as [uuid now d| |id'|id' r|id'|id'|id'| |now]; simpl in *.
  - (* create_request *)
    apply bool_decide_eq_false in Hcr.
    rewrite create_request_eq in *. simpl in *.
    exists q. rewrite app_nil_r. split; [|by rewrite ?app_nil_r].
    unfold live in Hlive. rewrite register_requests, build_request_id in Hlive.
    apply odict_elem_keys_set in Hlive as [?|Hlive]; [done|].
    assert (streaming_with id q (make_room st)) as Hs'.
    { unfold make_room in *. destruct (Nat.leb _ _); [|done].
      destruct (Py.min_by _ _) as [[oid ?]|]; [|done].
      destruct (decide (id = oid)) as [->|Hne].
      - by destruct (remove_request_gone oid st) as [? _].
      - destruct (remove_request_other oid id st Hne) as (? & ? & _).
        by eapply streaming_with_frame. }
    eapply streaming_with_frame; [exact Hs'| |].
    + rewrite register_requests, build_request_id, odict_get_set.
      by rewrite decide_False.
    + rewrite register_queues, build_request_id.
      destruct (stream _); [|done]. by rewrite lookup_insert_ne.
  - (* get_pending_requests *)
    exists q. by rewrite app_nil_r.
  - (* mark_processing *)
    exists q. rewrite app_nil_r. split; [|by rewrite ?app_nil_r].
    unfold mark_processing. destruct (ODict.mem id' (requests st)); [|done]. simpl.
    destruct Hs as (r & Hr & Hst & Hq).
    destruct (decide (id = id')) as [<-|Hne].
    + exists (set_status processing r). simpl.
      rewrite odict_get_alter, decide_True, Hr by done. done.
    + exists r. simpl. by rewrite odict_get_alter, decide_False.
  - (* submit_response *)
    destruct (submit_response id' r st) as [b st'] eqn:E. simpl in *.
    unfold submitted. simpl. rewrite app_nil_r.
    assert (st' = (submit_response id' r st).2) as -> by by rewrite E.
    clear E b. unfold submit_response.
    destruct (decide (id' = id)) as [->|Hne].
    + destruct Hs as (rq & Hr & Hst & Hq). rewrite Hr, Hst, Hq.
      exists (q ++ [r]). split; [|by rewrite ?app_nil_r].
      assert (streaming_with id (q ++ [r]) (with_queues (insert id (q ++ [r])) st)).
      { exists rq. simpl. by rewrite lookup_insert_eq. }
      destruct (_ || _); [by apply streaming_with_signal | done].
    + exists q. rewrite app_nil_r. split; [|by rewrite ?app_nil_r].
      destruct (ODict.get id' (requests st)) as [rq'|]; [|done].
      assert (∀ q0, streaming_with id q (with_queues (insert id' q0) st)) as Hins.
      { intros q0. eapply streaming_with_frame; [exact Hs|done|].
        simpl. by rewrite lookup_insert_ne. }
      destruct (stream rq').
      * destruct (response_queues st !! id'); [|done].
        destruct (_ || _); [by apply streaming_with_signal | by apply Hins].
      * by apply streaming_with_signal.
  - (* get_response *)
    unfold get_response in *.
    destruct (decide (id' = id)) as [->|Hne].
    + destruct Hs as (rq & Hr & Hst & Hq). rewrite Hq in *.
      destruct q as [|r q]; simpl.
      * exists []. split; [by exists rq | done].
      * exists q. rewrite app_nil_r. split; [|by rewrite ?app_nil_r].
        exists rq. simpl. by rewrite lookup_insert_eq.
    + exists q. rewrite app_nil_r.
      destruct (response_queues st !! id') as [[|r q0]|]; simpl; try (split; [done | by rewrite ?app_nil_r]).
      split; [|by rewrite ?app_nil_r]. eapply streaming_with_frame; [exact Hs|done|].
      simpl. by rewrite lookup_insert_ne.
  - (* get_final_response *)
    unfold get_final_response in *. rewrite app_nil_r.
    exists q. destruct (response_queues st !! id') as [[|r q0]|] eqn:E; simpl;
      try (split; [done | by rewrite ?app_nil_r]).
    split; [|by rewrite ?app_nil_r]. simpl in Hlive.
    destruct (decide (id = id')) as [->|Hne].
    + by destruct (remove_request_gone id' (with_queues (insert id' q0) st)) as [? _].
    + destruct (remove_request_other id' id (with_queues (insert id' q0) st) Hne)
        as (? & ? & _).
      eapply streaming_with_frame; [exact Hs| done |].
      simpl in *. by rewrite lookup_insert_ne in * by done.
  - (* cancel_request *)
    exists q. rewrite app_nil_r. split; [|by rewrite ?app_nil_r].
    unfold cancel_request in *. destruct (ODict.mem id' (requests st)); [|done].
    destruct (decide (id = id')) as [->|Hne].
    + by destruct (remove_request_gone id' st) as [? _].
    + destruct (remove_request_other id' id st Hne) as (? & ? & _).
      by eapply streaming_with_frame.
  - (* get_status *)
    exists q. by rewrite app_nil_r.
  - (* cleanup *)
    exists q. rewrite app_nil_r. split; [|by rewrite ?app_nil_r].
    unfold _cleanup_expired_requests in *.
    destruct (remove_all_spec (expired_ids now st) id st) as (H1 & H2 & _).
    destruct (decide (id ∈ expired_ids now st)) as [Hin|Hnin].
    + by apply H1 in Hin.
    + destruct (H2 Hnin) as (? & ? & _). by eapply streaming_with_frame.
Qed.

Lemma trace_cons op ops st :
  trace (op :: ops) st = (op, (step op st).1) :: trace ops (step op st).2.
Proof. simpl. by destruct (step op st). Qed.

Lemma fifo_step_exact id q op st :
  streaming_with id q st → creates id op = false → live id (step op st).2 →
  streaming_with id (fifo_op id op q).2 (step op st).2 ∧
  delivered id [(op, (step op st).1)] = (fifo_op id op q).1.
Proof.
  intros Hs Hcr Hlive.
  destruct (fifo_step id q op st Hs Hcr Hlive) as (q' & Hs' & E).
  destruct op as [uuid now d| |id'|id' r|id'|id'|id'| |now];
    try (unfold delivered, submitted in E; simpl in E;
         rewrite app_nil_r in E; subst q'; by split).
  - (* submit_response *)
    unfold delivered, submitted in E. simpl in E. rewrite app_nil_r in E. subst q'.
    unfold fifo_op. by destruct (decide (id' = id)); rewrite ?app_nil_r in Hs'.
  - (* get_response *)
    clear q' Hs' E. unfold fifo_op, delivered. simpl in *. unfold get_response in *.
    destruct (decide (id' = id)) as [->|Hne].
    + destruct Hs as (rq & Hr & Hst & Hq). rewrite Hq in *.
      destruct q as [|r q]; simpl.
      * split; [by exists rq | done].
      * split; [|done]. exists rq. simpl. by rewrite lookup_insert_eq.
    + destruct (response_queues st !! id') as [[|r q0]|]; simpl; try done.
      split; [|done]. eapply streaming_with_frame; [exact Hs|done|].
      simpl. by rewrite lookup_insert_ne.
Qed.

Lemma fifo_conserves id ops q :
  (fifo id ops q).1 ++ (fifo id ops q).2 = q ++ submitted id ops.
Proof.
  revert q. induction ops as [|op ops IH]; intros q; [by simpl; rewrite app_nil_r|].
  cbn [fifo fst snd]. rewrite <- app_assoc, IH, submitted_cons, !app_assoc. f_equal.
  unfold submitted. destruct op as [| | |id' r|id'| | | |]; simpl; rewrite ?app_nil_r;
    try done.
  - by destruct (decide (id' = id)); simpl; rewrite ?app_nil_r.
  - destruct (decide (id' = id)); [|done]. by destruct q.
Qed.

Lemma fifo_run id ops :
  ∀ q st, streaming_with id q st → live_throughout id ops st = true →
    delivered id (trace ops st) = (fifo id ops q).1 ∧
    streaming_with id (fifo id ops q).2 (exec ops st).
Proof.
  induction ops as [|op ops IH]; intros q st Hs Hlive; [done|].
  simpl in Hlive. apply andb_prop in Hlive as [Hlive Hrest].
  apply andb_prop in Hlive as [Hcr Hnow].
  apply negb_true_iff in Hcr. apply odict_mem_true in Hnow.
  destruct (fifo_step_exact id q op st Hs Hcr Hnow) as (Hs1 & E1).
  destruct (IH _ _ Hs1 Hrest) as (E2 & Hs2).
  rewrite exec_cons, trace_cons, delivered_cons. cbn [fifo fst snd].
  by rewrite E1, E2.
Qed.

(** C6: while a streaming request stays registered, its queue is a
    first-in first-out queue.  The responses handed out by the calls of
    [get_response] are exactly those the reference queue [fifo] hands out
    over the same operations: each call takes the oldest response that has
    been submitted and not yet handed out, and returns nothing only when
    there is none.  What stays queued is what the reference queue holds,
    the next [get_response] would return its front, and the responses
    handed out followed by those still queued are the responses queued at
    the start followed by the ones passed to [submit_response], in that
    order: none is lost, repeated or moved. *)
Theorem streaming_fifo id request q ops st :
  ODict.get id (requests st) = Some request →
  stream request = true →
  response_queues st !! id = Some q →
  live_throughout id ops st = true →
  delivered id (trace ops st) = (fifo id ops q).1 ∧
  response_queues (exec ops st) !! id = Some (fifo id ops q).2 ∧
  (get_response id (exec ops st)).1 = head (fifo id ops q).2 ∧
  delivered id (trace ops st) ++ (fifo id ops q).2 = q ++ submitted id ops.
Proof.
  intros Hr Hst Hq Hlive.
  assert (streaming_with id q st) as Hs by by exists request.
  destruct (fifo_run id ops q st Hs Hlive) as (E & r' & _ & _ & Hq').
  split_and!; [done | done | | by rewrite E, fifo_conserves].
  unfold get_response. rewrite Hq'. by destruct (fifo id ops q).2.
Qed.

Lemma streaming_fifo_witness :
  delivered "a"
    (trace [OpSubmit "a" (Sample.reply "x" false); OpGetResponse "a";
            OpSubmit "a" (Sample.reply "y" false); OpMarkProcessing "a";
            OpSubmit "a" (Sample.reply "z" true); OpGetResponse "a";
            OpGetResponse "a"; OpGetResponse "a"] (Sample.one true))
  = [Sample.reply "x" false; Sample.reply "y" false; Sample.reply "z" true] ∧
  response_queues
    (exec [OpSubmit "a" (Sample.reply "x" false); OpGetResponse "a";
           OpSubmit "a" (Sample.reply "y" false); OpMarkProcessing "a";
           OpSubmit "a" (Sample.reply "z" true); OpGetResponse "a";
           OpGetResponse "a"; OpGetResponse "a"] (Sample.one true)) !! "a" = Some [].
Proof.
  destruct (streaming_fifo "a" (Sample.request_a true) []
              [OpSubmit "a" (Sample.reply "x" false); OpGetResponse "a";
               OpSubmit "a" (Sample.reply "y" false); OpMarkProcessing "a";
               OpSubmit "a" (Sample.reply "z" true); OpGetResponse "a";
               OpGetResponse "a"; OpGetResponse "a"] (Sample.one true))
    as (H1 & H2 & _); [reflexivity | reflexivity | reflexivity | reflexivity |].
  split; [exact H1 | exact H2].
Defined.

(** ** Flags are never cleared *)

Lemma heap_le_remove_all ids st :
  heap_le st (foldl (λ s req_id, _remove_request req_id s) st ids).
Proof.
  revert st. induction ids as [|x ids IH]; intros st; simpl; [apply heap_le_refl|].
  eapply heap_le_trans; [apply heap_le_remove | apply IH].
Qed.

Lemma heap_le_signal_completed id st : heap_le st (signal_completed id st).2.
Proof.
  unfold signal_completed. destruct (completion_events st !! id) as [ev|];
    [|apply heap_le_refl].
  simpl. by apply heap_le_insert with ev.
Qed.

Lemma heap_le_step op st : heap_le st (step op st).2.
Proof.
  destruct op as [uuid now d| |id|id r|id|id|id| |now]; simpl;
    try apply heap_le_refl.
  - rewrite create_request_eq. simpl.
    eapply heap_le_trans; [apply heap_le_make_room | apply heap_le_register].
  - unfold mark_processing. destruct (ODict.mem _ _); simpl;
      by apply heap_le_same_heap.
  - destruct (submit_response id r st) as [b st'] eqn:E.
    assert (st' = (submit_response id r st).2) as -> by by rewrite E.
    simpl. clear E. unfold submit_response.
    destruct (ODict.get id (requests st)) as [rq|]; [|apply heap_le_refl].
    destruct (stream rq).
    + destruct (response_queues st !! id); [|apply heap_le_refl].
      destruct (_ || _); [|by apply heap_le_same_heap].
      eapply heap_le_trans; [|apply heap_le_signal_completed].
      by apply heap_le_same_heap.
    + eapply heap_le_trans; [|apply heap_le_signal_completed].
      by apply heap_le_same_heap.
  - unfold get_response.
    destruct (response_queues st !! id) as [[|? ?]|]; simpl;
      by apply heap_le_same_heap.
  - unfold get_final_response.
    destruct (response_queues st !! id) as [[|? ?]|]; simpl;
      try by apply heap_le_same_heap.
    eapply heap_le_trans; [|apply heap_le_remove]. by apply heap_le_same_heap.
  - unfold cancel_request. destruct (ODict.mem _ _);
      [apply heap_le_remove | apply heap_le_refl].
  - apply heap_le_remove_all.
Qed.

Lemma heap_le_exec ops st : heap_le st (exec ops st).
Proof.
  revert st. induction ops as [|op ops IH]; intros st; [apply heap_le_refl|].
  rewrite exec_cons. eapply heap_le_trans; [apply heap_le_step | apply IH].
Qed.

(** ** The cleanup cycle *)

Lemma filter_ext_elem {A} (P Q : A → Prop) `{!∀ x, Decision (P x), !∀ x, Decision (Q x)}
    (l : list A) :
  (∀ x, x ∈ l → P x ↔ Q x) → filter P l = filter Q l.
Proof.
  induction l as [|a l IH]; intros Hext; [done|].
  rewrite !filter_cons.
  assert (filter P l = filter Q l) as ->.
  { apply IH. intros x Hx. apply Hext. by right. }
  apply decide_ext, Hext. by left.
Qed.

Lemma remove_all_requests ids st :
  requests (foldl (λ s req_id, _remove_request req_id s) st ids) =
  filter (λ kv, kv.1 ∉ ids) (requests st).
Proof.
  revert st. induction ids as [|x ids IH]; intros st; simpl.
  - symmetry. induction (requests st) as [|kv l IHl]; [done|].
    rewrite filter_cons_True; [by f_equal | apply not_elem_of_nil].
  - rewrite IH, remove_request_requests, odict_pop_filter, list_filter_filter.
    apply list_filter_iff. intros kv. rewrite not_elem_of_cons. tauto.
Qed.

Lemma expired_ids_spec now st id req :
  NoDup (ODict.keys (requests st)) → (id, req) ∈ requests st →
  id ∈ expired_ids now st ↔ expired now req = true.
Proof.
  intros Hnd Hin. unfold expired_ids. rewrite list_elem_of_fmap. split.
  - intros ([id' req'] & -> & [Hexp Hin']%list_elem_of_filter). simpl in *.
    apply (odict_elem_get _ _ _ Hnd) in Hin, Hin'. congruence.
  - intros Hexp. exists (id, req). split; [done|].
    apply list_elem_of_filter. done.
Qed.

Lemma remove_all_signals ids id ev st :
  bridge_inv st → completion_events st !! id = Some ev → id ∈ ids →
  event_is_set ev (foldl (λ s req_id, _remove_request req_id s) st ids) = true.
Proof.
  revert st. induction ids as [|x ids IH]; intros st Hinv Hev Hin; simpl.
  - inversion Hin.
  - destruct (decide (x = id)) as [->|Hne].
    + apply heap_le_remove_all.
      apply remove_request_signals; [done | by eapply inv_heap].
    + apply IH.
      * by apply bridge_inv_remove.
      * destruct (remove_request_other x id st) as (_ & _ & ->); done.
      * apply elem_of_cons in Hin as [?|?]; [congruence | done].
Qed.

Lemma remove_request_flag x id ev st :
  bridge_inv st → completion_events st !! id = Some ev → id ≠ x →
  event_is_set ev (_remove_request x st) = event_is_set ev st.
Proof.
  intros Hinv Hev Hne. unfold event_is_set. rewrite remove_request_heap.
  destruct (completion_events st !! x) as [evx|] eqn:Ex; [|done].
  rewrite list_lookup_insert_ne; [done|].
  intros Heq. subst. apply Hne. eapply (inv_owner st Hinv); eassumption.
Qed.

Lemma remove_all_flag ids id ev st :
  bridge_inv st → completion_events st !! id = Some ev → id ∉ ids →
  event_is_set ev (foldl (λ s req_id, _remove_request req_id s) st ids) =
  event_is_set ev st.
Proof.
  revert st. induction ids as [|x ids IH]; intros st Hinv Hev Hnin; simpl; [done|].
  apply not_elem_of_cons in Hnin as [Hne Hnin].
  rewrite IH; [by apply (remove_request_flag x id) | by apply bridge_inv_remove | | done].
  destruct (remove_request_other x id st) as (_ & _ & ->); done.
Qed.

(** C8: one cleanup cycle at time [now] removes exactly the requests
    whose age exceeds [REQUEST_TTL], sets the completion event of each of
    them, and leaves every younger entry (request, queue, event and its
    flag) as it was; so a request created at [T] is gone after any cycle
    run later than [T + REQUEST_TTL]. *)
Theorem cleanup_removes_expired now st :
  bridge_inv st →
  requests (_cleanup_expired_requests now st) =
    filter (λ kv, expired now kv.2 = false) (requests st) ∧
  (∀ id req, ODict.get id (requests st) = Some req → expired now req = true →
     ¬ live id (_cleanup_expired_requests now st) ∧
     response_queues (_cleanup_expired_requests now st) !! id = None ∧
     completion_events (_cleanup_expired_requests now st) !! id = None ∧
     ∃ ev, completion_events st !! id = Some ev ∧
           event_is_set ev (_cleanup_expired_requests now st) = true) ∧
  (∀ id req, ODict.get id (requests st) = Some req → expired now req = false →
     ODict.get id (requests (_cleanup_expired_requests now st)) = Some req ∧
     response_queues (_cleanup_expired_requests now st) !! id = response_queues st !! id ∧
     completion_events (_cleanup_expired_requests now st) !! id =
       completion_events st !! id ∧
     ∀ ev, completion_events st !! id = Some ev →
           event_is_set ev (_cleanup_expired_requests now st) = event_is_set ev st) ∧
  (∀ id req, ODict.get id (requests st) = Some req →
     created_at req + seconds REQUEST_TTL < now →
     ¬ live id (_cleanup_expired_requests now st)).
Proof.
  intros Hinv. pose proof (inv_nodup st Hinv) as Hnd.
  assert (∀ id req, ODict.get id (requests st) = Some req → expired now req = true →
                    ¬ live id (_cleanup_expired_requests now st)) as Hgone.
  { intros id req Hreq Hexp.
    destruct (remove_all_spec (expired_ids now st) id st) as (H1 & _).
    apply H1. apply (expired_ids_spec now st id req);
      [done | by apply odict_get_elem | done]. }
  split_and!.
  - unfold _cleanup_expired_requests. rewrite remove_all_requests.
    apply filter_ext_elem. intros [id req] Hin. simpl.
    rewrite (expired_ids_spec now st id req) by done.
    by destruct (expired now req).
  - intros id req Hreq Hexp.
    pose proof (bridge_inv_cleanup now st Hinv) as Hinv'.
    pose proof (Hgone id req Hreq Hexp) as Hdead.
    assert (id ∈ expired_ids now st) as Hin.
    { apply (expired_ids_spec now st id req);
        [done | by apply odict_get_elem | done]. }
    assert (live id st) as [ev Hev]%(inv_events st Hinv)
      by (apply odict_get_Some_keys; eauto).
    split_and!; [done | | |].
    + apply eq_None_not_Some. intros ?%(inv_queues _ Hinv'). done.
    + apply eq_None_not_Some. intros ?%(inv_events _ Hinv'). done.
    + exists ev. split; [done|]. by apply (remove_all_signals _ id).
  - intros id req Hreq Hexp.
    assert (id ∉ expired_ids now st) as Hnin.
    { rewrite (expired_ids_spec now st id req);
        [by rewrite Hexp | done | by apply odict_get_elem]. }
    destruct (remove_all_spec (expired_ids now st) id st) as (_ & H2 & _).
    destruct (H2 Hnin) as (E1 & E2 & E3).
    unfold _cleanup_expired_requests. rewrite E1, E2, E3. split_and!; try done.
    intros ev Hev. by apply (remove_all_flag _ id).
  - intros id req Hreq Hage. apply (Hgone id req Hreq).
    unfold expired. apply Z.ltb_lt. lia.
Qed.

Lemma cleanup_removes_expired_witness :
  requests (_cleanup_expired_requests 600000021 Sample.full) =
    filter (λ kv, expired 600000021 kv.2 = false) (requests Sample.full) ∧
  ¬ live "r3" (_cleanup_expired_requests 600000021 Sample.full) ∧
  ¬ live "r5" (_cleanup_expired_requests 600000021 Sample.full) ∧
  ODict.get "r1" (requests (_cleanup_expired_requests 600000021 Sample.full)) =
    Some (build_request "r1" 30 (Sample.data false)).
Proof.
  destruct (cleanup_removes_expired 600000021 Sample.full
              (bridge_inv_exec _ _ bridge_inv_init)) as (H1 & H2 & H3 & H4).
  split_and!.
  - exact H1.
  - apply (H4 "r3" (build_request "r3" 10 (Sample.data false))); [reflexivity|].
    vm_compute. reflexivity.
  - apply (H4 "r5" (build_request "r5" 20 (Sample.data false))); [reflexivity|].
    vm_compute. reflexivity.
  - by apply (H3 "r1" (build_request "r1" 30 (Sample.data false))).
Defined.

(** ** Status summary *)

Lemma count_status_fold s acc reqs :
  default 0%nat (ODict.get s (foldl count_status acc reqs)) =
  (default 0%nat (ODict.get s acc) + length (filter (λ req, status req = s) reqs))%nat.
Proof.
  revert acc. induction reqs as [|r reqs IH]; intros acc; simpl; [lia|].
  rewrite IH. unfold count_status. rewrite odict_get_set, filter_cons.
  destruct (decide (s = status r)) as [->|Hne].
  - rewrite decide_True by done. simpl. lia.
  - rewrite decide_False by done. lia.
Qed.

(** [get_status] reports, for each state, the number of live requests in
    that state. *)
Lemma get_status_counts s st :
  default 0%nat (ODict.get s (requests_by_status (get_status st))) = count_in_state s st.
Proof. unfold get_status, count_in_state. simpl. by rewrite count_status_fold. Qed.

Lemma count_pop (s : Status) id r (d : list (string * WebLLMRequest)) :
  NoDup (ODict.keys d) → ODict.get id d = Some r →
  length (filter (λ req, status req = s) (ODict.values d)) =
  (length (filter (λ req, status req = s) (ODict.values (ODict.pop id d)))
   + if decide (status r = s) then 1 else 0)%nat.
Proof.
  unfold ODict.keys, ODict.values.
  induction d as [|[k v] d IH]; [done|].
  rewrite !fmap_cons, NoDup_cons. cbn [fst snd ODict.get ODict.pop].
  intros [Hk Hnd]. destruct (decide (id = k)) as [->|Hne].
  - intros [= ->]. rewrite odict_pop_notin by done. rewrite filter_cons.
    case_decide; cbn [length]; lia.
  - intros Hget. rewrite fmap_cons, !filter_cons. cbn [snd].
    pose proof (IH Hnd Hget).
    destruct (decide (status v = s)); cbn [length]; lia.
Qed.

(** ** Fetching the response of a non-streaming request *)

(** C7: once a response has been submitted to a non-streaming request,
    [get_final_response] returns it and removes the request, its queue and
    its event; a second call returns [None]; [get_status] then counts one
    request less, the one it counted as completed.  While no queue holds a
    response, [get_final_response] returns [None] and changes nothing. *)
Theorem get_final_response_removes st id response :
  bridge_inv st →
  (response_queues st !! id = None ∨ response_queues st !! id = Some [] →
   get_final_response id st = (None, st)) ∧
  (∀ request, ODict.get id (requests st) = Some request → stream request = false →
   ∃ st2,
     get_final_response id (submit_response id response st).2 = (Some response, st2) ∧
     ¬ live id st2 ∧
     response_queues st2 !! id = None ∧
     completion_events st2 !! id = None ∧
     get_final_response id st2 = (None, st2) ∧
     S (total_requests (get_status st2)) =
       total_requests (get_status (submit_response id response st).2) ∧
     ∀ s, default 0%nat
            (ODict.get s (requests_by_status (get_status (submit_response id response st).2))) =
          (default 0%nat (ODict.get s (requests_by_status (get_status st2)))
           + if decide (s = completed) then 1 else 0)%nat).
Proof.
  intros Hinv. split.
  - unfold get_final_response. by intros [-> | ->].
  - intros request Hreq Hstream.
    destruct (submit_non_streaming_live st id request response Hinv Hreq Hstream)
      as (ev & st1 & Hev & Hst1 & Hq & Hset & _ & Hget & _).
    rewrite Hst1. simpl.
    pose proof (bridge_inv_submit id response st Hinv) as Hinv1.
    rewrite Hst1 in Hinv1. simpl in Hinv1.
    set (st2 := _remove_request id (with_queues (insert id []) st1)).
    assert (requests st2 = ODict.pop id (requests st1)) as Hreqs
      by apply (remove_request_requests id (with_queues (insert id []) st1)).
    destruct (remove_request_gone id (with_queues (insert id []) st1))
      as (Hdead & Hnoq & Hnoev).
    exists st2. split_and!; try done.
    + unfold get_final_response. by rewrite Hq.
    + unfold get_final_response. fold st2 in Hnoq. by rewrite Hnoq.
    + unfold get_status. simpl. rewrite Hreqs. apply odict_length_pop.
      * apply (inv_nodup st1 Hinv1).
      * apply odict_get_Some_keys. eauto.
    + intros s. rewrite !count_status_fold, Hreqs.
      rewrite (count_pop s id (set_status completed request) (requests st1));
        [|apply (inv_nodup st1 Hinv1) | done].
      simpl. f_equal. destruct (decide (s = completed)) as [->|Hne].
      * by rewrite decide_True.
      * by rewrite decide_False.
Qed.

Lemma get_final_response_removes_witness :
  ∃ st2,
    get_final_response "a"
      (submit_response "a" (Sample.reply "hi there" true) (Sample.one false)).2
      = (Some (Sample.reply "hi there" true), st2) ∧
    ¬ live "a" st2 ∧
    get_final_response "a" st2 = (None, st2) ∧
    get_final_response "a" (Sample.one false) = (None, Sample.one false).
Proof.
  destruct (get_final_response_removes (Sample.one false) "a"
              (Sample.reply "hi there" true)
              (bridge_inv_exec _ _ bridge_inv_init)) as [Hnone Hsome].
  destruct (Hsome (Sample.request_a false) eq_refl eq_refl)
    as (st2 & H1 & H2 & _ & _ & H5 & _).
  exists st2. split_and!; [exact H1 | exact H2 | exact H5 |].
  apply Hnone. left. reflexivity.
Defined.

(** ** State transitions *)

Lemma signal_completed_requests id st :
  requests (signal_completed id st).2 = requests st ∨
  requests (signal_completed id st).2 = ODict.alter (set_status completed) id (requests st).
Proof.
  unfold signal_completed. destruct (completion_events st !! id); [by right | by left].
Qed.

Lemma submit_response_requests id response st :
  requests (submit_response id response st).2 = requests st ∨
  requests (submit_response id response st).2 =
    ODict.alter (set_status completed) id (requests st).
Proof.
  unfold submit_response. destruct (ODict.get id (requests st)) as [rq|]; [|by left].
  destruct (stream rq).
  - destruct (response_queues st !! id) as [q|]; [|by left].
    destruct (_ || _); [|by left].
    apply (signal_completed_requests id (with_queues _ st)).
  - apply (signal_completed_requests id (with_queues _ st)).
Qed.

(** What one operation does to the request stored under [id], unless the
    operation is a [create_request] that draws [id] itself: the request is
    dropped, kept as it is, marked processing by [mark_processing id], or
    marked completed by [submit_response id]. *)
Lemma step_request_cases op st id :
  creates id op = false →
  ODict.get id (requests (step op st).2) = None ∨
  ODict.get id (requests (step op st).2) = ODict.get id (requests st) ∨
  (op = OpMarkProcessing id ∧
   ODict.get id (requests (step op st).2) =
     set_status processing <$> ODict.get id (requests st)) ∨
  (∃ response, op = OpSubmit id response ∧
   ODict.get id (requests (step op st).2) =
     set_status completed <$> ODict.get id (requests st)).
Proof.
  intros Hcr. destruct op as [uuid now d| |id'|id' r|id'|id'|id'| |now]; simpl in *.
  - apply bool_decide_eq_false in Hcr. rewrite create_request_eq. simpl.
    rewrite register_requests, build_request_id, odict_get_set, decide_False by done.
    unfold make_room. destruct (Nat.leb _ _); [|by right; left].
    destruct (Py.min_by _ _) as [[oid ?]|]; [|by right; left].
    rewrite remove_request_requests, odict_get_pop.
    case_decide; [by left | by right; left].
  - by right; left.
  - unfold mark_processing. destruct (ODict.mem id' (requests st)); [|by right; left].
    simpl. rewrite odict_get_alter. case_decide; subst; [|by right; left].
    right; right; left. done.
  - destruct (submit_response id' r st) as [b st'] eqn:E.
    assert (st' = (submit_response id' r st).2) as -> by by rewrite E.
    simpl. destruct (submit_response_requests id' r st) as [-> | ->]; [by right; left|].
    rewrite odict_get_alter. case_decide; subst; [|by right; left].
    right; right; right. by exists r.
  - unfold get_response. destruct (response_queues st !! id') as [[|? ?]|];
      by right; left.
  - unfold get_final_response. destruct (response_queues st !! id') as [[|? ?]|];
      simpl; try by right; left.
    rewrite remove_request_requests. simpl. rewrite odict_get_pop.
    case_decide; [by left | by right; left].
  - unfold cancel_request. destruct (ODict.mem id' (requests st)); [|by right; left].
    rewrite remove_request_requests, odict_get_pop.
    case_decide; [by left | by right; left].
  - by right; left.
  - unfold _cleanup_expired_requests.
    destruct (remove_all_spec (expired_ids now st) id st) as (H1 & H2 & _).
    destruct (decide (id ∈ expired_ids now st)) as [Hin|Hnin].
    + left. apply odict_get_None_keys. by apply H1.
    + right; left. by destruct (H2 Hnin) as (-> & _).
Qed.

(** C3, as the code has it: a request's state is changed only by
    [mark_processing], which sets [processing] on any live request
    whatever its state, and by [submit_response], which sets [completed];
    under every other operation the state of a request that stays live is
    unchanged, so without [mark_processing] the state never moves back.  A
    removed request is never restored or mutated. *)
Theorem status_changes_only_by_mark_or_submit op st id :
  creates id op = false →
  (¬ live id st → ¬ live id (step op st).2) ∧
  (∀ s s', status_of id st = Some s → status_of id (step op st).2 = Some s' →
     (s' = s ∨
      (op = OpMarkProcessing id ∧ s' = processing) ∨
      (∃ response, op = OpSubmit id response ∧ s' = completed)) ∧
     (op ≠ OpMarkProcessing id → (rank s ≤ rank s')%nat)).
Proof.
  intros Hcr. pose proof (step_request_cases op st id Hcr) as Hcases. split.
  - unfold live. rewrite <- !odict_get_None_keys. intros Hnone.
    rewrite Hnone in Hcases. simpl in Hcases.
    destruct Hcases as [?|[?|[[_ ?]|(? & _ & ?)]]]; done.
  - unfold status_of. intros s s' Hs Hs'.
    destruct (ODict.get id (requests st)) as [r|]; [|done].
    simpl in Hs. injection Hs as <-.
    destruct Hcases as [E|[E|[[Hop E]|(response & Hop & E)]]];
      rewrite E in Hs'; simpl in Hs'; try done; injection Hs' as <-.
    + split; [by left | lia].
    + split; [right; left; done | done].
    + split; [right; right; by exists response|].
      intros _. destruct (status r); simpl; lia.
Qed.

Lemma status_changes_only_by_mark_or_submit_witness :
  status_of "a" (Sample.one false) = Some pending ∧
  status_of "a" (step (OpSubmit "a" (Sample.reply "hi" false)) (Sample.one false)).2
    = Some completed ∧
  (rank pending ≤ rank completed)%nat ∧
  (¬ live "b" (Sample.one false) →
   ¬ live "b" (step (OpSubmit "a" (Sample.reply "hi" false)) (Sample.one false)).2).
Proof.
  destruct (status_changes_only_by_mark_or_submit
              (OpSubmit "a" (Sample.reply "hi" false)) (Sample.one false) "a" eq_refl)
    as [_ H].
  destruct (H pending completed eq_refl eq_refl) as [_ Hrank].
  split_and!; [reflexivity | reflexivity | apply Hrank; discriminate |].
  apply (status_changes_only_by_mark_or_submit
           (OpSubmit "a" (Sample.reply "hi" false)) (Sample.one false) "b" eq_refl).
Defined.

(** C3 as stated fails: [mark_processing] on a completed request that
    has not been fetched yet takes it back to [processing]. *)
Lemma mark_processing_regresses_completed :
  status_of "a" (exec [OpSubmit "a" (Sample.reply "hi" true)] (Sample.one false))
    = Some completed ∧
  status_of "a" (exec [OpSubmit "a" (Sample.reply "hi" true); OpMarkProcessing "a"]
                      (Sample.one false))
    = Some processing ∧
  ¬ (rank completed ≤ rank processing)%nat.
Proof. split_and!; [reflexivity | reflexivity | simpl; lia]. Qed.

(** ** Waiting for completion *)

Lemma signal_completed_events id st :
  completion_events (signal_completed id st).2 = completion_events st.
Proof. unfold signal_completed. by destruct (completion_events st !! id). Qed.

Lemma submit_response_events id response st :
  completion_events (submit_response id response st).2 = completion_events st.
Proof.
  unfold submit_response. destruct (ODict.get id (requests st)) as [rq|]; [|done].
  destruct (stream rq).
  - destruct (response_queues st !! id) as [q|]; [|done].
    destruct (_ || _); [|done]. by rewrite signal_completed_events.
  - by rewrite signal_completed_events.
Qed.

Lemma remove_event_cases x id ev st :
  bridge_inv st → completion_events st !! id = Some ev →
  completion_events (_remove_request x st) !! id = Some ev ∨
  (completion_events (_remove_request x st) !! id = None ∧
   event_is_set ev (_remove_request x st) = true).
Proof.
  intros Hinv Hev. destruct (decide (x = id)) as [->|Hne].
  - right. split; [apply remove_request_gone|].
    apply remove_request_signals; [done | by eapply inv_heap].
  - left. by destruct (remove_request_other x id st) as (_ & _ & ->).
Qed.

(** One operation either leaves the event of [id] in the dictionary or
    pops it after setting it. *)
Lemma step_event_cases op st id ev :
  bridge_inv st → completion_events st !! id = Some ev → creates id op = false →
  completion_events (step op st).2 !! id = Some ev ∨
  (completion_events (step op st).2 !! id = None ∧
   event_is_set ev (step op st).2 = true).
Proof.
  intros Hinv Hev Hcr.
  destruct op as [uuid now d| |id'|id' r|id'|id'|id'| |now]; simpl in *;
    try by left.
  - apply bool_decide_eq_false in Hcr. rewrite create_request_eq. simpl.
    rewrite register_events, build_request_id, lookup_insert_ne by done.
    assert (completion_events (make_room st) !! id = Some ev ∨
            (completion_events (make_room st) !! id = None ∧
             event_is_set ev (make_room st) = true)) as [?|[? Hset]].
    { unfold make_room. destruct (Nat.leb _ _); [|by left].
      destruct (Py.min_by _ _) as [[oid ?]|]; [|by left].
      by apply remove_event_cases. }
    + by left.
    + right. split; [done|]. by apply heap_le_register.
  - unfold mark_processing. destruct (ODict.mem _ _); by left.
  - destruct (submit_response id' r st) as [b st'] eqn:E.
    assert (st' = (submit_response id' r st).2) as -> by by rewrite E.
    simpl. rewrite submit_response_events. by left.
  - unfold get_response. destruct (response_queues st !! id') as [[|? ?]|]; by left.
  - unfold get_final_response.
    destruct (response_queues st !! id') as [[|? q]|] eqn:E; simpl; try by left.
    apply remove_event_cases; [|done].
    apply bridge_inv_set_queue; [done|]. apply (inv_queues st Hinv). eauto.
  - unfold cancel_request. destruct (ODict.mem _ _); [|by left].
    by apply remove_event_cases.
  - unfold _cleanup_expired_requests.
    destruct (remove_all_spec (expired_ids now st) id st) as (H1 & H2 & _).
    destruct (decide (id ∈ expired_ids now st)) as [Hin|Hnin].
    + right. split; [|by apply (remove_all_signals _ id)].
      apply eq_None_not_Some.
      intros ?%(inv_events _ (bridge_inv_cleanup now st Hinv)). by apply H1.
    + left. by destruct (H2 Hnin) as (_ & _ & ->).
Qed.

Lemma exec_event_cases ops st id ev :
  bridge_inv st → completion_events st !! id = Some ev →
  Forall (λ op, creates id op = false) ops →
  completion_events (exec ops st) !! id = Some ev ∨
  event_is_set ev (exec ops st) = true.
Proof.
  revert st. induction ops as [|op ops IH]; intros st Hinv Hev Hops; [by left|].
  apply Forall_cons in Hops as [Hop Hops]. rewrite exec_cons.
  destruct (step_event_cases op st id ev Hinv Hev Hop) as [Hev'|[_ Hset]].
  - apply IH; [by apply bridge_inv_step | done | done].
  - right. by apply heap_le_exec.
Qed.

Lemma event_wait_set ev remaining sched st :
  event_is_set ev st = true → event_wait ev remaining sched st = (true, sched, st).
Proof. intros Hset. destruct sched as [|[dt op] sched]; simpl; by rewrite Hset. Qed.

Lemma duration_nonneg sched : Forall (λ e : Z * Op, 0 ≤ e.1) sched → 0 ≤ duration sched.
Proof.
  induction 1 as [|e sched He _ IH]; unfold duration in *; simpl; lia.
Qed.

(** A waiter wakes with [True] no later than the operation that sets its
    event, provided that operation runs before the time is up. *)
Lemma event_wait_wakes ev pre post remaining st :
  event_is_set ev (exec pre.*2 st) = true →
  Forall (λ e : Z * Op, 0 ≤ e.1) pre →
  duration pre ≤ remaining →
  ∃ ran rest, pre ++ post = ran ++ rest ∧ (length ran ≤ length pre)%nat ∧
              event_wait ev remaining (pre ++ post) st = (true, rest, exec ran.*2 st).
Proof.
  revert st remaining. induction pre as [|[dt op] pre IH]; intros st remaining Hset Hpos Hdur.
  - exists [], post. split_and!; [done | done |]. by apply event_wait_set.
  - destruct (event_is_set ev st) eqn:Hnow.
    + exists [], ((dt, op) :: pre ++ post). split_and!; [done | simpl; lia |].
      by apply (event_wait_set ev remaining ((dt, op) :: pre ++ post)).
    + apply Forall_cons in Hpos as [Hdt Hpos]. simpl in Hdt.
      pose proof (duration_nonneg pre Hpos) as Hrest.
      change (duration ((dt, op) :: pre)) with (dt + duration pre) in Hdur.
      destruct (IH (step op st).2 (remaining - dt)) as (ran & rest & Happ & Hlen & Hw);
        [done | done | lia |].
      exists ((dt, op) :: ran), rest. split_and!.
      * simpl. by rewrite Happ.
      * simpl. lia.
      * simpl. rewrite Hnow.
        destruct (Z.ltb_spec remaining dt); [lia|]. exact Hw.
Qed.

Lemma wait_raises_bound id timeout_arg st :
  actual_timeout timeout_arg (ODict.get id (requests st)) ≤ TIMEOUT_MAX →
  wait_raises id timeout_arg st = false.
Proof.
  intros Hle. unfold wait_raises. destruct (completion_events st !! id); [|done].
  apply andb_false_iff. right. by apply Z.ltb_ge.
Qed.

(** C2, as the code has it: when the entry of a request is removed
    (cancelled, evicted or expired) while a caller is blocked in
    [wait_for_completion], the caller is woken no later than the removal
    and [wait_for_completion] returns [True], because removal sets the
    completion event before popping it.  It returns [False] at once only
    when the entry is already gone when it is called.  The caller is
    blocked only with a timeout [Event.wait] blocks on: positive and at
    most [TIMEOUT_MAX], so that the call does not raise. *)
Theorem wait_for_completion_woken_by_removal st id timeout_arg pre post ev :
  bridge_inv st →
  completion_events st !! id = Some ev →
  0 < actual_timeout timeout_arg (ODict.get id (requests st)) ≤ TIMEOUT_MAX →
  Forall (λ e : Z * Op, creates id e.2 = false ∧ 0 ≤ e.1) pre →
  duration pre ≤ seconds (actual_timeout timeout_arg (ODict.get id (requests st))) →
  completion_events (exec pre.*2 st) !! id = None →
  wait_raises id timeout_arg st = false ∧
  (∃ ran rest,
     pre ++ post = ran ++ rest ∧ (length ran ≤ length pre)%nat ∧
     wait_for_completion id timeout_arg (pre ++ post) st =
       (true, rest, exec ran.*2 st)) ∧
  wait_for_completion id timeout_arg post (exec pre.*2 st) =
    (false, post, exec pre.*2 st).
Proof.
  intros Hinv Hev [_ Hmax] Hpre Hdur Hgone. split; [by apply wait_raises_bound|]. split.
  - unfold wait_for_completion. rewrite Hev.
    apply event_wait_wakes; [| |done].
    + destruct (exec_event_cases pre.*2 st id ev Hinv Hev) as [Hstill|Hset];
        [|congruence|done].
      apply Forall_fmap. eapply Forall_impl; [exact Hpre|]. by intros [dt op] [? _].
    + eapply Forall_impl; [exact Hpre|]. by intros [dt op] [_ ?].
  - unfold wait_for_completion. by rewrite Hgone.
Qed.

Lemma wait_for_completion_woken_by_removal_witness :
  ∃ ran rest,
    [(2000000, OpGetPending); (1000000, OpCancel "a")] ++ [(5, OpGetStatus)] = ran ++ rest ∧
    wait_for_completion "a" (Some 30)
      ([(2000000, OpGetPending); (1000000, OpCancel "a")] ++ [(5, OpGetStatus)])
      (Sample.one false) = (true, rest, exec ran.*2 (Sample.one false)).
Proof.
  destruct (wait_for_completion_woken_by_removal (Sample.one false) "a" (Some 30)
              [(2000000, OpGetPending); (1000000, OpCancel "a")] [(5, OpGetStatus)] 0%nat)
    as (_ & (ran & rest & H1 & _ & H2) & _).
  - apply bridge_inv_exec, bridge_inv_init.
  - reflexivity.
  - vm_compute. split; [reflexivity | discriminate].
  - repeat constructor; simpl; lia.
  - vm_compute. discriminate.
  - reflexivity.
  - exists ran, rest. split; assumption.
Defined.

(** C2 as stated fails: a caller waiting on a request that is cancelled
    while it waits is woken, but with [True], not [False]. *)
Lemma wait_for_completion_cancelled_returns_true :
  completion_events (Sample.one false) !! "a" = Some 0%nat ∧
  completion_events (exec [OpCancel "a"] (Sample.one false)) !! "a" = None ∧
  (wait_for_completion "a" None [(1000000, OpCancel "a")] (Sample.one false)).1.1 = true ∧
  (wait_for_completion "a" None [(1000000, OpCancel "a")] (Sample.one false)).1.1 ≠ false.
Proof. split_and!; [reflexivity | reflexivity | reflexivity | discriminate]. Qed.

(** ** Validation of a chat submission *)

Lemma lstrip_blank s : blank s = true → lstrip s = "".
Proof.
  induction s as [|c s IH]; simpl; [done|].
  intros [Hc Hs]%andb_prop. rewrite Hc. auto.
Qed.

Lemma strip_blank s : blank s = true → strip s = "".
Proof. intros Hs. unfold strip. by rewrite lstrip_blank. Qed.

(** C9, as the code has it: the validation is done by the [webllm_chat]
    endpoint, not by [create_request].  A submission whose content
    ([content], else [user_message]) is missing, empty or blank is answered
    with the 400 error "Content is required" and the registry is left as it
    was; a request is registered only with a non-empty stripped content. *)
Theorem webllm_chat_requires_content data uuid now st :
  (blank (posted_content data) = true →
   webllm_chat data uuid now st =
     (Responded "Content is required" HTTP_400_BAD_REQUEST, st)) ∧
  (∀ r st', webllm_chat data uuid now st = (Registered r, st') →
     content r = strip (posted_content data) ∧ content r ≠ "" ∧
     blank (posted_content data) = false).
Proof.
  split.
  - intros Hblank. unfold webllm_chat. fold (posted_content data).
    by rewrite (strip_blank _ Hblank).
  - intros r st'. unfold webllm_chat. fold (posted_content data).
    destruct (Py.str_truthy (strip (posted_content data))) eqn:Htruthy; simpl; [|done].
    rewrite create_request_eq. intros [= <- _]. simpl. split_and!.
    + done.
    + intros E. by rewrite E in Htruthy.
    + destruct (blank (posted_content data)) eqn:Hblank; [|done].
      by rewrite (strip_blank _ Hblank) in Htruthy.
Qed.

Lemma webllm_chat_requires_content_witness :
  webllm_chat (Sample.post (Some "  ")) "u" 7 (Sample.one true) =
    (Responded "Content is required" HTTP_400_BAD_REQUEST, Sample.one true) ∧
  webllm_chat (Sample.post None) "u" 7 (Sample.one true) =
    (Responded "Content is required" HTTP_400_BAD_REQUEST, Sample.one true).
Proof.
  split.
  - apply (webllm_chat_requires_content (Sample.post (Some "  ")) "u" 7 (Sample.one true)).
    reflexivity.
  - apply (webllm_chat_requires_content (Sample.post None) "u" 7 (Sample.one true)).
    reflexivity.
Defined.

(** C9 as stated fails: [create_request] checks nothing; given an empty
    or a missing content it registers a request all the same. *)
Lemma create_request_accepts_empty_content :
  (∃ r st', create_request "u" 7 (mkData None (Some "") None None None None None None None)
              init = (Py.Ret r, st') ∧
            content r = "" ∧ requests st' = [("u", r)]) ∧
  (∃ r st', create_request "u" 7 (mkData None None None None None None None None None)
              init = (Py.Ret r, st') ∧
            content r = "" ∧ requests st' = [("u", r)]).
Proof. split; eexists _, _; (split_and!; [reflexivity | reflexivity | reflexivity]). Qed.

(** ** The streaming adapter and an empty final response *)

(** A pass that retrieves a response with [done] set, no error and an
    empty content yields no frame and goes round the loop again: the test
    of [done] is nested under the test of the content. *)
Lemma stream_iteration_empty_final webllm_request t_loop t_act v st response queue :
  t_loop - start_time v < seconds (timeout webllm_request) →
  response_queues st !! request_id webllm_request = Some (response :: queue) →
  Py.opt_truthy (resp_error response) = false →
  resp_content response = "" →
  resp_done response = true →
  stream_iteration webllm_request t_loop t_act v st =
    ([], Continue, mkVars (start_time v) t_act true,
     with_queues (insert (request_id webllm_request) queue) st).
Proof.
  intros Htime Hq Herr Hcontent Hdone. unfold stream_iteration.
  destruct (Z.leb_spec (seconds (timeout webllm_request)) (t_loop - start_time v));
    [lia|].
  unfold get_response. rewrite Hq, Herr, Hcontent. done.
Qed.

(** C1 (a retrieved response with [done] set and no error ends the
    stream, after a usage frame if usage is present, whatever its content)
    does not hold of the code.  In scenario B the consumer reads the three
    partial responses; the fourth pass retrieves the final response (empty
    content, [done] set, usage present) and neither emits the usage frame
    nor stops.  The generator keeps polling the drained queue and ends
    10.2 seconds later with an inactivity error frame. *)
Theorem stream_empty_final_response_not_terminal :
  get_response "a"
    (exec [OpGetResponse "a"; OpGetResponse "a"; OpGetResponse "a"] Sample.scenario_b)
  = (Some Sample.final_reply,
     with_queues (insert "a" [])
       (exec [OpGetResponse "a"; OpGetResponse "a"; OpGetResponse "a"] Sample.scenario_b)) ∧
  stream_iteration (Sample.request_a true) 0 0 (mkVars 0 0 true)
    (exec [OpGetResponse "a"; OpGetResponse "a"; OpGetResponse "a"] Sample.scenario_b)
  = ([], Continue, mkVars 0 0 true,
     with_queues (insert "a" [])
       (exec [OpGetResponse "a"; OpGetResponse "a"; OpGetResponse "a"] Sample.scenario_b)) ∧
  option_map fst
    (stream_webllm_response (Sample.request_a true) 0 (Sample.quiet 56) Sample.scenario_b)
  = Some [FrameDelta "x"; FrameDelta "y"; FrameDelta "z"; FrameError (Inactive 10200000)].
Proof.
  split_and!.
  - reflexivity.
  - exact (stream_iteration_empty_final (Sample.request_a true) 0 0 (mkVars 0 0 true)
             (exec [OpGetResponse "a"; OpGetResponse "a"; OpGetResponse "a"]
                   Sample.scenario_b)
             Sample.final_reply [] eq_refl eq_refl eq_refl eq_refl eq_refl).
  - vm_compute. reflexivity.
Qed.

(** ** Operations on one request leave the others alone *)

Lemma event_is_set_app ev st rq qs es more :
  event_is_set ev (mkBridge rq qs es (event_heap st ++ more)) = true →
  (ev < length (event_heap st))%nat →
  event_is_set ev st = true.
Proof.
  unfold event_is_set. simpl. intros H Hlt. by rewrite lookup_app_l in H.
Qed.

Lemma register_flag r st ev :
  event_is_set ev (register r st) = event_is_set ev st.
Proof.
  unfold event_is_set. rewrite register_heap.
  destruct (decide (ev < length (event_heap st))%nat) as [Hlt|Hge].
  - by rewrite lookup_app_l.
  - rewrite (lookup_ge_None_2 (event_heap st)) by lia.
    destruct (decide (ev = length (event_heap st))) as [->|Hne].
    + by rewrite list_lookup_middle.
    + rewrite lookup_ge_None_2; [done|]. rewrite length_app. simpl. lia.
Qed.

Lemma make_room_frame id st :
  bridge_inv st → live id (make_room st) →
  ODict.get id (requests (make_room st)) = ODict.get id (requests st) ∧
  response_queues (make_room st) !! id = response_queues st !! id ∧
  completion_events (make_room st) !! id = completion_events st !! id ∧
  (∀ ev, completion_events st !! id = Some ev →
         event_is_set ev (make_room st) = event_is_set ev st).
Proof.
  intros Hinv Hlive. unfold make_room in *. destruct (Nat.leb _ _); [|done].
  destruct (Py.min_by _ _) as [[oid ?]|]; [|done].
  destruct (decide (id = oid)) as [->|Hne].
  - by destruct (remove_request_gone oid st) as [? _].
  - destruct (remove_request_other oid id st Hne) as (-> & -> & ->).
    split_and!; try done. intros ev Hev. by apply (remove_request_flag oid id).
Qed.

Lemma signal_completed_frame id' id st :
  bridge_inv st → id ≠ id' →
  ODict.get id (requests (signal_completed id' st).2) = ODict.get id (requests st) ∧
  response_queues (signal_completed id' st).2 = response_queues st ∧
  (∀ ev, completion_events st !! id = Some ev →
         event_is_set ev (signal_completed id' st).2 = event_is_set ev st).
Proof.
  intros Hinv Hne. unfold signal_completed.
  destruct (completion_events st !! id') as [ev'|] eqn:E; [|done]. simpl.
  rewrite odict_get_alter, decide_False by done. split_and!; try done.
  intros ev Hev. unfold event_is_set. simpl.
  rewrite list_lookup_insert_ne; [done|].
  intros ->. apply Hne. symmetry. eapply (inv_owner st Hinv); eassumption.
Qed.

Lemma submit_response_frame id' id response st :
  bridge_inv st → id ≠ id' →
  ODict.get id (requests (submit_response id' response st).2) = ODict.get id (requests st) ∧
  response_queues (submit_response id' response st).2 !! id = response_queues st !! id ∧
  (∀ ev, completion_events st !! id = Some ev →
         event_is_set ev (submit_response id' response st).2 = event_is_set ev st).
Proof.
  intros Hinv Hne. unfold submit_response.
  destruct (ODict.get id' (requests st)) as [rq|] eqn:Hrq; [|done].
  assert (live id' st) as Hlive' by (apply odict_get_Some_keys; eauto).
  assert (∀ q,
    ODict.get id (requests (signal_completed id' (with_queues (insert id' q) st)).2)
      = ODict.get id (requests st) ∧
    response_queues (signal_completed id' (with_queues (insert id' q) st)).2 !! id
      = response_queues st !! id ∧
    (∀ ev, completion_events st !! id = Some ev →
       event_is_set ev (signal_completed id' (with_queues (insert id' q) st)).2
         = event_is_set ev st)) as Hsig.
  { intros q.
    destruct (signal_completed_frame id' id (with_queues (insert id' q) st))
      as (-> & -> & Hflag); [by apply bridge_inv_set_queue | done |].
    simpl. rewrite lookup_insert_ne by done. split_and!; try done. }
  destruct (stream rq).
  - destruct (response_queues st !! id') as [q|]; [|done].
    destruct (_ || _); [apply Hsig|]. simpl. by rewrite lookup_insert_ne.
  - apply Hsig.
Qed.

(** An operation that does not name request [id] and after which [id] is
    still registered has changed nothing of [id]. *)
Lemma step_frame op st id :
  bridge_inv st → mentions id op = false → live id (step op st).2 →
  ODict.get id (requests (step op st).2) = ODict.get id (requests st) ∧
  response_queues (step op st).2 !! id = response_queues st !! id ∧
  completion_events (step op st).2 !! id = completion_events st !! id ∧
  (∀ ev, completion_events st !! id = Some ev →
         event_is_set ev (step op st).2 = event_is_set ev st).
Proof.
  intros Hinv Hm Hlive.
  destruct op as [uuid now d| |id'|id' r|id'|id'|id'| |now]; simpl in *;
    try (apply bool_decide_eq_false in Hm); try done.
  - rewrite create_request_eq in *. simpl in *.
    unfold live in Hlive. rewrite register_requests, build_request_id in Hlive.
    apply odict_elem_keys_set in Hlive as [?|Hlive]; [congruence|].
    destruct (make_room_frame id st Hinv Hlive) as (E1 & E2 & E3 & E4).
    rewrite register_requests, register_queues, register_events, build_request_id.
    rewrite odict_get_set, decide_False, lookup_insert_ne by congruence.
    split_and!; try done.
    + destruct (stream _); [by rewrite lookup_insert_ne | done].
    + intros ev Hev. rewrite register_flag. by apply E4.
  - unfold mark_processing in *. destruct (ODict.mem id' (requests st)); [|done].
    simpl. by rewrite odict_get_alter, decide_False by congruence.
  - destruct (submit_response id' r st) as [b st'] eqn:E.
    assert (st' = (submit_response id' r st).2) as -> by by rewrite E.
    simpl. destruct (submit_response_frame id' id r st) as (-> & -> & Hflag);
      [done | congruence |].
    by rewrite submit_response_events.
  - unfold get_response in *.
    destruct (response_queues st !! id') as [[|? ?]|]; simpl; try done.
    by rewrite lookup_insert_ne.
  - unfold get_final_response in *.
    destruct (response_queues st !! id') as [[|? q]|] eqn:E; simpl in *; try done.
    assert (id ≠ id') as Hne by congruence.
    assert (bridge_inv (with_queues (insert id' q) st)) as Hinv'.
    { apply bridge_inv_set_queue; [done|]. apply (inv_queues st Hinv). eauto. }
    destruct (remove_request_other id' id (with_queues (insert id' q) st) Hne)
      as (-> & -> & ->).
    simpl. rewrite lookup_insert_ne by done. split_and!; try done.
    intros ev Hev. by rewrite (remove_request_flag id' id ev _ Hinv' Hev Hne).
  - unfold cancel_request in *. destruct (ODict.mem id' (requests st)); [|done].
    assert (id ≠ id') as Hne by congruence.
    destruct (remove_request_other id' id st Hne) as (-> & -> & ->).
    split_and!; try done. intros ev Hev. by apply (remove_request_flag id' id).
  - unfold _cleanup_expired_requests in *.
    destruct (remove_all_spec (expired_ids now st) id st) as (H1 & H2 & _).
    destruct (decide (id ∈ expired_ids now st)) as [Hin|Hnin]; [by apply H1 in Hin|].
    destruct (H2 Hnin) as (-> & -> & ->). split_and!; try done.
    intros ev Hev. by apply (remove_all_flag _ id).
Qed.

Lemma mentions_creates id op : mentions id op = false → creates id op = false.
Proof. by destruct op. Qed.

Lemma exec_frame ops st id :
  bridge_inv st → Forall (λ op, mentions id op = false) ops →
  live_throughout id ops st = true →
  ODict.get id (requests (exec ops st)) = ODict.get id (requests st) ∧
  response_queues (exec ops st) !! id = response_queues st !! id ∧
  completion_events (exec ops st) !! id = completion_events st !! id ∧
  (∀ ev, completion_events st !! id = Some ev →
         event_is_set ev (exec ops st) = event_is_set ev st).
Proof.
  revert st. induction ops as [|op ops IH]; intros st Hinv Hm Hlive; [done|].
  apply Forall_cons in Hm as [Hop Hm]. simpl in Hlive.
  apply andb_prop in Hlive as [Hlive Hrest]. apply andb_prop in Hlive as [_ Hnow].
  apply odict_mem_true in Hnow.
  destruct (step_frame op st id Hinv Hop Hnow) as (E1 & E2 & E3 & E4).
  rewrite exec_cons.
  destruct (IH (step op st).2 (bridge_inv_step op st Hinv) Hm Hrest)
    as (-> & -> & -> & F4).
  split_and!; try done.
  intros ev Hev. rewrite F4 by by rewrite E3. by apply E4.
Qed.

(** X1: operations that do not name a request and do not evict or expire
    it leave its record, its queue, its completion event and the flag of
    that event exactly as they were. *)
Theorem other_operations_are_local ops st id :
  bridge_inv st → Forall (λ op, mentions id op = false) ops →
  live_throughout id ops st = true →
  ODict.get id (requests (exec ops st)) = ODict.get id (requests st) ∧
  response_queues (exec ops st) !! id = response_queues st !! id ∧
  completion_events (exec ops st) !! id = completion_events st !! id ∧
  (∀ ev, completion_events st !! id = Some ev →
         event_is_set ev (exec ops st) = event_is_set ev st).
Proof. apply exec_frame. Qed.

Lemma other_operations_are_local_witness :
  ODict.get "r1"
    (requests (exec [OpMarkProcessing "r0"; OpSubmit "r2" (Sample.reply "hi" true);
                     OpCancel "r4"; OpCreate "n" 200 (Sample.data true)] Sample.full))
  = ODict.get "r1" (requests Sample.full).
Proof.
  apply (other_operations_are_local
           [OpMarkProcessing "r0"; OpSubmit "r2" (Sample.reply "hi" true);
            OpCancel "r4"; OpCreate "n" 200 (Sample.data true)] Sample.full "r1").
  - apply bridge_inv_exec, bridge_inv_init.
  - repeat constructor.
  - reflexivity.
Defined.

(** ** Requests are stored under their own id *)

Lemma keys_match_step op st : keys_match st → keys_match (step op st).2.
Proof.
  intros Hk id r Hget. destruct (creates id op) eqn:Hcr.
  - destruct op as [uuid now d| | | | | | | |]; try done. simpl in *.
    apply bool_decide_eq_true in Hcr as ->.
    rewrite create_request_eq in Hget. simpl in Hget.
    rewrite register_requests, build_request_id, odict_get_set, decide_True in Hget
      by done.
    by injection Hget as <-.
  - destruct (step_request_cases op st id Hcr) as [E|[E|[[_ E]|(? & _ & E)]]];
      rewrite E in Hget; try done.
    + by apply Hk.
    + destruct (ODict.get id (requests st)) as [r0|] eqn:E0; [|done].
      cbn in Hget. injection Hget as <-. simpl. by apply Hk.
    + destruct (ODict.get id (requests st)) as [r0|] eqn:E0; [|done].
      cbn in Hget. injection Hget as <-. simpl. by apply Hk.
Qed.

Lemma keys_match_exec ops st : keys_match st → keys_match (exec ops st).
Proof.
  revert st. induction ops as [|op ops IH]; intros st Hk; [done|].
  rewrite exec_cons. by apply IH, keys_match_step.
Qed.

Lemma keys_match_init : keys_match init.
Proof. by intros id r. Qed.

(** ** Polling for pending work *)

Lemma filter_id {A} (P : A → Prop) `{!∀ x, Decision (P x)} (l : list A) :
  (∀ x, x ∈ l → P x) → filter P l = l.
Proof.
  induction l as [|a l IH]; intros Hall; [done|].
  rewrite filter_cons_True by (apply Hall; by left). f_equal. apply IH.
  intros x Hx. apply Hall. by right.
Qed.

Lemma pending_without id (d : list (string * WebLLMRequest)) :
  (∀ k v, (k, v) ∈ d → request_id v = k) → id ∉ ODict.keys d →
  filter (λ r, request_id r ≠ id) (filter (λ r, status r = pending) (ODict.values d)) =
  filter (λ r, status r = pending) (ODict.values d).
Proof.
  intros Hk Hnin. apply filter_id. intros r [_ Hr]%list_elem_of_filter.
  unfold ODict.values in Hr. apply list_elem_of_fmap in Hr as ([k v] & -> & Hin).
  simpl. rewrite (Hk k v Hin). intros ->. apply Hnin. by eapply odict_elem_keys.
Qed.

Lemma pending_after_mark id (d : list (string * WebLLMRequest)) :
  (∀ k v, (k, v) ∈ d → request_id v = k) → NoDup (ODict.keys d) →
  filter (λ r, status r = pending)
         (ODict.values (ODict.alter (set_status processing) id d)) =
  filter (λ r, request_id r ≠ id) (filter (λ r, status r = pending) (ODict.values d)).
Proof.
  unfold ODict.keys, ODict.values.
  induction d as [|[k v] d IH]; intros Hk Hnd; [done|].
  rewrite fmap_cons, NoDup_cons in Hnd. destruct Hnd as [Hkd Hnd].
  assert (∀ k' v', (k', v') ∈ d → request_id v' = k') as Hk'
    by (intros k' v' Hin; apply Hk; by right).
  assert (request_id v = k) as Hv by (apply Hk; by left).
  cbn [ODict.alter]. destruct (decide (id = k)) as [->|Hne].
  - rewrite !fmap_cons. cbn [snd].
    rewrite (filter_cons_False _ (set_status processing v)) by done.
    rewrite (filter_cons (λ r, status r = pending) v).
    destruct (decide (status v = pending)).
    + rewrite filter_cons_False by (intros ?; congruence).
      symmetry. by apply pending_without.
    + symmetry. by apply pending_without.
  - rewrite !fmap_cons. cbn [snd]. rewrite !(filter_cons (λ r, status r = pending)).
    destruct (decide (status v = pending)).
    + rewrite filter_cons_True by congruence. f_equal. by apply IH.
    + by apply IH.
Qed.

(** X2: [mark_processing] on an unknown id returns [False] and changes
    nothing; on a live request it returns [True], the request is then in
    state processing, and [get_pending_requests] lists what it listed
    before, in the same order, without that request. *)
Theorem mark_processing_takes_off_pending st id :
  bridge_inv st → keys_match st →
  (¬ live id st → mark_processing id st = (false, st)) ∧
  (live id st →
     (mark_processing id st).1 = true ∧
     status_of id (mark_processing id st).2 = Some processing ∧
     get_pending_requests (mark_processing id st).2 =
       filter (λ r, request_id r ≠ id) (get_pending_requests st)).
Proof.
  intros Hinv Hk. unfold mark_processing. split.
  - intros Hdead. apply odict_mem_false in Hdead. by rewrite Hdead.
  - intros Hlive. pose proof Hlive as Hmem. apply odict_mem_true in Hmem.
    rewrite Hmem. simpl. split_and!; [done| |].
    + unfold status_of. simpl. rewrite odict_get_alter, decide_True by done.
      apply odict_get_Some_keys in Hlive as [r ->]. done.
    + unfold get_pending_requests. simpl. apply pending_after_mark.
      * intros k v Hin. apply Hk. apply odict_elem_get; [apply (inv_nodup st Hinv) | done].
      * apply (inv_nodup st Hinv).
Qed.

Lemma mark_processing_takes_off_pending_witness :
  get_pending_requests (mark_processing "r3" Sample.full).2 =
    filter (λ r, request_id r ≠ "r3") (get_pending_requests Sample.full).
Proof.
  apply (mark_processing_takes_off_pending Sample.full "r3").
  - apply bridge_inv_exec, bridge_inv_init.
  - apply keys_match_exec, keys_match_init.
  - unfold live. apply odict_mem_true. reflexivity.
Defined.

(** ** A newly created request *)

(** X3: in a registry with room, [create_request] with a fresh id returns
    a pending request that [get_pending_requests] lists last; its
    completion event is new and not set, its queue is empty if it streams
    and absent if not, and every other entry is left as it was. *)
Theorem create_request_registers_pending st uuid now d :
  bridge_inv st → ¬ live uuid st →
  (length (requests st) < MAX_CONCURRENT_REQUESTS)%nat →
  (create_request uuid now d st).1 = Py.Ret (build_request uuid now d) ∧
  status (build_request uuid now d) = pending ∧
  get_pending_requests (create_request uuid now d st).2 =
    get_pending_requests st ++ [build_request uuid now d] ∧
  (∃ ev, completion_events (create_request uuid now d st).2 !! uuid = Some ev ∧
         completion_events st !! uuid = None ∧
         event_is_set ev (create_request uuid now d st).2 = false) ∧
  response_queues (create_request uuid now d st).2 !! uuid =
    (if default false (d_stream d) then Some [] else None) ∧
  (∀ id, id ≠ uuid →
     ODict.get id (requests (create_request uuid now d st).2) = ODict.get id (requests st) ∧
     response_queues (create_request uuid now d st).2 !! id = response_queues st !! id ∧
     completion_events (create_request uuid now d st).2 !! id = completion_events st !! id).
Proof.
  intros Hinv Hfresh Hroom. rewrite create_request_eq. simpl.
  rewrite make_room_spare by done.
  rewrite register_requests, register_queues, register_events, build_request_id.
  split_and!; try done.
  - unfold get_pending_requests. rewrite register_requests, build_request_id.
    rewrite odict_set_fresh by done. unfold ODict.values.
    rewrite fmap_app, filter_app. f_equal.
  - exists (length (event_heap st)). rewrite lookup_insert_eq. split_and!; [done| |].
    + apply eq_None_not_Some. by intros ?%(inv_events st Hinv).
    + unfold event_is_set. rewrite register_heap. by rewrite list_lookup_middle.
  - simpl. destruct (default false (d_stream d)); [by rewrite lookup_insert_eq|].
    apply eq_None_not_Some. by intros ?%(inv_queues st Hinv).
  - intros id Hne. rewrite odict_get_set, decide_False, lookup_insert_ne by done.
    split_and!; try done. destruct (stream _); [by rewrite lookup_insert_ne | done].
Qed.

Lemma create_request_registers_pending_witness :
  get_pending_requests (create_request "b" 5 (Sample.data true) (Sample.one false)).2 =
    get_pending_requests (Sample.one false) ++ [build_request "b" 5 (Sample.data true)].
Proof.
  apply (create_request_registers_pending (Sample.one false) "b" 5 (Sample.data true)).
  - apply bridge_inv_exec, bridge_inv_init.
  - unfold live. rewrite <- odict_get_None_keys. reflexivity.
  - vm_compute. lia.
Defined.

(** ** Cancellation *)

Lemma not_live_absent st id :
  bridge_inv st → ¬ live id st →
  ODict.get id (requests st) = None ∧ response_queues st !! id = None ∧
  completion_events st !! id = None.
Proof.
  intros Hinv Hdead. split_and!.
  - by apply odict_get_None_keys.
  - apply eq_None_not_Some. by intros ?%(inv_queues st Hinv).
  - apply eq_None_not_Some. by intros ?%(inv_events st Hinv).
Qed.

(** Every operation on an id that is not registered is refused and
    changes nothing. *)
Lemma unknown_id_refused st id :
  bridge_inv st → ¬ live id st →
  cancel_request id st = st ∧
  mark_processing id st = (false, st) ∧
  (∀ response, submit_response id response st = (Py.Ret false, st)) ∧
  get_response id st = (None, st) ∧
  get_final_response id st = (None, st) ∧
  (∀ timeout_arg sched, wait_for_completion id timeout_arg sched st = (false, sched, st)).
Proof.
  intros Hinv Hdead. destruct (not_live_absent st id Hinv Hdead) as (Hr & Hq & He).
  unfold cancel_request, mark_processing, submit_response, get_response,
    get_final_response, wait_for_completion, ODict.mem.
  rewrite Hr, Hq, He. done.
Qed.

Lemma cancel_request_dead st id : ¬ live id (cancel_request id st).
Proof.
  unfold cancel_request. destruct (ODict.mem id (requests st)) eqn:M.
  - apply remove_request_gone.
  - by apply odict_mem_false.
Qed.

(** X4: after [cancel_request] the id is in none of the three
    dictionaries and the event it owned is set; from then on
    [mark_processing], [submit_response], [get_response],
    [get_final_response] and [wait_for_completion] on that id return
    [False] or [None] and change nothing, and so does a second
    [cancel_request]. *)
Theorem cancel_request_is_final st id :
  bridge_inv st →
  ¬ live id (cancel_request id st) ∧
  response_queues (cancel_request id st) !! id = None ∧
  completion_events (cancel_request id st) !! id = None ∧
  (∀ ev, completion_events st !! id = Some ev →
         event_is_set ev (cancel_request id st) = true) ∧
  cancel_request id (cancel_request id st) = cancel_request id st ∧
  mark_processing id (cancel_request id st) = (false, cancel_request id st) ∧
  (∀ response, submit_response id response (cancel_request id st) =
               (Py.Ret false, cancel_request id st)) ∧
  get_response id (cancel_request id st) = (None, cancel_request id st) ∧
  get_final_response id (cancel_request id st) = (None, cancel_request id st) ∧
  (∀ timeout_arg sched,
     wait_for_completion id timeout_arg sched (cancel_request id st) =
       (false, sched, cancel_request id st)).
Proof.
  intros Hinv.
  pose proof (bridge_inv_cancel id st Hinv) as Hinv'.
  pose proof (cancel_request_dead st id) as Hdead.
  destruct (not_live_absent _ id Hinv' Hdead) as (_ & Hq & He).
  destruct (unknown_id_refused _ id Hinv' Hdead) as (H1 & H2 & H3 & H4 & H5 & H6).
  split_and!; try done.
  intros ev Hev. unfold cancel_request.
  assert (live id st) as Hlive%odict_mem_true by (apply (inv_events st Hinv); eauto).
  rewrite Hlive. apply remove_request_signals; [done | by eapply inv_heap].
Qed.

Lemma cancel_request_is_final_witness :
  ¬ live "r2" (cancel_request "r2" Sample.full) ∧
  get_response "r2" (cancel_request "r2" Sample.full) = (None, cancel_request "r2" Sample.full).
Proof.
  destruct (cancel_request_is_final Sample.full "r2"
              (bridge_inv_exec _ _ bridge_inv_init))
    as (H1 & _ & _ & _ & _ & _ & _ & H8 & _).
  split; assumption.
Defined.

(** ** The status summary *)

Lemma count_status_positive acc reqs s n :
  (∀ s' n', ODict.get s' acc = Some n' → (0 < n')%nat) →
  ODict.get s (foldl count_status acc reqs) = Some n → (0 < n)%nat.
Proof.
  revert acc. induction reqs as [|r reqs IH]; intros acc Hacc; simpl; [apply Hacc|].
  apply IH. intros s' n'. unfold count_status. rewrite odict_get_set.
  case_decide; [intros [= <-]; lia | apply Hacc].
Qed.

Lemma count_states_total (reqs : list WebLLMRequest) :
  length reqs =
  (length (filter (λ req, status req = pending) reqs)
   + length (filter (λ req, status req = processing) reqs)
   + length (filter (λ req, status req = completed) reqs))%nat.
Proof.
  induction reqs as [|r reqs IH]; [done|].
  rewrite !filter_cons. cbn [length].
  destruct (status r); repeat case_decide; try congruence; cbn [length]; lia.
Qed.

(** X5: whatever operations have run, [get_status] reports a total that
    does not exceed [max_concurrent] and is the sum of the numbers of
    pending, processing and completed requests; [requests_by_status] gives
    each state the number of live requests in it and has no entry for a
    state without requests. *)
Theorem get_status_consistent (ops : list Op) :
  (total_requests (get_status (exec ops init))
     ≤ max_concurrent (get_status (exec ops init)))%nat ∧
  total_requests (get_status (exec ops init)) =
    (count_in_state pending (exec ops init) + count_in_state processing (exec ops init)
     + count_in_state completed (exec ops init))%nat ∧
  (∀ s, default 0%nat (ODict.get s (requests_by_status (get_status (exec ops init))))
        = count_in_state s (exec ops init)) ∧
  (∀ s n, ODict.get s (requests_by_status (get_status (exec ops init))) = Some n →
          (0 < n)%nat).
Proof.
  split_and!.
  - apply (inv_capacity _ (bridge_inv_exec ops init bridge_inv_init)).
  - unfold get_status, count_in_state, ODict.values. simpl.
    rewrite <- (length_fmap snd). apply count_states_total.
  - intros s. apply get_status_counts.
  - intros s n. unfold get_status. simpl. by apply count_status_positive.
Qed.

(** ** Submitting to a streaming request *)

Lemma submit_streaming_live st id request q response :
  bridge_inv st →
  ODict.get id (requests st) = Some request → stream request = true →
  response_queues st !! id = Some q →
  ∃ ev, completion_events st !! id = Some ev ∧
    (submit_response id response st).1 = Py.Ret true ∧
    response_queues (submit_response id response st).2 !! id = Some (q ++ [response]) ∧
    completion_events (submit_response id response st).2 = completion_events st ∧
    if resp_done response || Py.opt_truthy (resp_error response)
    then event_is_set ev (submit_response id response st).2 = true ∧
         status_of id (submit_response id response st).2 = Some completed
    else event_is_set ev (submit_response id response st).2 = event_is_set ev st ∧
         status_of id (submit_response id response st).2 = Some (status request).
Proof.
  intros Hinv Hreq Hstream Hq.
  assert (live id st) as [ev Hev]%(inv_events st Hinv)
    by (apply odict_get_Some_keys; eauto).
  pose proof (inv_heap st Hinv id ev Hev) as Hlt.
  exists ev. split; [done|]. rewrite submit_response_events.
  unfold submit_response. rewrite Hreq, Hstream, Hq.
  destruct (_ || _).
  - destruct (signal_completed_spec id ev request
                (with_queues (insert id (q ++ [response])) st) Hev Hlt Hreq)
      as (st' & -> & Hq' & _ & Hset & Hget & _).
    simpl. rewrite Hq'. simpl. rewrite lookup_insert_eq. split_and!; try done.
    unfold status_of. by rewrite Hget.
  - simpl. rewrite lookup_insert_eq. split_and!; try done.
    unfold status_of. simpl. by rewrite Hreq.
Qed.

(** X6: on a live streaming request [submit_response] returns [True] and
    appends the response to the queue; a response with the [done] flag or
    an error also sets the completion event and the state completed,
    while any other response leaves the event flag and the state as they
    were. *)
Theorem submit_response_streaming st id request q response :
  bridge_inv st →
  ODict.get id (requests st) = Some request → stream request = true →
  response_queues st !! id = Some q →
  ∃ ev, completion_events st !! id = Some ev ∧
    (submit_response id response st).1 = Py.Ret true ∧
    response_queues (submit_response id response st).2 !! id = Some (q ++ [response]) ∧
    completion_events (submit_response id response st).2 = completion_events st ∧
    if resp_done response || Py.opt_truthy (resp_error response)
    then event_is_set ev (submit_response id response st).2 = true ∧
         status_of id (submit_response id response st).2 = Some completed
    else event_is_set ev (submit_response id response st).2 = event_is_set ev st ∧
         status_of id (submit_response id response st).2 = Some (status request).
Proof. apply submit_streaming_live. Qed.

Lemma submit_response_streaming_witness :
  ∃ ev, completion_events (Sample.one true) !! "a" = Some ev ∧
    (submit_response "a" (Sample.reply "x" false) (Sample.one true)).1 = Py.Ret true ∧
    response_queues (submit_response "a" (Sample.reply "x" false) (Sample.one true)).2 !! "a"
      = Some ([] ++ [Sample.reply "x" false]).
Proof.
  destruct (submit_response_streaming (Sample.one true) "a" (Sample.request_a true) []
              (Sample.reply "x" false) (bridge_inv_exec _ _ bridge_inv_init)
              eq_refl eq_refl eq_refl) as (ev & H1 & H2 & H3 & _).
  exists ev. split_and!; assumption.
Defined.

(** ** What [wait_for_completion] returns *)

Lemma event_wait_sound ev remaining sched st :
  Forall (λ e : Z * Op, 0 ≤ e.1) sched →
  ∃ ran, sched = ran ++ (event_wait ev remaining sched st).1.2 ∧
         (event_wait ev remaining sched st).2 = exec ran.*2 st ∧
         (event_wait ev remaining sched st).1.1 =
           event_is_set ev (event_wait ev remaining sched st).2 ∧
         (ran = [] ∨ duration ran ≤ remaining).
Proof.
  revert st remaining. induction sched as [|[dt op] sched IH]; intros st remaining Hpos.
  - exists []. simpl. destruct (event_is_set ev st) eqn:E; simpl; rewrite ?E; auto.
  - simpl. destruct (event_is_set ev st) eqn:E.
    { exists []. simpl. rewrite E. auto. }
    destruct (Z.ltb_spec remaining dt).
    { exists []. simpl. rewrite E. auto. }
    apply Forall_cons in Hpos as [Hdt Hpos]. simpl in Hdt.
    destruct (IH (step op st).2 (remaining - dt) Hpos) as (ran & Happ & Hst & Hflag & Hdur).
    exists ((dt, op) :: ran). split_and!.
    + simpl. by rewrite <- Happ.
    + done.
    + done.
    + right. change (duration ((dt, op) :: ran)) with (dt + duration ran).
      destruct Hdur as [-> | Hdur]; [unfold duration; simpl; lia | lia].
Qed.

Lemma wait_for_completion_sound_aux st id ev timeout_arg sched :
  completion_events st !! id = Some ev →
  Forall (λ e : Z * Op, 0 ≤ e.1) sched →
  ∃ ran,
    sched = ran ++ (wait_for_completion id timeout_arg sched st).1.2 ∧
    (wait_for_completion id timeout_arg sched st).2 = exec ran.*2 st ∧
    (wait_for_completion id timeout_arg sched st).1.1 =
      event_is_set ev (wait_for_completion id timeout_arg sched st).2 ∧
    (ran = [] ∨
     duration ran ≤ seconds (actual_timeout timeout_arg (ODict.get id (requests st)))).
Proof.
  intros Hev Hpos. unfold wait_for_completion. rewrite Hev.
  by apply event_wait_sound.
Qed.

(** X7: with a timeout [Event.wait] blocks on (positive and at most
    [TIMEOUT_MAX]), [wait_for_completion] on a registered id does not
    raise; it lets the other threads run a prefix of their schedule that
    lasts no longer than the timeout in force, and returns the flag of the
    completion event as it is then: [True] exactly when the event is set. *)
Theorem wait_for_completion_sound st id ev timeout_arg sched :
  completion_events st !! id = Some ev →
  0 < actual_timeout timeout_arg (ODict.get id (requests st)) ≤ TIMEOUT_MAX →
  Forall (λ e : Z * Op, 0 ≤ e.1) sched →
  wait_raises id timeout_arg st = false ∧
  ∃ ran,
    sched = ran ++ (wait_for_completion id timeout_arg sched st).1.2 ∧
    (wait_for_completion id timeout_arg sched st).2 = exec ran.*2 st ∧
    (wait_for_completion id timeout_arg sched st).1.1 =
      event_is_set ev (wait_for_completion id timeout_arg sched st).2 ∧
    (ran = [] ∨
     duration ran ≤ seconds (actual_timeout timeout_arg (ODict.get id (requests st)))).
Proof.
  intros Hev [_ Hmax] Hpos. split; [by apply wait_raises_bound|].
  by apply wait_for_completion_sound_aux.
Qed.

Lemma wait_for_completion_sound_witness :
  ∃ ran,
    [(1000000, OpGetPending); (2000000, OpSubmit "a" (Sample.reply "hi" true));
     (1, OpGetStatus)]
    = ran ++ (wait_for_completion "a" (Some 5)
                [(1000000, OpGetPending); (2000000, OpSubmit "a" (Sample.reply "hi" true));
                 (1, OpGetStatus)] (Sample.one false)).1.2 ∧
    (ran = [] ∨ duration ran ≤ seconds 5).
Proof.
  destruct (wait_for_completion_sound (Sample.one false) "a" 0%nat (Some 5)
              [(1000000, OpGetPending); (2000000, OpSubmit "a" (Sample.reply "hi" true));
               (1, OpGetStatus)]) as (_ & ran & H1 & _ & _ & H4).
  - reflexivity.
  - vm_compute. split; [reflexivity | discriminate].
  - repeat constructor; simpl; lia.
  - exists ran. split; assumption.
Defined.

(** X8: once [submit_response] has signalled completion (any response to
    a non-streaming request, a final or failed response to a streaming
    one), [wait_for_completion] returns [True] at once, whatever the
    timeout, without letting any other operation run first. *)
Theorem wait_after_completion_is_immediate st id request response timeout_arg sched :
  bridge_inv st →
  ODict.get id (requests st) = Some request →
  stream request = false ∨
  (is_Some (response_queues st !! id) ∧
   resp_done response || Py.opt_truthy (resp_error response) = true) →
  wait_for_completion id timeout_arg sched (submit_response id response st).2 =
    (true, sched, (submit_response id response st).2).
Proof.
  intros Hinv Hreq Hcase. unfold wait_for_completion.
  rewrite submit_response_events.
  destruct (stream request) eqn:Hstream.
  - destruct Hcase as [?|[[q Hq] Hfinal]]; [done|].
    destruct (submit_streaming_live st id request q response Hinv Hreq Hstream Hq)
      as (ev & Hev & _ & _ & _ & Hend).
    rewrite Hfinal in Hend. destruct Hend as [Hset _].
    rewrite Hev. by apply event_wait_set.
  - destruct (submit_non_streaming_live st id request response Hinv Hreq Hstream)
      as (ev & st' & Hev & Hst' & _ & Hset & _).
    rewrite Hst'. simpl. rewrite Hev. by apply event_wait_set.
Qed.

Lemma wait_after_completion_is_immediate_witness :
  wait_for_completion "a" (Some 1) [(5, OpCancel "a")]
    (submit_response "a" (Sample.reply "hi" false) (Sample.one false)).2 =
  (true, [(5, OpCancel "a")],
   (submit_response "a" (Sample.reply "hi" false) (Sample.one false)).2).
Proof.
  apply (wait_after_completion_is_immediate (Sample.one false) "a"
           (Sample.request_a false)).
  - apply bridge_inv_exec, bridge_inv_init.
  - reflexivity.
  - left. reflexivity.
Defined.

(** An operation that is neither a submission to [id] nor a creation of
    [id], and after which [id] is still registered, leaves the event of
    [id] in place with its flag unchanged. *)
Lemma step_no_wake op st id ev :
  bridge_inv st → completion_events st !! id = Some ev →
  submits_to id op = false → creates id op = false → live id (step op st).2 →
  completion_events (step op st).2 !! id = Some ev ∧
  event_is_set ev (step op st).2 = event_is_set ev st.
Proof.
  intros Hinv Hev Hsub Hcr Hlive.
  destruct (mentions id op) eqn:Hm.
  - destruct op as [uuid now d| |id'|id' r|id'|id'|id'| |now]; simpl in *;
      try done; apply bool_decide_eq_true in Hm as ->.
    + by rewrite bool_decide_eq_true_2 in Hcr.
    + unfold mark_processing in *. by destruct (ODict.mem id (requests st)).
    + by rewrite bool_decide_eq_true_2 in Hsub.
    + unfold get_response in *. by destruct (response_queues st !! id) as [[|? ?]|].
    + unfold get_final_response in *.
      destruct (response_queues st !! id) as [[|? q]|]; try done. simpl in Hlive.
      by destruct (remove_request_gone id (with_queues (insert id q) st)) as [? _].
    + unfold cancel_request in *. destruct (ODict.mem id (requests st)); [|done].
      by destruct (remove_request_gone id st) as [? _].
  - destruct (step_frame op st id Hinv Hm Hlive) as (_ & _ & -> & Hflag). auto.
Qed.

Lemma exec_no_wake ops st id ev :
  bridge_inv st → completion_events st !! id = Some ev →
  Forall (λ op, submits_to id op = false) ops →
  live_throughout id ops st = true →
  completion_events (exec ops st) !! id = Some ev ∧
  event_is_set ev (exec ops st) = event_is_set ev st.
Proof.
  revert st. induction ops as [|op ops IH]; intros st Hinv Hev Hsub Hlive; [done|].
  apply Forall_cons in Hsub as [Hop Hsub]. simpl in Hlive.
  apply andb_prop in Hlive as [Hlive Hrest]. apply andb_prop in Hlive as [Hcr Hnow].
  apply negb_true_iff in Hcr. apply odict_mem_true in Hnow.
  destruct (step_no_wake op st id ev Hinv Hev Hop Hcr Hnow) as [Hev' Hflag].
  rewrite exec_cons.
  destruct (IH (step op st).2 (bridge_inv_step op st Hinv) Hev' Hsub Hrest) as [-> ->].
  done.
Qed.

Lemma live_throughout_app id ops1 ops2 st :
  live_throughout id (ops1 ++ ops2) st =
  live_throughout id ops1 st && live_throughout id ops2 (exec ops1 st).
Proof.
  revert st. induction ops1 as [|op ops1 IH]; intros st; [done|].
  rewrite exec_cons. change ((op :: ops1) ++ ops2) with (op :: (ops1 ++ ops2)).
  cbn [live_throughout]. rewrite IH. by rewrite !andb_assoc.
Qed.

(** X9: a caller waiting on a request whose event is not set, with a
    timeout of at most [TIMEOUT_MAX] (so that the call does not raise),
    gets [False] if, while it waits, the request stays registered and
    nobody submits a response to it, whatever else the other threads do. *)
Theorem wait_without_submission_returns_false st id ev timeout_arg sched :
  bridge_inv st → completion_events st !! id = Some ev →
  event_is_set ev st = false →
  actual_timeout timeout_arg (ODict.get id (requests st)) ≤ TIMEOUT_MAX →
  Forall (λ e : Z * Op, submits_to id e.2 = false ∧ 0 ≤ e.1) sched →
  live_throughout id sched.*2 st = true →
  wait_raises id timeout_arg st = false ∧
  (wait_for_completion id timeout_arg sched st).1.1 = false.
Proof.
  intros Hinv Hev Hunset Hmax Hsched Hlive. split; [by apply wait_raises_bound|].
  destruct (wait_for_completion_sound_aux st id ev timeout_arg sched Hev)
    as (ran & Happ & Hst & -> & _).
  { eapply Forall_impl; [exact Hsched|]. by intros [dt op] [_ ?]. }
  rewrite Hst. rewrite Happ, fmap_app, live_throughout_app in Hlive.
  apply andb_prop in Hlive as [Hlive _].
  rewrite Happ in Hsched. apply Forall_app in Hsched as [Hran _].
  destruct (exec_no_wake ran.*2 st id ev Hinv Hev) as [_ ->]; [|done|done].
  apply Forall_fmap. eapply Forall_impl; [exact Hran|]. by intros [dt op] [? _].
Qed.

Lemma wait_without_submission_returns_false_witness :
  wait_raises "a" (Some 30) (Sample.one false) = false ∧
  (wait_for_completion "a" (Some 30)
     [(1000000, OpMarkProcessing "a"); (1000000, OpCreate "b" 9 (Sample.data true));
      (1000000, OpSubmit "b" (Sample.reply "x" true)); (1000000, OpGetResponse "a")]
     (Sample.one false)).1.1 = false.
Proof.
  apply (wait_without_submission_returns_false (Sample.one false) "a" 0%nat).
  - apply bridge_inv_exec, bridge_inv_init.
  - reflexivity.
  - reflexivity.
  - vm_compute. discriminate.
  - repeat constructor; simpl; lia.
  - reflexivity.
Defined.

(** ** The streaming adapter: exits, frames, order, termination *)

Lemma stream_iteration_state req t_loop t_act v st :
  (stream_iteration req t_loop t_act v st).2 = st ∨
  (stream_iteration req t_loop t_act v st).2 = (get_response (request_id req) st).2.
Proof.
  unfold stream_iteration. destruct (Z.leb _ _); [by left|].
  destruct (get_response (request_id req) st) as [[response|] st1]; simpl.
  - destruct (Py.opt_truthy _); [by right|].
    destruct (Py.str_truthy _); [|by right]. destruct (resp_done response); by right.
  - destruct (Z.ltb _ _); [by right|]. destruct (negb _); by right.
Qed.

Lemma bridge_inv_stream_iteration req t_loop t_act v st :
  bridge_inv st → bridge_inv (stream_iteration req t_loop t_act v st).2.
Proof.
  intros Hinv. destruct (stream_iteration_state req t_loop t_act v st) as [-> | ->];
    [done | by apply bridge_inv_get_response].
Qed.

Lemma stream_loop_exit req sched clock v st frames st' :
  bridge_inv st →
  stream_loop req sched clock v st = Some (frames, st') →
  bridge_inv st' ∧ ¬ live (request_id req) st'.
Proof.
  revert clock v st frames. induction sched as [|tk sched IH];
    intros clock v st frames Hinv; simpl; [done|].
  pose proof (bridge_inv_stream_iteration req
    (clock + Z.of_nat (lag_loop tk))
    (clock + Z.of_nat (lag_loop tk) + Z.of_nat (lag_act tk)) v
    (exec (others tk) st) (bridge_inv_exec _ _ Hinv)) as Hinv1.
  destruct (stream_iteration _ _ _ _ _) as [[[fs ctl] v1] st1]. simpl in Hinv1.
  destruct ctl.
  - intros [= <- <-]. split; [by apply bridge_inv_cancel | apply cancel_request_dead].
  - destruct (stream_loop req sched _ v1 st1) as [[more st2]|] eqn:E; [|done].
    intros [= <- <-]. by eapply IH.
  - destruct (stream_loop req sched _ v1 st1) as [[more st2]|] eqn:E; [|done].
    intros [= <- <-]. by eapply IH.
Qed.

(** X10: whichever way the generator ends (final response, upstream
    error, timeout, inactivity, vanished request), and whatever the other
    threads did meanwhile, its request has been cancelled: the id is in
    none of the three dictionaries when it returns. *)
Theorem stream_always_cancels req start sched st frames st' :
  bridge_inv st →
  stream_webllm_response req start sched st = Some (frames, st') →
  ¬ live (request_id req) st' ∧
  response_queues st' !! request_id req = None ∧
  completion_events st' !! request_id req = None.
Proof.
  intros Hinv Hrun. unfold stream_webllm_response in Hrun.
  destruct (stream_loop_exit _ _ _ _ _ _ _ Hinv Hrun) as [Hinv' Hdead].
  destruct (not_live_absent st' _ Hinv' Hdead) as (_ & ? & ?). done.
Qed.

Lemma stream_always_cancels_witness :
  ∃ frames st',
    stream_webllm_response (Sample.request_a true) 0 (Sample.quiet 56) Sample.scenario_b
      = Some (frames, st') ∧
    ¬ live "a" st'.
Proof.
  destruct (stream_webllm_response (Sample.request_a true) 0 (Sample.quiet 56)
              Sample.scenario_b) as [[frames st']|] eqn:E; [|by vm_compute in E].
  exists frames, st'. split; [done|].
  apply (stream_always_cancels (Sample.request_a true) 0 (Sample.quiet 56)
           Sample.scenario_b frames st'); [|done].
  apply bridge_inv_exec, bridge_inv_init.
Defined.

(** The frames of one pass: a pass that goes on yields nothing or one
    delta; a pass that stops yields nothing, an error, or a delta
    followed by the usage if there is one. *)
Lemma stream_iteration_frames req t_loop t_act v st :
  let '(frames, ctl, _, _) := stream_iteration req t_loop t_act v st in
  match ctl with
  | Break =>
      frames = [] ∨ (∃ e, frames = [FrameError e]) ∨
      (∃ text usage, text ≠ "" ∧ frames = FrameDelta text :: usage_frames usage)
  | Continue | Sleep =>
      frames = [] ∨ ∃ text, text ≠ "" ∧ frames = [FrameDelta text]
  end.
Proof.
  unfold stream_iteration. destruct (Z.leb _ _); [right; left; eauto|].
  destruct (get_response (request_id req) st) as [[response|] st1].
  - destruct (Py.opt_truthy _); [right; left; eauto|].
    destruct (resp_content response) as [|c text] eqn:Hc; simpl; [by left|].
    destruct (resp_done response).
    + right; right. exists (String c text), (resp_usage response). split; [done|].
      unfold usage_frames. by destruct (resp_usage response).
    + right. by exists (String c text).
  - destruct (Z.ltb _ _); [right; left; eauto|]. destruct (negb _); by left.
Qed.

Lemma stream_loop_frames req sched clock v st frames st' :
  stream_loop req sched clock v st = Some (frames, st') →
  ∃ texts tail,
    frames = (FrameDelta <$> texts) ++ tail ∧
    Forall (λ text, text ≠ "") texts ∧
    (tail = [] ∨ (∃ e, tail = [FrameError e]) ∨
     (∃ text usage, text ≠ "" ∧ tail = FrameDelta text :: usage_frames usage)).
Proof.
  revert clock v st frames st'. induction sched as [|tk sched IH];
    intros clock v st frames st'; simpl; [done|].
  pose proof (stream_iteration_frames req
    (clock + Z.of_nat (lag_loop tk))
    (clock + Z.of_nat (lag_loop tk) + Z.of_nat (lag_act tk)) v
    (exec (others tk) st)) as Hshape.
  destruct (stream_iteration _ _ _ _ _) as [[[fs ctl] v1] st1].
  assert (∀ clock', stream_loop req sched clock' v1 st1 = None ∨
    ∃ more st2, stream_loop req sched clock' v1 st1 = Some (more, st2) ∧
      ∃ texts tail, more = (FrameDelta <$> texts) ++ tail ∧
        Forall (λ text, text ≠ "") texts ∧
        (tail = [] ∨ (∃ e, tail = [FrameError e]) ∨
         (∃ text usage, text ≠ "" ∧ tail = FrameDelta text :: usage_frames usage)))
    as Hrec.
  { intros clock'. destruct (stream_loop req sched clock' v1 st1) as [[more st2]|] eqn:E;
      [right | by left]. exists more, st2. split; [done|]. exact (IH _ _ _ _ _ E). }
  assert (∀ more texts (tail : list Frame),
    (fs = [] ∨ ∃ text, text ≠ "" ∧ fs = [FrameDelta text]) →
    more = (FrameDelta <$> texts) ++ tail → Forall (λ text, text ≠ "") texts →
    ∃ texts', fs ++ more = (FrameDelta <$> texts') ++ tail ∧
              Forall (λ text, text ≠ "") texts') as Hglue.
  { intros more texts tail [-> | (text & Ht & ->)] -> Hall.
    - by exists texts.
    - exists (text :: texts). split; [done | by constructor]. }
  destruct ctl.
  - intros [= <- <-]. exists [], fs. split_and!; [done | constructor | done].
  - destruct (Hrec (clock + Z.of_nat (lag_loop tk) + Z.of_nat (lag_act tk)))
      as [-> | (more & st2 & -> & texts & tail & Hmore & Hall & Htail)]; [done|].
    intros [= <- <-].
    destruct (Hglue more texts tail Hshape Hmore Hall) as (texts' & -> & Hall').
    by exists texts', tail.
  - destruct (Hrec (clock + Z.of_nat (lag_loop tk) + Z.of_nat (lag_act tk) + poll_interval))
      as [-> | (more & st2 & -> & texts & tail & Hmore & Hall & Htail)]; [done|].
    intros [= <- <-].
    destruct (Hglue more texts tail Hshape Hmore Hall) as (texts' & -> & Hall').
    by exists texts', tail.
Qed.

(** X11: the frames of a finished stream are content frames with
    non-empty text, followed by nothing, by one error frame, or by one
    last content frame with the usage frame if the usage is not empty: an
    error frame is always the last frame and a usage frame always follows
    a content frame. *)
Theorem stream_frames_shape req start sched st frames st' :
  stream_webllm_response req start sched st = Some (frames, st') →
  ∃ texts tail,
    frames = (FrameDelta <$> texts) ++ tail ∧
    Forall (λ text, text ≠ "") texts ∧
    (tail = [] ∨ (∃ e, tail = [FrameError e]) ∨
     (∃ text usage, text ≠ "" ∧ tail = FrameDelta text :: usage_frames usage)).
Proof. apply stream_loop_frames. Qed.

Lemma stream_frames_shape_witness :
  ∃ texts tail,
    [FrameDelta "x"; FrameDelta "y"; FrameDelta "z"; FrameError (Inactive 10200000)]
      = (FrameDelta <$> texts) ++ tail ∧
    Forall (λ text, text ≠ "") texts.
Proof.
  destruct (stream_webllm_response (Sample.request_a true) 0 (Sample.quiet 56)
              Sample.scenario_b) as [[frames st']|] eqn:E; [|by vm_compute in E].
  destruct (stream_frames_shape _ _ _ _ _ _ E) as (texts & tail & H1 & H2 & _).
  assert (frames = [FrameDelta "x"; FrameDelta "y"; FrameDelta "z";
                    FrameError (Inactive 10200000)]) as <-.
  { vm_compute in E. by injection E as <- _. }
  clear E. exists texts, tail. split; [exact H1 | exact H2].
Defined.

Lemma quiet_tick_others tk : quiet_tick tk = true → others tk = [].
Proof. unfold quiet_tick. by destruct (others tk). Qed.

Lemma total_lag_nonneg sched : 0 ≤ total_lag sched.
Proof. induction sched as [|tk sched IH]; unfold total_lag in *; simpl; lia. Qed.

Lemma stream_loop_in_order req parts :
  ∀ last sched clock v st,
    response_queues st !! request_id req = Some (parts ++ [last]) →
    forallb partial parts = true → closing last = true →
    forallb quiet_tick sched = true →
    (length parts < length sched)%nat →
    clock + total_lag sched - start_time v < seconds (timeout req) →
    ∃ st', stream_loop req sched clock v st =
             Some ((FrameDelta ∘ resp_content <$> parts)
                     ++ FrameDelta (resp_content last) :: usage_frames (resp_usage last),
                   st') ∧
           ¬ live (request_id req) st'.
Proof.
  induction parts as [|r parts IH]; intros last sched clock v st Hq Hparts Hlast Hquiet
    Hlen Htime; (destruct sched as [|tk sched]; [simpl in Hlen; lia|]);
    simpl in Hquiet; apply andb_prop in Hquiet as [Htk Hquiet];
    pose proof (total_lag_nonneg sched) as Hlag;
    change (total_lag (tk :: sched))
      with (Z.of_nat (lag_loop tk) + Z.of_nat (lag_act tk) + total_lag sched) in Htime;
    cbn [stream_loop]; rewrite (quiet_tick_others tk Htk);
    change (exec [] st) with st; unfold stream_iteration;
    (destruct (Z.leb_spec (seconds (timeout req))
                (clock + Z.of_nat (lag_loop tk) - start_time v)); [lia|]);
    unfold get_response; rewrite Hq; cbn [app].
  - unfold closing in Hlast.
    apply andb_prop in Hlast as [Hlast Hdone]. apply andb_prop in Hlast as [Herr Hcontent].
    apply negb_true_iff in Herr. rewrite Herr, Hcontent, Hdone.
    eexists. split; [|apply cancel_request_dead].
    simpl. unfold usage_frames. by destruct (resp_usage last).
  - simpl in Hparts. apply andb_prop in Hparts as [Hr Hparts]. unfold partial in Hr.
    apply andb_prop in Hr as [Hr Hdone]. apply andb_prop in Hr as [Herr Hcontent].
    apply negb_true_iff in Herr, Hdone. rewrite Herr, Hcontent, Hdone.
    destruct (IH last sched
                (clock + Z.of_nat (lag_loop tk) + Z.of_nat (lag_act tk))
                (mkVars (start_time v)
                   (clock + Z.of_nat (lag_loop tk) + Z.of_nat (lag_act tk)) true)
                (with_queues (insert (request_id req) (parts ++ [last])) st))
      as (st' & -> & Hdead); try done.
    + simpl. by rewrite lookup_insert_eq.
    + simpl in Hlen. lia.
    + simpl. lia.
    + by exists st'.
Qed.

(** X12: if the queue of a streaming request holds partial responses
    (text, no error, [done] unset) followed by a final one with text, and
    the consumer is left alone and reads them before the request times
    out, then the stream is the texts in the order of the queue followed
    by the usage frame if the usage is not empty, and the request is
    cancelled at the end. *)
Theorem stream_delivers_in_order req start sched st parts last :
  response_queues st !! request_id req = Some (parts ++ [last]) →
  forallb partial parts = true → closing last = true →
  forallb quiet_tick sched = true →
  (length parts < length sched)%nat →
  total_lag sched < seconds (timeout req) →
  ∃ st', stream_webllm_response req start sched st =
           Some ((FrameDelta ∘ resp_content <$> parts)
                   ++ FrameDelta (resp_content last) :: usage_frames (resp_usage last),
                 st') ∧
         ¬ live (request_id req) st'.
Proof.
  intros Hq Hparts Hlast Hquiet Hlen Htime. unfold stream_webllm_response.
  apply stream_loop_in_order; try done. simpl. lia.
Qed.

Lemma stream_delivers_in_order_witness :
  ∃ st',
    stream_webllm_response (Sample.request_a true) 0 (Sample.quiet 3)
      (exec [OpSubmit "a" (Sample.reply "x" false); OpSubmit "a" (Sample.reply "y" false);
             OpSubmit "a" (Sample.reply "z" true)] (Sample.one true))
    = Some ((FrameDelta ∘ resp_content <$> [Sample.reply "x" false; Sample.reply "y" false])
              ++ FrameDelta (resp_content (Sample.reply "z" true))
                 :: usage_frames (resp_usage (Sample.reply "z" true)), st') ∧
    ¬ live "a" st'.
Proof.
  apply (stream_delivers_in_order (Sample.request_a true) 0 (Sample.quiet 3));
    reflexivity || (vm_compute; lia).
Defined.

(** Once the queue is drained and nobody else acts, each pass either
    stops or sleeps, and the sleeps add up to the inactivity limit. *)
Lemma stream_loop_drained req (k : nat) :
  ∀ sched clock v st,
    response_queues st !! request_id req = None ∨
    response_queues st !! request_id req = Some [] →
    forallb quiet_tick sched = true →
    (k < length sched)%nat →
    seconds 30 < clock - last_activity v + Z.of_nat k * poll_interval →
    is_Some (stream_loop req sched clock v st).
Proof.
  induction k as [|k IH]; intros sched clock v st Hq Hquiet Hlen Htime;
    (destruct sched as [|tk sched]; [simpl in Hlen; lia|]);
    simpl in Hquiet; apply andb_prop in Hquiet as [Htk Hquiet];
    cbn [stream_loop]; rewrite (quiet_tick_others tk Htk);
    change (exec [] st) with st; unfold stream_iteration;
    (destruct (Z.leb _ _); [eauto|]);
    (assert (get_response (request_id req) st = (None, st)) as ->
       by (unfold get_response; by destruct Hq as [-> | ->]));
    set (limit := seconds (if negb (response_received v) then 30 else 10));
    (assert (limit ≤ seconds 30)
       by (unfold limit, seconds; destruct (negb _); lia));
    (destruct (Z.ltb_spec limit
       (clock + Z.of_nat (lag_loop tk) + Z.of_nat (lag_act tk) - last_activity v));
       [eauto|]);
    (destruct (negb (ODict.mem (request_id req) (requests st))); [eauto|]).
  - lia.
  - destruct (IH sched
                (clock + Z.of_nat (lag_loop tk) + Z.of_nat (lag_act tk) + poll_interval)
                v st) as [[more st'] ->];
      [done | done | simpl in Hlen; lia | lia | eauto].
Qed.

Lemma stream_loop_terminates req q :
  ∀ sched clock v st,
    response_queues st !! request_id req = Some q →
    forallb quiet_tick sched = true →
    (length q + 152 ≤ length sched)%nat →
    last_activity v ≤ clock →
    is_Some (stream_loop req sched clock v st).
Proof.
  induction q as [|r q IH]; intros sched clock v st Hq Hquiet Hlen Hclock.
  - apply (stream_loop_drained req 151); [by right | done | simpl in Hlen; lia |].
    unfold seconds, poll_interval. lia.
  - destruct sched as [|tk sched]; [simpl in Hlen; lia|].
    simpl in Hquiet. apply andb_prop in Hquiet as [Htk Hquiet].
    cbn [stream_loop]. rewrite (quiet_tick_others tk Htk).
    change (exec [] st) with st. unfold stream_iteration.
    destruct (Z.leb _ _); [eauto|].
    unfold get_response. rewrite Hq.
    destruct (Py.opt_truthy _); [eauto|].
    destruct (IH sched
                (clock + Z.of_nat (lag_loop tk) + Z.of_nat (lag_act tk))
                (mkVars (start_time v)
                   (clock + Z.of_nat (lag_loop tk) + Z.of_nat (lag_act tk)) true)
                (with_queues (insert (request_id req) q) st))
      as [[more st'] Hrec]; try done.
    + simpl. by rewrite lookup_insert_eq.
    + simpl in Hlen. lia.
    + destruct (Py.str_truthy _); [destruct (resp_done r); [eauto|] |];
        rewrite Hrec; eauto.
Qed.

(** X13: left alone, the generator always ends.  With [n] responses
    queued (none if there is no queue) it stops within [n + 152] passes:
    each pass either consumes a response or sleeps for the poll interval,
    and 151 sleeps exceed the longest inactivity limit. *)
Theorem stream_terminates_when_alone req start sched st :
  forallb quiet_tick sched = true →
  (length (default [] (response_queues st !! request_id req)) + 152 ≤ length sched)%nat →
  is_Some (stream_webllm_response req start sched st).
Proof.
  intros Hquiet Hlen. unfold stream_webllm_response.
  destruct (response_queues st !! request_id req) as [q|] eqn:Hq.
  - apply (stream_loop_terminates req q); simpl; done.
  - apply (stream_loop_drained req 151); [by left | done | simpl in Hlen; lia |].
    simpl. unfold seconds, poll_interval. lia.
Qed.

Lemma stream_terminates_when_alone_witness :
  is_Some (stream_webllm_response (Sample.request_a true) 0 (Sample.quiet 156)
             Sample.scenario_b).
Proof.
  apply (stream_terminates_when_alone (Sample.request_a true) 0 (Sample.quiet 156)
           Sample.scenario_b).
  - reflexivity.
  - vm_compute. lia.
Defined.

(** ** The blocking views *)

Lemma webllm_generate_eq data uuid now sched gap st :
  webllm_generate data uuid now sched gap st =
  if negb (Py.opt_truthy (g_system_role data)) || negb (Py.opt_truthy (g_question data))
  then (JsonError (MsgText "system_role and question are required") HTTP_400_BAD_REQUEST, st)
  else if wait_raises uuid (Some (default DEFAULT_WEBLLM_TIMEOUT (g_timeout data)))
            (create_request uuid now (generate_data data) st).2
  then (JsonError (MsgOverflow "WebLLM generation failed: ")
                  HTTP_500_INTERNAL_SERVER_ERROR,
        (create_request uuid now (generate_data data) st).2)
  else await_reply uuid (Some (default DEFAULT_WEBLLM_TIMEOUT (g_timeout data)))
         (JsonError (MsgTimeoutAfter (default DEFAULT_WEBLLM_TIMEOUT (g_timeout data)))
                    HTTP_408_REQUEST_TIMEOUT)
         sched gap (create_request uuid now (generate_data data) st).2.
Proof.
  unfold webllm_generate, await_reply, generate_data.
  assert (∀ o, Py.str_truthy (default "" o) = Py.opt_truthy o) as Htruthy
    by (by intros [?|]).
  rewrite !Htruthy. destruct (_ || _); [done|].
  rewrite create_request_eq. simpl. done.
Qed.

Lemma webllm_chat_view_eq data uuid now sched gap start ticks st r st1 :
  webllm_chat data uuid now st = (Registered r, st1) →
  default false (p_stream data) = false →
  webllm_chat_view data uuid now sched gap start ticks st =
  if wait_raises uuid (Some (timeout r)) st1
  then (JsonError (MsgOverflow "") HTTP_500_INTERNAL_SERVER_ERROR, st1)
  else await_reply uuid (Some (timeout r))
         (JsonError (MsgTimedOutAfter (timeout r)) HTTP_504_GATEWAY_TIMEOUT) sched gap st1.
Proof.
  intros Hreg Hstream. unfold webllm_chat_view, await_reply. rewrite Hreg, Hstream.
  assert (request_id r = uuid) as ->; [|done].
  unfold webllm_chat in Hreg. destruct (negb _); [done|].
  rewrite create_request_eq in Hreg. by injection Hreg as <- _.
Qed.

(** The registry right after a non-streaming request with a fresh id has
    been created. *)
Lemma created_non_streaming st uuid now d :
  bridge_inv st → ¬ live uuid st → default false (d_stream d) = false →
  bridge_inv (create_request uuid now d st).2 ∧
  ODict.get uuid (requests (create_request uuid now d st).2) =
    Some (build_request uuid now d) ∧
  response_queues (create_request uuid now d st).2 !! uuid = None ∧
  ∃ ev, completion_events (create_request uuid now d st).2 !! uuid = Some ev ∧
        event_is_set ev (create_request uuid now d st).2 = false.
Proof.
  intros Hinv Hfresh Hstream.
  pose proof (bridge_inv_create uuid now d st Hinv) as Hinv1.
  rewrite create_request_eq in *. simpl in *.
  destruct (bridge_inv_make_room st Hinv) as [Hinv' _].
  assert (¬ live uuid (make_room st)) as Hfresh'.
  { unfold make_room. destruct (Nat.leb _ _); [|done].
    destruct (Py.min_by _ _) as [[oid ?]|]; [|done].
    unfold live. rewrite remove_request_requests, odict_keys_pop, list_elem_of_filter.
    tauto. }
  rewrite register_requests, register_queues, register_events, build_request_id.
  rewrite odict_get_set, decide_True, lookup_insert_eq by done.
  split_and!; try done.
  - simpl. rewrite Hstream. apply eq_None_not_Some. by intros ?%(inv_queues _ Hinv').
  - eexists. split; [done|]. unfold event_is_set. rewrite register_heap.
    by rewrite list_lookup_middle.
Qed.

Lemma dead_stays_dead op st id :
  creates id op = false → ¬ live id st → ¬ live id (step op st).2.
Proof.
  intros Hcr. unfold live. rewrite <- !odict_get_None_keys. intros Hnone.
  destruct (step_request_cases op st id Hcr) as [?|[E|[[_ E]|(? & _ & E)]]];
    [done | | |]; rewrite E, Hnone; done.
Qed.

Lemma exec_dead_stays_dead ops st id :
  Forall (λ op, creates id op = false) ops → ¬ live id st → ¬ live id (exec ops st).
Proof.
  revert st. induction ops as [|op ops IH]; intros st Hops Hdead; [done|].
  apply Forall_cons in Hops as [Hop Hops]. rewrite exec_cons.
  by apply IH, dead_stays_dead.
Qed.

Lemma step_keeps_stream op st id r :
  creates id op = false → ODict.get id (requests st) = Some r →
  live id (step op st).2 →
  ∃ r', ODict.get id (requests (step op st).2) = Some r' ∧ stream r' = stream r.
Proof.
  intros Hcr Hr Hlive. apply odict_get_Some_keys in Hlive as [r' Hr'].
  exists r'. split; [done|].
  destruct (step_request_cases op st id Hcr) as [E|[E|[[_ E]|(? & _ & E)]]];
    rewrite E, ?Hr in Hr'; try done; cbn in Hr'; by injection Hr' as <-.
Qed.

Lemma exec_keeps_stream ops st id r :
  ODict.get id (requests st) = Some r → live_throughout id ops st = true →
  ∃ r', ODict.get id (requests (exec ops st)) = Some r' ∧ stream r' = stream r.
Proof.
  revert st r. induction ops as [|op ops IH]; intros st r Hr Hlive; [by exists r|].
  simpl in Hlive. apply andb_prop in Hlive as [Hlive Hrest].
  apply andb_prop in Hlive as [Hcr Hnow].
  apply negb_true_iff in Hcr. apply odict_mem_true in Hnow.
  destruct (step_keeps_stream op st id r Hcr Hr Hnow) as (r1 & Hr1 & <-).
  rewrite exec_cons. by apply IH.
Qed.

(** A waiter sleeps through operations that leave its event unset. *)
Lemma event_wait_skip ev pre rest remaining st :
  event_is_set ev (exec pre.*2 st) = false →
  Forall (λ e : Z * Op, 0 ≤ e.1) pre →
  duration pre ≤ remaining →
  event_wait ev remaining (pre ++ rest) st =
  event_wait ev (remaining - duration pre) rest (exec pre.*2 st).
Proof.
  revert st remaining. induction pre as [|[dt op] pre IH];
    intros st remaining Hunset Hpos Hdur.
  - simpl. f_equal. unfold duration. simpl. lia.
  - apply Forall_cons in Hpos as [Hdt Hpos]. simpl in Hdt.
    pose proof (duration_nonneg pre Hpos) as Hrest.
    change (duration ((dt, op) :: pre)) with (dt + duration pre) in *.
    rewrite fmap_cons, exec_cons in Hunset. cbn [snd] in Hunset.
    assert (event_is_set ev st = false) as Hnow.
    { destruct (event_is_set ev st) eqn:E; [|done].
      pose proof (heap_le_step op st) as [_ H1].
      pose proof (heap_le_exec pre.*2 (step op st).2) as [_ H2].
      rewrite (H2 ev (H1 ev E)) in Hunset. done. }
    cbn [app event_wait]. rewrite Hnow.
    destruct (Z.ltb_spec remaining dt); [lia|].
    rewrite IH by (done || lia). rewrite fmap_cons, exec_cons. cbn [snd].
    f_equal. lia.
Qed.

Lemma wait_no_submission st id ev timeout_arg sched :
  bridge_inv st → completion_events st !! id = Some ev →
  event_is_set ev st = false →
  Forall (λ e : Z * Op, submits_to id e.2 = false ∧ 0 ≤ e.1) sched →
  live_throughout id sched.*2 st = true →
  ∃ ran, (wait_for_completion id timeout_arg sched st).1.1 = false ∧
         (wait_for_completion id timeout_arg sched st).2 = exec ran st.
Proof.
  intros Hinv Hev Hunset Hsched Hlive.
  destruct (wait_for_completion_sound_aux st id ev timeout_arg sched Hev)
    as (ran & Happ & Hst & -> & _).
  { eapply Forall_impl; [exact Hsched|]. by intros [dt op] [_ ?]. }
  exists ran.*2. split; [|done].
  rewrite Hst. rewrite Happ, fmap_app, live_throughout_app in Hlive.
  apply andb_prop in Hlive as [Hlive _].
  rewrite Happ in Hsched. apply Forall_app in Hsched as [Hran _].
  destruct (exec_no_wake ran.*2 st id ev Hinv Hev) as [_ ->]; [|done|done].
  apply Forall_fmap. eapply Forall_impl; [exact Hran|]. by intros [dt op] [? _].
Qed.

Lemma webllm_chat_registered data uuid now st :
  Py.str_truthy (strip (posted_content data)) = true →
  webllm_chat data uuid now st =
    (Registered (build_request uuid now (chat_data data)),
     (create_request uuid now (chat_data data) st).2).
Proof.
  intros Htruthy. unfold webllm_chat. fold (posted_content data).
  rewrite Htruthy. simpl. fold (chat_data data). by rewrite create_request_eq.
Qed.

(** X14: a request registered by [webllm_chat] always carries one of the
    allowed models (the posted one if it is allowed, the default
    otherwise), the type "chat", the posted streaming flag and timeout
    (or their defaults), and the id drawn for it. *)
Theorem webllm_chat_sanitises_model data uuid now st r st' :
  webllm_chat data uuid now st = (Registered r, st') →
  model r ∈ allowed_models ∧
  (default "Llama-3.2-1B-Instruct" (p_model data) ∈ allowed_models →
   model r = default "Llama-3.2-1B-Instruct" (p_model data)) ∧
  (default "Llama-3.2-1B-Instruct" (p_model data) ∉ allowed_models →
   model r = "Llama-3.2-1B-Instruct") ∧
  request_type r = "chat" ∧ request_id r = uuid ∧ status r = pending ∧
  stream r = default false (p_stream data) ∧
  timeout r = default DEFAULT_WEBLLM_TIMEOUT (p_timeout data) ∧
  st' = (create_request uuid now (chat_data data) st).2.
Proof.
  intros Hreg.
  destruct (Py.str_truthy (strip (posted_content data))) eqn:Htruthy.
  - rewrite (webllm_chat_registered _ _ _ _ Htruthy) in Hreg.
    injection Hreg as <- <-. simpl. split_and!; try done.
    + case_bool_decide; [done|]. unfold allowed_models. left.
    + intros Hin. by rewrite bool_decide_eq_true_2.
    + intros Hnin. by rewrite bool_decide_eq_false_2.
  - unfold webllm_chat in Hreg. fold (posted_content data) in Hreg.
    by rewrite Htruthy in Hreg.
Qed.

Lemma webllm_chat_sanitises_model_witness :
  ∃ r st',
    webllm_chat (mkPost (Some "hello") None None (Some "gpt-4") None None None None None)
      "u" 7 init = (Registered r, st') ∧
    model r = "Llama-3.2-1B-Instruct".
Proof.
  destruct (webllm_chat (mkPost (Some "hello") None None (Some "gpt-4") None None None
                           None None) "u" 7 init) as [[e c|r] st'] eqn:E;
    [by vm_compute in E|].
  exists r, st'. split; [done|].
  destruct (webllm_chat_sanitises_model _ _ _ _ _ _ E) as (_ & _ & H & _).
  apply H. vm_compute. intros Hin. repeat (apply elem_of_cons in Hin as [?|Hin]; [done|]).
  inversion Hin.
Defined.

(** ** The blocking tail of the views *)

Lemma await_reply_timeout id timeout_arg on_timeout sched gap st ev :
  bridge_inv st → completion_events st !! id = Some ev →
  event_is_set ev st = false →
  Forall (λ e : Z * Op, submits_to id e.2 = false ∧ 0 ≤ e.1) sched →
  live_throughout id sched.*2 st = true →
  (await_reply id timeout_arg on_timeout sched gap st).1 = on_timeout ∧
  ¬ live id (await_reply id timeout_arg on_timeout sched gap st).2.
Proof.
  intros Hinv Hev Hunset Hsched Hlive.
  destruct (wait_no_submission st id ev timeout_arg sched Hinv Hev Hunset Hsched Hlive)
    as (ran & Hb & _).
  unfold await_reply.
  destruct (wait_for_completion id timeout_arg sched st) as [[b rest] st2].
  simpl in Hb. subst b. simpl. split; [done | apply cancel_request_dead].
Qed.

Lemma await_reply_answered id timeout_arg on_timeout pre dt response post gap st
    request ev :
  bridge_inv st →
  ODict.get id (requests st) = Some request → stream request = false →
  completion_events st !! id = Some ev → event_is_set ev st = false →
  Forall (λ e : Z * Op, submits_to id e.2 = false ∧ 0 ≤ e.1) pre →
  live_throughout id pre.*2 st = true →
  0 ≤ dt →
  duration pre + dt ≤ seconds (actual_timeout timeout_arg (Some request)) →
  Forall (λ op, mentions id op = false) gap →
  live_throughout id gap (exec (pre.*2 ++ [OpSubmit id response]) st) = true →
  (await_reply id timeout_arg on_timeout (pre ++ (dt, OpSubmit id response) :: post)
     gap st).1 = reply_of_final (Some response) ∧
  ¬ live id (await_reply id timeout_arg on_timeout
               (pre ++ (dt, OpSubmit id response) :: post) gap st).2.
Proof.
  intros Hinv Hreq Hstream Hev Hunset Hpre Hlive Hdt Hdur Hgap Hglive.
  assert (Forall (λ op, submits_to id op = false) pre.*2) as Hpre1.
  { apply Forall_fmap. eapply Forall_impl; [exact Hpre|]. by intros [? ?] [? _]. }
  assert (Forall (λ e : Z * Op, 0 ≤ e.1) pre) as Hpre2.
  { eapply Forall_impl; [exact Hpre|]. by intros [? ?] [_ ?]. }
  destruct (exec_no_wake pre.*2 st id ev Hinv Hev Hpre1 Hlive) as [Hev1 Hflag1].
  destruct (exec_keeps_stream pre.*2 st id request Hreq Hlive) as (r1 & Hr1 & Hs1).
  pose proof (bridge_inv_exec pre.*2 st Hinv) as Hinv1.
  rewrite Hstream in Hs1.
  destruct (submit_non_streaming_live _ id r1 response Hinv1 Hr1 Hs1)
    as (ev' & st2 & Hev' & Hsub & Hq2 & Hset2 & _).
  rewrite Hev1 in Hev'. injection Hev' as <-.
  rewrite exec_app in Hglive. change (exec [OpSubmit id response] (exec pre.*2 st))
    with (let '(b, st') := submit_response id response (exec pre.*2 st)
          in (OutBool b, st')).2 in Hglive.
  rewrite Hsub in Hglive. simpl in Hglive.
  assert (bridge_inv st2) as Hinv2.
  { pose proof (bridge_inv_submit id response _ Hinv1) as H. by rewrite Hsub in H. }
  destruct (exec_frame gap st2 id Hinv2 Hgap Hglive) as (_ & Hq3 & _).
  unfold await_reply, wait_for_completion. rewrite Hev, Hreq.
  rewrite event_wait_skip; [| by rewrite Hflag1 | done | lia].
  cbn [event_wait]. rewrite Hflag1, Hunset.
  destruct (Z.ltb_spec (seconds (actual_timeout timeout_arg (Some request)) - duration pre)
              dt); [lia|].
  simpl. rewrite Hsub. simpl. rewrite (event_wait_set _ _ _ _ Hset2).
  unfold get_final_response. rewrite Hq3, Hq2. simpl.
  split; [done | apply remove_request_gone].
Qed.

Lemma await_reply_removed id timeout_arg on_timeout pre dt op post gap st ev request :
  bridge_inv st →
  ODict.get id (requests st) = Some request →
  completion_events st !! id = Some ev → event_is_set ev st = false →
  Forall (λ e : Z * Op, submits_to id e.2 = false ∧ 0 ≤ e.1) pre →
  live_throughout id pre.*2 st = true →
  0 ≤ dt →
  duration pre + dt ≤ seconds (actual_timeout timeout_arg (Some request)) →
  creates id op = false →
  completion_events (exec (pre.*2 ++ [op]) st) !! id = None →
  Forall (λ op, creates id op = false) gap →
  await_reply id timeout_arg on_timeout (pre ++ (dt, op) :: post) gap st =
    (JsonContent "" [], exec gap (exec (pre.*2 ++ [op]) st)) ∧
  ¬ live id (exec gap (exec (pre.*2 ++ [op]) st)).
Proof.
  intros Hinv Hreq Hev Hunset Hpre Hlive Hdt Hdur Hcr Hgone Hgap.
  assert (Forall (λ op, submits_to id op = false) pre.*2) as Hpre1.
  { apply Forall_fmap. eapply Forall_impl; [exact Hpre|]. by intros [? ?] [? _]. }
  assert (Forall (λ e : Z * Op, 0 ≤ e.1) pre) as Hpre2.
  { eapply Forall_impl; [exact Hpre|]. by intros [? ?] [_ ?]. }
  destruct (exec_no_wake pre.*2 st id ev Hinv Hev Hpre1 Hlive) as [Hev1 Hflag1].
  pose proof (bridge_inv_exec pre.*2 st Hinv) as Hinv1.
  rewrite exec_app in *. change (exec [op] (exec pre.*2 st))
    with (step op (exec pre.*2 st)).2 in *.
  destruct (step_event_cases op _ id ev Hinv1 Hev1 Hcr) as [E|[_ Hset]];
    [congruence|].
  pose proof (bridge_inv_step op _ Hinv1) as Hinv2.
  assert (¬ live id (step op (exec pre.*2 st)).2) as Hdead.
  { intros [? ?]%(inv_events _ Hinv2). congruence. }
  pose proof (exec_dead_stays_dead gap _ id Hgap Hdead) as Hdead'.
  split; [|done].
  destruct (not_live_absent _ id (bridge_inv_exec gap _ Hinv2) Hdead') as (_ & Hq & _).
  unfold await_reply, wait_for_completion. rewrite Hev, Hreq.
  rewrite event_wait_skip; [| by rewrite Hflag1 | done | lia].
  cbn [event_wait]. rewrite Hflag1, Hunset.
  destruct (Z.ltb_spec (seconds (actual_timeout timeout_arg (Some request)) - duration pre)
              dt); [lia|].
  rewrite (event_wait_set _ _ _ _ Hset).
  unfold get_final_response. by rewrite Hq.
Qed.

(** ** A view never leaves its request behind *)

Lemma signalled_step op st id :
  bridge_inv st → signalled_has_response id st → steals id op = false →
  signalled_has_response id (step op st).2.
Proof.
  intros Hinv HJ Hsteal request' ev' Hget' Hstream' Hev' Hset'.
  assert (live id (step op st).2) as Hlive by (apply odict_get_Some_keys; eauto).
  destruct (mentions id op) eqn:Hm.
  - destruct op as [uuid now d| |id'|id' r|id'|id'|id'| |now]; simpl in *;
      try done; apply bool_decide_eq_true in Hm as ->.
    + by rewrite bool_decide_eq_true_2 in Hsteal.
    + unfold mark_processing in *.
      destruct (ODict.mem id (requests st)); [|by eapply HJ].
      simpl in *. rewrite odict_get_alter, decide_True in Hget' by done.
      destruct (ODict.get id (requests st)) as [r0|] eqn:E0; [|done].
      cbn in Hget'. injection Hget' as <-. by eapply (HJ r0).
    + destruct (ODict.get id (requests st)) as [r0|] eqn:E0.
      * destruct (stream r0) eqn:Hs0.
        -- exfalso.
           destruct (step_keeps_stream (OpSubmit id r) st id r0 eq_refl E0 Hlive)
             as (r1 & Hr1 & Hs1).
           simpl in Hr1. rewrite Hget' in Hr1. injection Hr1 as <-. congruence.
        -- destruct (submit_non_streaming_live st id r0 r Hinv E0 Hs0)
             as (ev0 & st1 & _ & Hsub & Hq & _).
           rewrite Hsub. simpl. by exists r.
      * unfold submit_response in Hget'. rewrite E0 in Hget'. simpl in Hget'. congruence.
    + by rewrite bool_decide_eq_true_2 in Hsteal.
    + unfold get_final_response in *.
      destruct (response_queues st !! id) as [[|? q]|] eqn:Eq; simpl in *.
      * destruct (HJ _ _ Hget' Hstream' Hev' Hset') as [r0 Hr0]. congruence.
      * by destruct (remove_request_gone id (with_queues (insert id q) st)) as [? _].
      * destruct (HJ _ _ Hget' Hstream' Hev' Hset') as [r0 Hr0]. congruence.
    + unfold cancel_request in *. destruct (ODict.mem id (requests st)); [|by eapply HJ].
      by destruct (remove_request_gone id st) as [? _].
  - destruct (step_frame op st id Hinv Hm Hlive) as (E1 & E2 & E3 & E4).
    rewrite E1 in Hget'. rewrite E3 in Hev'. rewrite (E4 ev' Hev') in Hset'.
    rewrite E2. by eapply HJ.
Qed.

Lemma signalled_exec ops st id :
  bridge_inv st → signalled_has_response id st →
  Forall (λ op, steals id op = false) ops →
  signalled_has_response id (exec ops st).
Proof.
  revert st. induction ops as [|op ops IH]; intros st Hinv HJ Hops; [done|].
  apply Forall_cons in Hops as [Hop Hops]. rewrite exec_cons.
  apply IH; [by apply bridge_inv_step | by apply signalled_step | done].
Qed.

Lemma steals_creates id op : steals id op = false → creates id op = false.
Proof. by destruct op. Qed.

Lemma exec_stream_if_live ops st id r r' :
  Forall (λ op, creates id op = false) ops →
  ODict.get id (requests st) = Some r →
  ODict.get id (requests (exec ops st)) = Some r' → stream r' = stream r.
Proof.
  revert st r. induction ops as [|op ops IH]; intros st r Hops Hr Hr'.
  - simpl in Hr'. congruence.
  - apply Forall_cons in Hops as [Hop Hops]. rewrite exec_cons in Hr'.
    destruct (ODict.get id (requests (step op st).2)) as [r1|] eqn:E1.
    + assert (live id (step op st).2) as Hlive by (apply odict_get_Some_keys; eauto).
      destruct (step_keeps_stream op st id r Hop Hr Hlive) as (r1' & Hr1 & <-).
      rewrite E1 in Hr1. injection Hr1 as <-. by eapply IH.
    + exfalso. apply odict_get_None_keys in E1.
      apply (exec_dead_stays_dead ops (step op st).2 id Hops E1).
      apply odict_get_Some_keys. eauto.
Qed.

Lemma exec_event_same_or_gone ops st id ev :
  bridge_inv st → completion_events st !! id = Some ev →
  Forall (λ op, creates id op = false) ops →
  completion_events (exec ops st) !! id = Some ev ∨
  completion_events (exec ops st) !! id = None.
Proof.
  revert st. induction ops as [|op ops IH]; intros st Hinv Hev Hops; [by left|].
  apply Forall_cons in Hops as [Hop Hops]. rewrite exec_cons.
  pose proof (bridge_inv_step op st Hinv) as Hinv1.
  destruct (step_event_cases op st id ev Hinv Hev Hop) as [Hev'|[Hnone _]].
  - by apply IH.
  - right. apply eq_None_not_Some.
    intros Hsome%(inv_events _ (bridge_inv_exec ops _ Hinv1)).
    apply (exec_dead_stays_dead ops (step op st).2 id Hops); [|done].
    intros [? ?]%(inv_events _ Hinv1). congruence.
Qed.

Lemma await_reply_no_leak id timeout_arg on_timeout sched gap st request ev :
  bridge_inv st → signalled_has_response id st →
  ODict.get id (requests st) = Some request → stream request = false →
  completion_events st !! id = Some ev →
  Forall (λ e : Z * Op, steals id e.2 = false ∧ 0 ≤ e.1) sched →
  Forall (λ op, steals id op = false) gap →
  ¬ live id (await_reply id timeout_arg on_timeout sched gap st).2.
Proof.
  intros Hinv HJ Hreq Hstream Hev Hsched Hgap.
  destruct (wait_for_completion_sound_aux st id ev timeout_arg sched Hev)
    as (ran & Happ & Hst & Hb & _).
  { eapply Forall_impl; [exact Hsched|]. by intros [? ?] [_ ?]. }
  unfold await_reply.
  destruct (wait_for_completion id timeout_arg sched st) as [[b rest] st2].
  simpl in *. destruct b; [|apply cancel_request_dead].
  assert (Forall (λ op, steals id op = false) (ran.*2 ++ gap)) as Hall.
  { apply Forall_app. split; [|done]. rewrite Happ in Hsched.
    apply Forall_app in Hsched as [Hran _]. apply Forall_fmap.
    eapply Forall_impl; [exact Hran|]. by intros [? ?] [? _]. }
  assert (Forall (λ op, creates id op = false) (ran.*2 ++ gap)) as Hall'.
  { eapply Forall_impl; [exact Hall|]. intros op. apply steals_creates. }
  assert (exec gap st2 = exec (ran.*2 ++ gap) st) as Hg by by rewrite exec_app, Hst.
  pose proof (bridge_inv_exec (ran.*2 ++ gap) st Hinv) as Hinvg.
  pose proof (signalled_exec (ran.*2 ++ gap) st id Hinv HJ Hall) as HJg.
  rewrite <- Hg in Hinvg, HJg.
  unfold get_final_response.
  destruct (response_queues (exec gap st2) !! id) as [[|r q]|] eqn:Eq; simpl;
    try apply remove_request_gone.
  - intros [rg Hrg]%odict_get_Some_keys.
    assert (stream rg = false) as Hsg.
    { rewrite <- Hstream. rewrite Hg in Hrg. by eapply exec_stream_if_live. }
    destruct (exec_event_same_or_gone (ran.*2 ++ gap) st id ev Hinv Hev Hall')
      as [Hevg|Hevg]; rewrite <- Hg in Hevg.
    + destruct (HJg rg ev Hrg Hsg Hevg) as [? ?]; [|congruence].
      apply heap_le_exec. by rewrite <- Hb.
    + assert (is_Some (completion_events (exec gap st2) !! id)) as [? ?]; [|congruence].
      apply (inv_events _ Hinvg). apply odict_get_Some_keys. eauto.
  - intros [rg Hrg]%odict_get_Some_keys.
    assert (stream rg = false) as Hsg.
    { rewrite <- Hstream. rewrite Hg in Hrg. by eapply exec_stream_if_live. }
    destruct (exec_event_same_or_gone (ran.*2 ++ gap) st id ev Hinv Hev Hall')
      as [Hevg|Hevg]; rewrite <- Hg in Hevg.
    + destruct (HJg rg ev Hrg Hsg Hevg) as [? ?]; [|congruence].
      apply heap_le_exec. by rewrite <- Hb.
    + assert (is_Some (completion_events (exec gap st2) !! id)) as [? ?]; [|congruence].
      apply (inv_events _ Hinvg). apply odict_get_Some_keys. eauto.
Qed.

Lemma created_signalled st uuid now d :
  bridge_inv st → ¬ live uuid st → default false (d_stream d) = false →
  signalled_has_response uuid (create_request uuid now d st).2.
Proof.
  intros Hinv Hfresh Hstream request ev' _ _ Hev' Hset'.
  destruct (created_non_streaming st uuid now d Hinv Hfresh Hstream)
    as (_ & _ & _ & ev & Hev & Hunset).
  congruence.
Qed.

Lemma generate_timeout data uuid now :
  actual_timeout (Some (default DEFAULT_WEBLLM_TIMEOUT (g_timeout data)))
                 (Some (build_request uuid now (generate_data data)))
  = default DEFAULT_WEBLLM_TIMEOUT (g_timeout data).
Proof. unfold actual_timeout. simpl. by destruct (_ =? 0). Qed.

Lemma chat_timeout data uuid now :
  actual_timeout (Some (timeout (build_request uuid now (chat_data data))))
                 (Some (build_request uuid now (chat_data data)))
  = default DEFAULT_WEBLLM_TIMEOUT (p_timeout data).
Proof. unfold actual_timeout. simpl. by destruct (_ =? 0). Qed.

(** The wait of [webllm_generate] does not raise when the posted timeout
    is at most [TIMEOUT_MAX], and raises when it is larger. *)
Lemma generate_wait_raises data uuid now st :
  bridge_inv st → ¬ live uuid st →
  wait_raises uuid (Some (default DEFAULT_WEBLLM_TIMEOUT (g_timeout data)))
    (create_request uuid now (generate_data data) st).2
  = Z.ltb TIMEOUT_MAX (default DEFAULT_WEBLLM_TIMEOUT (g_timeout data)).
Proof.
  intros Hinv Hfresh.
  destruct (created_non_streaming st uuid now (generate_data data) Hinv Hfresh eq_refl)
    as (_ & Hreq & _ & ev & Hev & Hunset).
  unfold wait_raises. by rewrite Hev, Hunset, Hreq, generate_timeout.
Qed.

Lemma chat_wait_raises data uuid now st :
  bridge_inv st → ¬ live uuid st → default false (p_stream data) = false →
  wait_raises uuid (Some (timeout (build_request uuid now (chat_data data))))
    (create_request uuid now (chat_data data) st).2
  = Z.ltb TIMEOUT_MAX (default DEFAULT_WEBLLM_TIMEOUT (p_timeout data)).
Proof.
  intros Hinv Hfresh Hstream.
  destruct (created_non_streaming st uuid now (chat_data data) Hinv Hfresh Hstream)
    as (_ & Hreq & _ & ev & Hev & Hunset).
  unfold wait_raises. by rewrite Hev, Hunset, Hreq, chat_timeout.
Qed.

Lemma ltb_bound (t : Z) : t ≤ TIMEOUT_MAX → Z.ltb TIMEOUT_MAX t = false.
Proof. intros. by apply Z.ltb_ge. Qed.

(** X15: with a timeout of at most [TIMEOUT_MAX], [webllm_generate] does
    not leave its request registered.  Whether it rejects the call, times
    out, or is woken by a response or by a removal, when it returns the id
    it drew is in no dictionary, as long as no other thread calls
    [get_response] on that id or draws it again. *)
Theorem webllm_generate_releases_request data uuid now sched gap st :
  bridge_inv st → ¬ live uuid st →
  default DEFAULT_WEBLLM_TIMEOUT (g_timeout data) ≤ TIMEOUT_MAX →
  Forall (λ e : Z * Op, steals uuid e.2 = false ∧ 0 ≤ e.1) sched →
  Forall (λ op, steals uuid op = false) gap →
  ¬ live uuid (webllm_generate data uuid now sched gap st).2.
Proof.
  intros Hinv Hfresh Hmax Hsched Hgap. rewrite webllm_generate_eq.
  destruct (_ || _); [done|].
  rewrite generate_wait_raises, ltb_bound by done.
  destruct (created_non_streaming st uuid now (generate_data data) Hinv Hfresh eq_refl)
    as (Hinv1 & Hreq & _ & ev & Hev & _).
  eapply await_reply_no_leak; try eassumption; [|done].
  by apply created_signalled.
Qed.

Lemma webllm_generate_releases_request_witness :
  ¬ live "g"
    (webllm_generate (mkGenerate (Some "be brief") (Some "why?") None None None (Some 5))
       "g" 3
       [(1000000, OpMarkProcessing "g"); (1000000, OpSubmit "g" (Sample.reply "so" true))]
       [OpGetStatus] (Sample.one true)).2.
Proof.
  apply (webllm_generate_releases_request
           (mkGenerate (Some "be brief") (Some "why?") None None None (Some 5)) "g" 3
           [(1000000, OpMarkProcessing "g"); (1000000, OpSubmit "g" (Sample.reply "so" true))]
           [OpGetStatus] (Sample.one true)).
  - apply bridge_inv_exec, bridge_inv_init.
  - unfold live. rewrite <- odict_get_None_keys. reflexivity.
  - vm_compute. discriminate.
  - repeat constructor; simpl; lia.
  - repeat constructor.
Defined.

(** X16: [webllm_chat] releases its request too, when it streams or when
    its timeout is at most [TIMEOUT_MAX].  When the view has answered (a
    rejection, a JSON reply after the blocking wait, or a stream whose
    generator has ended), the id it drew is registered no more, as long as
    no other thread calls [get_response] on a non-streaming request of
    that id or draws the id again. *)
Theorem webllm_chat_view_releases_request data uuid now sched gap start ticks st :
  bridge_inv st → ¬ live uuid st →
  default false (p_stream data) = true ∨
  default DEFAULT_WEBLLM_TIMEOUT (p_timeout data) ≤ TIMEOUT_MAX →
  Forall (λ e : Z * Op, steals uuid e.2 = false ∧ 0 ≤ e.1) sched →
  Forall (λ op, steals uuid op = false) gap →
  (webllm_chat_view data uuid now sched gap start ticks st).1 ≠ StreamingOpen →
  ¬ live uuid (webllm_chat_view data uuid now sched gap start ticks st).2.
Proof.
  intros Hinv Hfresh Hmax Hsched Hgap Hended.
  destruct (Py.str_truthy (strip (posted_content data))) eqn:Htruthy.
  - pose proof (webllm_chat_registered data uuid now st Htruthy) as Hreg.
    destruct (default false (p_stream data)) eqn:Hstream.
    + unfold webllm_chat_view in *. rewrite Hreg, Hstream in *.
      pose proof (bridge_inv_create uuid now (chat_data data) st Hinv) as Hinv1.
      unfold stream_webllm_response in *.
      destruct (stream_loop _ ticks start _ _) as [[frames st2]|] eqn:E; [|done].
      simpl. by destruct (stream_loop_exit _ _ _ _ _ _ _ Hinv1 E) as [_ ?].
    + rewrite (webllm_chat_view_eq _ _ _ _ _ _ _ _ _ _ Hreg Hstream).
      destruct Hmax as [Hmax|Hmax]; [congruence|].
      rewrite chat_wait_raises, ltb_bound by done.
      destruct (created_non_streaming st uuid now (chat_data data) Hinv Hfresh Hstream)
        as (Hinv1 & Hreq & _ & ev & Hev & _).
      apply (await_reply_no_leak uuid _ _ sched gap _
               (build_request uuid now (chat_data data)) ev Hinv1);
        [by apply created_signalled | exact Hreq | exact Hstream | exact Hev
        | exact Hsched | exact Hgap].
  - unfold webllm_chat_view, webllm_chat. fold (posted_content data).
    by rewrite Htruthy.
Qed.

Lemma webllm_chat_view_releases_request_witness :
  ¬ live "c"
    (webllm_chat_view (mkPost (Some "hi") None None None None None (Some true) None None)
       "c" 3 [] [] 0
       (mkTick [OpSubmit "c" (mkResponse "c" "yes" None [] true 1)] 0 0 :: Sample.quiet 1)
       (Sample.one false)).2.
Proof.
  apply (webllm_chat_view_releases_request
           (mkPost (Some "hi") None None None None None (Some true) None None) "c" 3 [] [] 0
           (mkTick [OpSubmit "c" (mkResponse "c" "yes" None [] true 1)] 0 0 :: Sample.quiet 1)
           (Sample.one false)).
  - apply bridge_inv_exec, bridge_inv_init.
  - unfold live. rewrite <- odict_get_None_keys. reflexivity.
  - left. reflexivity.
  - constructor.
  - constructor.
  - vm_compute. discriminate.
Defined.

(** X17: if both fields are given, the timeout is one [Event.wait]
    blocks on (positive and at most [TIMEOUT_MAX]), and the worker submits
    a response to the request of [webllm_generate] before the timeout,
    while the request is still registered, the view answers with that
    response: status 500 and the error text if the response carries an
    error, otherwise the content and usage of the response; and the
    request is registered no more. *)
Theorem webllm_generate_answers data uuid now pre dt response post gap st :
  bridge_inv st → ¬ live uuid st →
  Py.opt_truthy (g_system_role data) = true →
  Py.opt_truthy (g_question data) = true →
  0 < default DEFAULT_WEBLLM_TIMEOUT (g_timeout data) ≤ TIMEOUT_MAX →
  Forall (λ e : Z * Op, submits_to uuid e.2 = false ∧ 0 ≤ e.1) pre →
  live_throughout uuid pre.*2 (create_request uuid now (generate_data data) st).2 = true →
  0 ≤ dt →
  duration pre + dt ≤ seconds (default DEFAULT_WEBLLM_TIMEOUT (g_timeout data)) →
  Forall (λ op, mentions uuid op = false) gap →
  live_throughout uuid gap
    (exec (pre.*2 ++ [OpSubmit uuid response])
          (create_request uuid now (generate_data data) st).2) = true →
  (webllm_generate data uuid now (pre ++ (dt, OpSubmit uuid response) :: post) gap st).1 =
    (if Py.opt_truthy (resp_error response)
     then JsonError (MsgText (default "" (resp_error response)))
                    HTTP_500_INTERNAL_SERVER_ERROR
     else JsonContent (resp_content response) (resp_usage response)) ∧
  ¬ live uuid
    (webllm_generate data uuid now (pre ++ (dt, OpSubmit uuid response) :: post) gap st).2.
Proof.
  intros Hinv Hfresh Hrole Hquestion [_ Hmax] Hpre Hlive Hdt Hdur Hgap Hglive.
  rewrite webllm_generate_eq, Hrole, Hquestion. simpl.
  rewrite generate_wait_raises, ltb_bound by done.
  destruct (created_non_streaming st uuid now (generate_data data) Hinv Hfresh eq_refl)
    as (Hinv1 & Hreq & _ & ev & Hev & Hunset).
  eapply await_reply_answered; try eassumption; [done|].
  by rewrite generate_timeout.
Qed.

Lemma webllm_generate_answers_witness :
  (webllm_generate (mkGenerate (Some "be brief") (Some "why?") None None None (Some 5))
     "g" 3
     ([(1000000, OpMarkProcessing "g")]
        ++ (1000000, OpSubmit "g" (mkResponse "g" "so" None [("total_tokens", 5)] true 9))
        :: [])
     [OpGetStatus] (Sample.one true)).1
  = JsonContent "so" [("total_tokens", 5)].
Proof.
  apply (webllm_generate_answers
           (mkGenerate (Some "be brief") (Some "why?") None None None (Some 5)) "g" 3
           [(1000000, OpMarkProcessing "g")] 1000000
           (mkResponse "g" "so" None [("total_tokens", 5)] true 9) [] [OpGetStatus]
           (Sample.one true)).
  - apply bridge_inv_exec, bridge_inv_init.
  - unfold live. rewrite <- odict_get_None_keys. reflexivity.
  - reflexivity.
  - reflexivity.
  - vm_compute. split; [reflexivity | discriminate].
  - repeat constructor; simpl; lia.
  - reflexivity.
  - lia.
  - vm_compute. discriminate.
  - repeat constructor.
  - reflexivity.
Defined.

(** X18: if both fields are given, the timeout is at most
    [TIMEOUT_MAX], nobody submits a response to the request of
    [webllm_generate] and the request stays registered, the view answers
    with status 408 and the timeout it was given, and cancels the
    request. *)
Theorem webllm_generate_times_out data uuid now sched gap st :
  bridge_inv st → ¬ live uuid st →
  Py.opt_truthy (g_system_role data) = true →
  Py.opt_truthy (g_question data) = true →
  default DEFAULT_WEBLLM_TIMEOUT (g_timeout data) ≤ TIMEOUT_MAX →
  Forall (λ e : Z * Op, submits_to uuid e.2 = false ∧ 0 ≤ e.1) sched →
  live_throughout uuid sched.*2 (create_request uuid now (generate_data data) st).2 = true →
  (webllm_generate data uuid now sched gap st).1 =
    JsonError (MsgTimeoutAfter (default DEFAULT_WEBLLM_TIMEOUT (g_timeout data)))
              HTTP_408_REQUEST_TIMEOUT ∧
  ¬ live uuid (webllm_generate data uuid now sched gap st).2.
Proof.
  intros Hinv Hfresh Hrole Hquestion Hmax Hsched Hlive.
  rewrite webllm_generate_eq, Hrole, Hquestion. simpl.
  rewrite generate_wait_raises, ltb_bound by done.
  destruct (created_non_streaming st uuid now (generate_data data) Hinv Hfresh eq_refl)
    as (Hinv1 & Hreq & _ & ev & Hev & Hunset).
  by eapply await_reply_timeout.
Qed.

Lemma webllm_generate_times_out_witness :
  (webllm_generate (mkGenerate (Some "be brief") (Some "why?") None None None (Some 1))
     "g" 3 [(500000, OpGetPending); (700000, OpMarkProcessing "g")] [] (Sample.one true)).1
  = JsonError (MsgTimeoutAfter 1) HTTP_408_REQUEST_TIMEOUT.
Proof.
  apply (webllm_generate_times_out
           (mkGenerate (Some "be brief") (Some "why?") None None None (Some 1)) "g" 3
           [(500000, OpGetPending); (700000, OpMarkProcessing "g")] [] (Sample.one true)).
  - apply bridge_inv_exec, bridge_inv_init.
  - unfold live. rewrite <- odict_get_None_keys. reflexivity.
  - reflexivity.
  - reflexivity.
  - vm_compute. discriminate.
  - repeat constructor; simpl; lia.
  - reflexivity.
Defined.

(** X19: the same for [webllm_chat] without streaming: with a timeout of
    at most [TIMEOUT_MAX] and no submission to its request, which stays
    registered, the view answers with status 504 and the timeout of the
    request, and cancels it. *)
Theorem webllm_chat_view_times_out data uuid now sched gap start ticks st :
  bridge_inv st → ¬ live uuid st →
  Py.str_truthy (strip (posted_content data)) = true →
  default false (p_stream data) = false →
  default DEFAULT_WEBLLM_TIMEOUT (p_timeout data) ≤ TIMEOUT_MAX →
  Forall (λ e : Z * Op, submits_to uuid e.2 = false ∧ 0 ≤ e.1) sched →
  live_throughout uuid sched.*2 (create_request uuid now (chat_data data) st).2 = true →
  (webllm_chat_view data uuid now sched gap start ticks st).1 =
    JsonError (MsgTimedOutAfter (default DEFAULT_WEBLLM_TIMEOUT (p_timeout data)))
              HTTP_504_GATEWAY_TIMEOUT ∧
  ¬ live uuid (webllm_chat_view data uuid now sched gap start ticks st).2.
Proof.
  intros Hinv Hfresh Htruthy Hstream Hmax Hsched Hlive.
  rewrite (webllm_chat_view_eq _ _ _ _ _ _ _ _ _ _
             (webllm_chat_registered data uuid now st Htruthy) Hstream).
  rewrite chat_wait_raises, ltb_bound by done.
  destruct (created_non_streaming st uuid now (chat_data data) Hinv Hfresh Hstream)
    as (Hinv1 & Hreq & _ & ev & Hev & Hunset).
  by eapply await_reply_timeout.
Qed.

Lemma webllm_chat_view_times_out_witness :
  (webllm_chat_view (Sample.post (Some " hello ")) "c" 3 [(500000, OpGetPending)] [] 0 []
     (Sample.one true)).1
  = JsonError (MsgTimedOutAfter 180) HTTP_504_GATEWAY_TIMEOUT.
Proof.
  apply (webllm_chat_view_times_out (Sample.post (Some " hello ")) "c" 3
           [(500000, OpGetPending)] [] 0 [] (Sample.one true)).
  - apply bridge_inv_exec, bridge_inv_init.
  - unfold live. rewrite <- odict_get_None_keys. reflexivity.
  - reflexivity.
  - reflexivity.
  - vm_compute. discriminate.
  - repeat constructor; simpl; lia.
  - reflexivity.
Defined.

(** X20: if the timeout is one [Event.wait] blocks on (positive and at
    most [TIMEOUT_MAX]) and the request of [webllm_generate] is removed
    while the view waits (cancelled, evicted to make room for a newer
    request, or expired), the view is woken and, finding no response,
    answers with status 200, an empty content and an empty usage. *)
Theorem webllm_generate_answers_empty_when_removed
    data uuid now pre dt op post gap st :
  bridge_inv st → ¬ live uuid st →
  Py.opt_truthy (g_system_role data) = true →
  Py.opt_truthy (g_question data) = true →
  0 < default DEFAULT_WEBLLM_TIMEOUT (g_timeout data) ≤ TIMEOUT_MAX →
  Forall (λ e : Z * Op, submits_to uuid e.2 = false ∧ 0 ≤ e.1) pre →
  live_throughout uuid pre.*2 (create_request uuid now (generate_data data) st).2 = true →
  0 ≤ dt →
  duration pre + dt ≤ seconds (default DEFAULT_WEBLLM_TIMEOUT (g_timeout data)) →
  creates uuid op = false →
  completion_events
    (exec (pre.*2 ++ [op]) (create_request uuid now (generate_data data) st).2) !! uuid
    = None →
  Forall (λ op, creates uuid op = false) gap →
  (webllm_generate data uuid now (pre ++ (dt, op) :: post) gap st).1 = JsonContent "" [].
Proof.
  intros Hinv Hfresh Hrole Hquestion [_ Hmax] Hpre Hlive Hdt Hdur Hcr Hgone Hgap.
  rewrite webllm_generate_eq, Hrole, Hquestion. simpl.
  rewrite generate_wait_raises, ltb_bound by done.
  destruct (created_non_streaming st uuid now (generate_data data) Hinv Hfresh eq_refl)
    as (Hinv1 & Hreq & _ & ev & Hev & Hunset).
  destruct (await_reply_removed uuid
              (Some (default DEFAULT_WEBLLM_TIMEOUT (g_timeout data)))
              (JsonError (MsgTimeoutAfter (default DEFAULT_WEBLLM_TIMEOUT (g_timeout data)))
                         HTTP_408_REQUEST_TIMEOUT)
              pre dt op post gap _ ev _ Hinv1 Hreq Hev Hunset Hpre Hlive Hdt)
    as [-> _]; try done.
  by rewrite generate_timeout.
Qed.

Lemma webllm_generate_answers_empty_when_removed_witness :
  (webllm_generate (mkGenerate (Some "be brief") (Some "why?") None None None (Some 5))
     "g" 3 ([] ++ (1000000, OpCleanup 700000000) :: []) [] (Sample.one true)).1
  = JsonContent "" [].
Proof.
  apply (webllm_generate_answers_empty_when_removed
           (mkGenerate (Some "be brief") (Some "why?") None None None (Some 5)) "g" 3
           [] 1000000 (OpCleanup 700000000) [] [] (Sample.one true)).
  - apply bridge_inv_exec, bridge_inv_init.
  - unfold live. rewrite <- odict_get_None_keys. reflexivity.
  - reflexivity.
  - reflexivity.
  - vm_compute. split; [reflexivity | discriminate].
  - constructor.
  - reflexivity.
  - lia.
  - vm_compute. discriminate.
  - reflexivity.
  - reflexivity.
  - constructor.
Defined.

(** ** A timeout above [TIMEOUT_MAX] *)

(** X24: when both fields are given and the posted timeout exceeds
    [TIMEOUT_MAX], [webllm_generate] registers its request, the wait raises
    [OverflowError], and the view answers with status 500 and the text of
    the exception after "WebLLM generation failed: ".  Nothing cancels the
    request: it stays registered, pending, with its completion event. *)
Theorem webllm_generate_overflow_keeps_request data uuid now sched gap st :
  bridge_inv st → ¬ live uuid st →
  Py.opt_truthy (g_system_role data) = true →
  Py.opt_truthy (g_question data) = true →
  TIMEOUT_MAX < default DEFAULT_WEBLLM_TIMEOUT (g_timeout data) →
  webllm_generate data uuid now sched gap st =
    (JsonError (MsgOverflow "WebLLM generation failed: ") HTTP_500_INTERNAL_SERVER_ERROR,
     (create_request uuid now (generate_data data) st).2) ∧
  live uuid (webllm_generate data uuid now sched gap st).2 ∧
  ODict.get uuid (requests (webllm_generate data uuid now sched gap st).2) =
    Some (build_request uuid now (generate_data data)) ∧
  is_Some (completion_events (webllm_generate data uuid now sched gap st).2 !! uuid).
Proof.
  intros Hinv Hfresh Hrole Hquestion Hmax.
  rewrite webllm_generate_eq, Hrole, Hquestion. simpl.
  rewrite generate_wait_raises by done.
  destruct (Z.ltb_spec TIMEOUT_MAX (default DEFAULT_WEBLLM_TIMEOUT (g_timeout data)));
    [|lia].
  destruct (created_non_streaming st uuid now (generate_data data) Hinv Hfresh eq_refl)
    as (_ & Hreq & _ & ev & Hev & _).
  simpl. split_and!; [done | apply odict_get_Some_keys; eauto | done | eauto].
Qed.

Lemma webllm_generate_overflow_keeps_request_witness :
  (webllm_generate
     (mkGenerate (Some "be brief") (Some "why?") None None None (Some 10000000000))
     "g" 3 [] [] (Sample.one true)).1
  = JsonError (MsgOverflow "WebLLM generation failed: ") HTTP_500_INTERNAL_SERVER_ERROR ∧
  live "g"
    (webllm_generate
       (mkGenerate (Some "be brief") (Some "why?") None None None (Some 10000000000))
       "g" 3 [] [] (Sample.one true)).2.
Proof.
  destruct (webllm_generate_overflow_keeps_request
              (mkGenerate (Some "be brief") (Some "why?") None None None
                          (Some 10000000000))
              "g" 3 [] [] (Sample.one true)) as (H1 & H2 & _).
  - apply bridge_inv_exec, bridge_inv_init.
  - unfold live. rewrite <- odict_get_None_keys. reflexivity.
  - reflexivity.
  - reflexivity.
  - reflexivity.
  - split; [by rewrite H1 | exact H2].
Defined.

(** X25: the same for [webllm_chat] without streaming: with a content and
    a posted timeout above [TIMEOUT_MAX], the view answers with status 500
    and the text of the [OverflowError], and its request stays
    registered. *)
Theorem webllm_chat_view_overflow_keeps_request data uuid now sched gap start ticks st :
  bridge_inv st → ¬ live uuid st →
  Py.str_truthy (strip (posted_content data)) = true →
  default false (p_stream data) = false →
  TIMEOUT_MAX < default DEFAULT_WEBLLM_TIMEOUT (p_timeout data) →
  webllm_chat_view data uuid now sched gap start ticks st =
    (JsonError (MsgOverflow "") HTTP_500_INTERNAL_SERVER_ERROR,
     (create_request uuid now (chat_data data) st).2) ∧
  live uuid (webllm_chat_view data uuid now sched gap start ticks st).2.
Proof.
  intros Hinv Hfresh Htruthy Hstream Hmax.
  rewrite (webllm_chat_view_eq _ _ _ _ _ _ _ _ _ _
             (webllm_chat_registered data uuid now st Htruthy) Hstream).
  rewrite chat_wait_raises by done.
  destruct (Z.ltb_spec TIMEOUT_MAX (default DEFAULT_WEBLLM_TIMEOUT (p_timeout data)));
    [|lia].
  destruct (created_non_streaming st uuid now (chat_data data) Hinv Hfresh Hstream)
    as (_ & Hreq & _).
  simpl. split; [done | apply odict_get_Some_keys; eauto].
Qed.

Lemma webllm_chat_view_overflow_keeps_request_witness :
  live "c"
    (webllm_chat_view
       (mkPost (Some "hi") None None None None None None (Some 10000000000) None)
       "c" 3 [] [] 0 [] (Sample.one true)).2.
Proof.
  apply (webllm_chat_view_overflow_keeps_request
           (mkPost (Some "hi") None None None None None None (Some 10000000000) None)
           "c" 3 [] [] 0 [] (Sample.one true)).
  - apply bridge_inv_exec, bridge_inv_init.
  - unfold live. rewrite <- odict_get_None_keys. reflexivity.
  - reflexivity.
  - reflexivity.
  - reflexivity.
Defined.

(** ** Other modules *)

Lemma first_bindable_spec bindable port_list :
  match first_bindable bindable port_list with
  | Some (Port port) =>
      ∃ before after, port_list = before ++ port :: after ∧
                      port_in_range port = true ∧ bindable port = true ∧
                      Forall (λ p, port_in_range p = true ∧ bindable p = false) before
  | Some PortOverflowError =>
      ∃ before port after, port_list = before ++ port :: after ∧
                           port_in_range port = false ∧
                           Forall (λ p, port_in_range p = true ∧ bindable p = false) before
  | Some PortIndexError => False
  | None => Forall (λ p, port_in_range p = true ∧ bindable p = false) port_list
  end.
Proof.
  induction port_list as [|p rest IH]; simpl; [constructor|].
  destruct (port_in_range p) eqn:Hrange.
  - destruct (bindable p) eqn:Hp.
    + exists [], rest. split_and!; [done | done | done | constructor].
    + destruct (first_bindable bindable rest) as [[port| |]|].
      * destruct IH as (before & after & -> & Hr & Hport & Hbefore).
        exists (p :: before), after. split_and!; [done | done | done | by constructor].
      * done.
      * destruct IH as (before & port & after & -> & Hr & Hbefore).
        exists (p :: before), port, after. split_and!; [done | done | by constructor].
      * by constructor.
  - exists [], p, rest. split_and!; [done | done | constructor].
Qed.

Lemma first_bindable_overflow bindable before port after :
  Forall (λ p, port_in_range p = true ∧ bindable p = false) before →
  port_in_range port = false →
  first_bindable bindable (before ++ port :: after) = Some PortOverflowError.
Proof.
  intros Hbefore Hport. induction Hbefore as [|p before [Hr Hp] _ IH]; simpl.
  - by rewrite Hport.
  - by rewrite Hr, Hp.
Qed.

(** X21: [find_free_port] returns the first port of the list that can
    be bound, the ports before it being occupied; if none can be bound it
    falls back on the first port of the list although it is occupied; on
    an empty list it raises [IndexError].  The port it returns is always
    one of the list.  When every port number of a non-empty list is in
    0..65535 it does return a port; it raises [OverflowError] exactly when
    a port number outside that range is reached, the ports before it being
    occupied. *)
Theorem find_free_port_first_available bindable port_list :
  (port_list = [] → find_free_port bindable port_list = PortIndexError) ∧
  (∀ port, find_free_port bindable port_list = Port port →
     port ∈ port_list ∧
     ((bindable port = true ∧ port_in_range port = true ∧
       ∃ before after,
         port_list = before ++ port :: after ∧
         Forall (λ p, port_in_range p = true ∧ bindable p = false) before) ∨
      (Forall (λ p, port_in_range p = true ∧ bindable p = false) port_list ∧
       head port_list = Some port))) ∧
  (port_list ≠ [] → Forall (λ p, port_in_range p = true) port_list →
   ∃ port, find_free_port bindable port_list = Port port) ∧
  (find_free_port bindable port_list = PortOverflowError ↔
   ∃ before port after,
     port_list = before ++ port :: after ∧ port_in_range port = false ∧
     Forall (λ p, port_in_range p = true ∧ bindable p = false) before).
Proof.
  unfold find_free_port. pose proof (first_bindable_spec bindable port_list) as Hspec.
  split_and!.
  - by intros ->.
  - intros port. destruct (first_bindable bindable port_list) as [[p| |]|].
    + intros [= ->]. destruct Hspec as (before & after & -> & Hr & Hport & Hbefore).
      split; [apply elem_of_app; right; by left|].
      left. split_and!; [done | done |]. by exists before, after.
    + done.
    + done.
    + destruct port_list as [|p rest]; [done|]. intros [= ->].
      split; [by left | by right].
  - intros Hne Hall. destruct (first_bindable bindable port_list) as [[p| |]|].
    + by exists p.
    + done.
    + destruct Hspec as (before & port & after & -> & Hr & _).
      apply Forall_app in Hall as [_ Hall]. apply Forall_cons in Hall as [Hport _].
      congruence.
    + destruct port_list as [|p rest]; [done | by exists p].
  - split.
    + destruct (first_bindable bindable port_list) as [[p| |]|]; try done.
      by destruct port_list.
    + intros (before & port & after & -> & Hr & Hbefore).
      by rewrite first_bindable_overflow.
Qed.

Lemma find_free_port_first_available_witness :
  ∃ port, find_free_port (λ p, Z.eqb p 8001) [8000; 8001; 8002] = Port port.
Proof.
  apply (find_free_port_first_available (λ p, Z.eqb p 8001) [8000; 8001; 8002]).
  - discriminate.
  - repeat constructor.
Defined.

(** X22: [validate_required_fields] returns the empty dictionary exactly
    when every required field is a key of the data (whatever its value);
    otherwise it returns, under [missing_fields], the required fields that
    are not keys of the data, in the order in which they were required. *)
Theorem validate_required_fields_spec {V} (data : gmap string V)
    (required_fields : list string) :
  (validate_required_fields data required_fields = None ↔
   ∀ field, field ∈ required_fields → is_Some (data !! field)) ∧
  (∀ missing, validate_required_fields data required_fields = Some missing →
     missing ≠ [] ∧
     missing = filter (λ field, field ∉ dom data) required_fields ∧
     ∀ field, field ∈ missing ↔ field ∈ required_fields ∧ data !! field = None).
Proof.
  unfold validate_required_fields.
  set (missing0 := filter (λ field, data !! field = None) required_fields).
  assert (∀ field, field ∈ missing0 ↔ field ∈ required_fields ∧ data !! field = None)
    as Hmem.
  { intros field. unfold missing0. rewrite list_elem_of_filter. tauto. }
  split.
  - destruct missing0 as [|f rest] eqn:E.
    + split; [|done]. intros _ field Hin.
      destruct (data !! field) eqn:Hf; [eauto|].
      assert (field ∈ []) as Habs by (apply Hmem; done). inversion Habs.
    + split; [done|]. intros Hall. exfalso.
      assert (f ∈ f :: rest) as [Hin Hnone]%Hmem by by left.
      destruct (Hall f Hin) as [? ?]. congruence.
  - intros missing Hsome.
    assert (missing = missing0 ∧ missing ≠ []) as [-> Hne].
    { destruct missing0; [done|]. injection Hsome as <-. done. }
    split_and!; [done | | done].
    unfold missing0. apply list_filter_iff. intros field.
    by rewrite not_elem_of_dom.
Qed.

Lemma str_take_length n s : (String.length (str_take n s) ≤ n)%nat.
Proof.
  revert s. induction n as [|n IH]; intros [|c s]; simpl; try lia.
  specialize (IH s). lia.
Qed.

Lemma str_take_all n s : (String.length s ≤ n)%nat → str_take n s = s.
Proof.
  revert s. induction n as [|n IH]; intros [|c s]; simpl; try done; try lia.
  intros Hlen. f_equal. apply IH. lia.
Qed.

Lemma str_take_exact n s :
  (n ≤ String.length s)%nat → String.length (str_take n s) = n.
Proof.
  revert s. induction n as [|n IH]; intros [|c s]; cbn [str_take String.length];
    try done; try lia.
  intros Hn. f_equal. apply IH. lia.
Qed.

Lemma append_cons c s1 s2 :
  String.append (String c s1) s2 = String c (String.append s1 s2).
Proof. reflexivity. Qed.

Lemma str_take_prefix n s : ∃ rest, s = String.append (str_take n s) rest.
Proof.
  revert s. induction n as [|n IH]; intros s.
  - by exists s.
  - destruct s as [|c s]; [by exists ""|].
    destruct (IH s) as [rest Hrest]. exists rest.
    cbn [str_take]. rewrite append_cons. f_equal. exact Hrest.
Qed.

Lemma string_length_append s1 s2 :
  String.length (String.append s1 s2) = (String.length s1 + String.length s2)%nat.
Proof.
  induction s1 as [|c s1 IH]; [done|].
  rewrite append_cons. cbn [String.length]. by rewrite IH.
Qed.

(** X23: [get_last_message_preview] returns "No messages yet" when the
    session has no message; a content of at most 100 characters is
    returned as it is; a longer one is cut to its first 100 characters
    followed by "...", so a preview of a message never exceeds 103
    characters. *)
Theorem get_last_message_preview_bounded :
  get_last_message_preview None = "No messages yet" ∧
  ∀ text,
    (String.length (get_last_message_preview (Some text)) ≤ 103)%nat ∧
    ((String.length text ≤ 100)%nat → get_last_message_preview (Some text) = text) ∧
    ((100 < String.length text)%nat →
       get_last_message_preview (Some text) = String.append (str_take 100 text) "..." ∧
       String.length (get_last_message_preview (Some text)) = 103%nat ∧
       ∃ rest, text = String.append (str_take 100 text) rest).
Proof.
  split; [done|]. intros text. unfold get_last_message_preview.
  pose proof (str_take_length 100 text) as Hlen.
  assert (String.length (String.append (str_take 100 text) "...")
          = (String.length (str_take 100 text) + 3)%nat) as Happ
    by apply string_length_append.
  destruct (Nat.ltb_spec 100 (String.length text)) as [Hlong|Hshort].
  - split_and!; [lia | lia |].
    intros _. split_and!; [done | | apply str_take_prefix].
    rewrite Happ, str_take_exact; lia.
  - split_and!; [lia | | lia]. intros _. by apply str_take_all.
Qed.

Lemma get_last_message_preview_bounded_witness :
  get_last_message_preview (Some "How do I reset my password?")
    = "How do I reset my password?".
Proof.
  destruct get_last_message_preview_bounded as [_ H].
  destruct (H "How do I reset my password?") as (_ & Hshort & _).
  apply Hshort. vm_compute. lia.
Defined.

Lemma validate_required_fields_spec_witness :
  ["model"] =
  filter (λ field, field ∉ dom ({["content" := 1%nat]} : gmap string nat))
         ["content"; "model"].
Proof.
  destruct (validate_required_fields_spec ({["content" := 1%nat]} : gmap string nat)
              ["content"; "model"]) as [_ H].
  destruct (H ["model"] eq_refl) as (_ & Hmissing & _). exact Hmissing.
Defined.

Lemma get_status_consistent_witness :
  ODict.get pending
    (requests_by_status (get_status (exec [OpCreate "a" 0 (Sample.data false)] init)))
    = Some 1%nat ∧ (0 < 1)%nat.
Proof.
  destruct (get_status_consistent [OpCreate "a" 0 (Sample.data false)]) as (_ & _ & _ & H).
  split; [reflexivity|]. apply (H pending 1%nat). reflexivity.
Defined.
